(** * Trade-Pulse-Tracker: the tick wire protocol, validator, sequencer,
      framer and reconnecting sender

    A shallow embedding of

    - [packages/tick-generator/src/tcp-sender.ts]   (class [TcpSender]),
    - [packages/ingestor/src/message-validator.ts]  (class [MessageValidator]),
    - [packages/ingestor/src/tcp-server.ts]         (class [TcpServer]),
    - [packages/ingestor/src/ingestor-service.ts]   (class [IngestorService]),
    - [packages/ingestor/src/kafka-publisher.ts]    (class [KafkaPublisher]),
    - the instrument codes of [CsvReplay] and [BinanceRelay] (tick generator),
    - [packages/ingestor/src/types.ts] and [packages/ingestor/src/index.ts],

    together with the properties of the wire codec, the validation state,
    the sequence identifiers, the framing, the reconnect queue, the
    clients of the server, the publisher and the counters of the service,
    the periodic [report] callback of [startMetricsReporting] included.

    Conventions.

    - A JavaScript string is the list of its UTF-16 code units ([list N]).
    - Integer-valued numbers (the clock, counters, and the timestamp of a
      decoded tick, which is the result of a [parseInt]) are [Z];
      [Date.now()] is an explicit argument of the function that reads the
      clock.  The timestamp of a tick of the generator is a [number]: it
      may have a fraction, be NaN, or lie outside the range of dates, in
      which case logging the tick throws in [sendTick].
    - Prices, volumes and the deviation threshold are values of an abstract
      JavaScript [number] type (class [JSNumber]) that supplies exactly the
      primitives the sources apply to them; the definitions of the validator
      are written once against that interface.  [Dec] is a concrete,
      executable instance (exact decimal arithmetic with NaN, the infinities
      and a signed zero) on which every definition evaluates. *)

From Stdlib Require Import ZArith NArith Lia Bool String Ascii.
From Stdlib Require DecimalN DecimalFacts DecimalPos.
From stdpp Require Import base option list strings gmap.

Local Open Scope N_scope.

(* ================================================================== *)
(** * JavaScript strings and the string built-ins the sources call     *)
(* ================================================================== *)

Module JS.

(** A string is the sequence of its UTF-16 code units. *)
Abbreviation jsstring := (list N) (only parsing).

(** String literals of the sources (all ASCII). *)
Definition lit (s : string) : list N :=
  List.map N_of_ascii (list_ascii_of_string s).

Definition TAB : N := 9.
Definition LF : N := 10.
Definition CR : N := 13.
Definition SPACE : N := 32.
Definition PLUS : N := 43.
Definition MINUS : N := 45.
Definition DOT : N := 46.
Definition EQUALS : N := 61.
Definition PIPE : N := 124.

(** [s.length === 0], the only way for a string to be falsy. *)
Definition isEmpty (s : list N) : bool :=
  match s with [] => true | _ => false end.

(** [a === b] on strings. *)
Fixpoint streq (a b : list N) : bool :=
  match a, b with
  | [], [] => true
  | x :: a', y :: b' => (x =? y) && streq a' b'
  | _, _ => false
  end.

(** ** [String.prototype.trim]

    ECMAScript WhiteSpace and LineTerminator code points: TAB, LF, VT, FF,
    CR, SP, NBSP, U+1680, U+2000..U+200A, U+2028, U+2029, U+202F, U+205F,
    U+3000 and U+FEFF. *)
Definition isWhiteSpace (c : N) : bool :=
  ((9 <=? c) && (c <=? 13))
  || (c =? 32) || (c =? 160) || (c =? 5760)
  || ((8192 <=? c) && (c <=? 8202))
  || (c =? 8232) || (c =? 8233) || (c =? 8239) || (c =? 8287)
  || (c =? 12288) || (c =? 65279).

Fixpoint trimStart (s : list N) : list N :=
  match s with
  | [] => []
  | c :: t => if isWhiteSpace c then trimStart t else s
  end.

Definition trimEnd (s : list N) : list N := rev (trimStart (rev s)).

Definition trim (s : list N) : list N := trimEnd (trimStart s).

(** ** [s.replace(/\r?\n/g, '')]

    Scanning left to right, a line feed is removed, together with the
    carriage return that immediately precedes it. *)
Fixpoint removeNewlines (s : list N) : list N :=
  match s with
  | [] => []
  | c :: t =>
      if c =? LF then removeNewlines t
      else
        match t with
        | d :: u =>
            if (c =? CR) && (d =? LF) then removeNewlines u
            else c :: removeNewlines t
        | [] => [c]
        end
  end.

(** ** [s.split(sep)] for a one-character separator, and [a.join(sep)] *)
Fixpoint split (sep : N) (s : list N) : list (list N) :=
  match s with
  | [] => [[]]
  | c :: t =>
      if c =? sep then [] :: split sep t
      else
        match split sep t with
        | p :: ps => (c :: p) :: ps
        | [] => [[c]]
        end
  end.

Fixpoint join (sep : N) (parts : list (list N)) : list N :=
  match parts with
  | [] => []
  | [p] => p
  | p :: ps => p ++ sep :: join sep ps
  end.

(** ** [s.indexOf(c)]: [None] stands for [-1]. *)
Fixpoint indexOf (c : N) (s : list N) : option nat :=
  match s with
  | [] => None
  | x :: t => if x =? c then Some O else S <$> indexOf c t
  end.

(** [s.slice(0, n)] and [s.slice(n)] for [0 <= n]. *)
Definition slice_to (n : nat) (s : list N) : list N := take n s.
Definition slice_from (n : nat) (s : list N) : list N := drop n s.

(** ** Character classes *)
Definition isDigit (c : N) : bool := (48 <=? c) && (c <=? 57).
Definition isUpper (c : N) : bool := (65 <=? c) && (c <=? 90).
Definition isLower (c : N) : bool := (97 <=? c) && (c <=? 122).

(** [/^[A-Z0-9.=]+$/i.test(s)].  Without the [u] flag the case-insensitive
    match never maps a code unit above 127 onto an ASCII one, so exactly the
    ASCII letters of both cases, the digits, [.] and [=] match. *)
Definition isRicChar (c : N) : bool :=
  isUpper c || isLower c || isDigit c || (c =? DOT) || (c =? EQUALS).

Definition ricRegexTest (s : list N) : bool :=
  negb (isEmpty s) && forallb isRicChar s.

(** [s.toUpperCase()] on the ASCII range.  Its one call site,
    [validateRic], applies it to a string that has passed [ricRegexTest]
    (lemma [ricRegexTest_ascii] below), where the Unicode mapping and this
    one agree. *)
Definition upperChar (c : N) : N := if isLower c then c - 32 else c.
Definition toUpperCase (s : list N) : list N := List.map upperChar s.

(** ** Decimal digits of integers *)

Fixpoint uintCodes (u : Decimal.uint) : list N :=
  match u with
  | Decimal.Nil => []
  | Decimal.D0 u => 48 :: uintCodes u
  | Decimal.D1 u => 49 :: uintCodes u
  | Decimal.D2 u => 50 :: uintCodes u
  | Decimal.D3 u => 51 :: uintCodes u
  | Decimal.D4 u => 52 :: uintCodes u
  | Decimal.D5 u => 53 :: uintCodes u
  | Decimal.D6 u => 54 :: uintCodes u
  | Decimal.D7 u => 55 :: uintCodes u
  | Decimal.D8 u => 56 :: uintCodes u
  | Decimal.D9 u => 57 :: uintCodes u
  end.

(** The digits at the head of [s], and what follows them. *)
Fixpoint spanDigits (s : list N) : Decimal.uint * list N :=
  match s with
  | [] => (Decimal.Nil, [])
  | c :: t =>
      let k (f : Decimal.uint -> Decimal.uint) :=
        let '(u, r) := spanDigits t in (f u, r) in
      if c =? 48 then k Decimal.D0 else
      if c =? 49 then k Decimal.D1 else
      if c =? 50 then k Decimal.D2 else
      if c =? 51 then k Decimal.D3 else
      if c =? 52 then k Decimal.D4 else
      if c =? 53 then k Decimal.D5 else
      if c =? 54 then k Decimal.D6 else
      if c =? 55 then k Decimal.D7 else
      if c =? 56 then k Decimal.D8 else
      if c =? 57 then k Decimal.D9 else
      (Decimal.Nil, s)
  end.

(** [Number.prototype.toString] on an integer below 10^21 in magnitude:
    the decimal digits, with a leading [-] when negative. *)
Definition N_toString (n : N) : list N := uintCodes (N.to_uint n).

Definition Z_toString (z : Z) : list N :=
  match z with
  | Z0 => [48]
  | Zpos p => N_toString (Npos p)
  | Zneg p => MINUS :: N_toString (Npos p)
  end.

(** [parseInt(s, 10)]: leading white space is skipped, then an optional
    sign, then the longest run of decimal digits; [None] stands for NaN
    (no digit).  The result is the exact integer; JavaScript rounds an
    integer of more than 53 bits to the nearest double, which changes the
    outcome of none of the comparisons the sources make with it (their
    bounds are below 2^53). *)
Definition parseInt (s : list N) : option Z :=
  let s1 := trimStart s in
  let '(neg, s2) :=
    match s1 with
    | c :: t =>
        if c =? MINUS then (true, t)
        else if c =? PLUS then (false, t)
        else (false, s1)
    | [] => (false, [])
    end in
  match spanDigits s2 with
  | (Decimal.Nil, _) => None
  | (u, _) =>
      let v := Z.of_N (N.of_uint u) in
      Some (if neg then (- v)%Z else v)
  end.

(** [a < b] on strings: lexicographic order on code units. *)
Fixpoint strlt (a b : list N) : bool :=
  match a, b with
  | _, [] => false
  | [], _ :: _ => true
  | x :: a', y :: b' => (x <? y) || ((x =? y) && strlt a' b')
  end.

(** ** [s.startsWith(p)] and [s.includes(p)] *)
Fixpoint startsWith (p s : list N) : bool :=
  match p, s with
  | [], _ => true
  | x :: p', y :: s' => (x =? y) && startsWith p' s'
  | _ :: _, [] => false
  end.

Fixpoint includes (p s : list N) : bool :=
  startsWith p s
  || match s with
     | [] => false
     | _ :: t => includes p t
     end.

(** ** [obj[key]] on an object literal with string values

    The own properties are searched first; a key that is not among them
    is looked up in [Object.prototype], whose members are functions and,
    for [__proto__], an object. *)
Definition objectPrototypeKeys : list (list N) :=
  lit <$> [ "constructor"; "__defineGetter__"; "__defineSetter__";
            "hasOwnProperty"; "__lookupGetter__"; "__lookupSetter__";
            "isPrototypeOf"; "propertyIsEnumerable"; "toString"; "valueOf";
            "__proto__"; "toLocaleString" ]%string.

Inductive Property : Type :=
| Own (value : list N)
| Inherited
| Missing.

Fixpoint ownProperty (props : list (list N * list N)) (key : list N)
    : option (list N) :=
  match props with
  | [] => None
  | (k, v) :: rest => if streq k key then Some v else ownProperty rest key
  end.

Definition getProperty (props : list (list N * list N)) (key : list N) : Property :=
  match ownProperty props key with
  | Some v => Own v
  | None => if existsb (streq key) objectPrototypeKeys then Inherited else Missing
  end.

(** The value of [obj[key] || fallback]: a string, or a member of
    [Object.prototype], which is truthy and not a string. *)
Inductive Looked : Type :=
| Text (s : list N)
| Member.

Definition getOr (props : list (list N * list N)) (key fallback : list N) : Looked :=
  match getProperty props key with
  | Own v => Text (if isEmpty v then fallback else v)
  | Inherited => Member
  | Missing => Text fallback
  end.

End JS.


(* ================================================================== *)
(** * JavaScript numbers                                               *)
(* ================================================================== *)

(** The primitives the sources apply to values of type [number] that are
    not known to be integers (prices, volumes, the deviation threshold).
    [NaN] and the infinities are values of the type.  [a > b] is [b < a]. *)
Class JSNumber : Type := {
  number : Type;
  (** the global [parseFloat] *)
  parseFloat : list N -> number;
  (** [Number.prototype.toString] with no radix *)
  toString : number -> list N;
  (** the globals [isNaN] and [isFinite]; the sources call the first, the
      laws of [JSNumberSpec] are stated with the second *)
  isNaN : number -> bool;
  isFinite : number -> bool;
  (** [a < b], [a <= b], [a === b] *)
  lt : number -> number -> bool;
  le : number -> number -> bool;
  strictEq : number -> number -> bool;
  (** [a - b], [a / b], [Math.abs(a)] *)
  sub : number -> number -> number;
  div : number -> number -> number;
  abs : number -> number;
  (** the value of an integer literal, and the value [-0] *)
  ofZ : Z -> number;
  negZero : number
}.

Definition gt `{JSNumber} (a b : number) : bool := lt b a.

(** Whether [new Date(t).toISOString()] returns.  The time value of
    [new Date(t)] is [TimeClip(t)]: NaN unless [t] is finite and
    [Math.abs(t) <= 8.64e15]; [toISOString] throws a [RangeError] when
    the time value is NaN. *)
Definition validDate `{JSNumber} (t : number) : bool :=
  isFinite t && le (abs t) (ofZ 8640000000000000).

(** What ECMAScript guarantees of [Number.prototype.toString] and
    [parseFloat] on finite numbers: the digits chosen by [toString] denote
    the number itself, so [parseFloat] reads it back; [-0] alone prints as
    the [0] of [+0]; and an integer that a double holds exactly (up to
    [2^53] in magnitude) prints as its decimal digits. *)
Definition isNumberChar (c : N) : bool :=
  JS.isDigit c || (c =? JS.DOT) || (c =? JS.MINUS) || (c =? JS.PLUS) || (c =? 101).

Class JSNumberSpec (J : JSNumber) : Prop := {
  toString_nonempty : forall x : number, toString x <> [];
  toString_chars : forall x : number,
    isFinite x = true -> forallb isNumberChar (toString x) = true;
  parseFloat_toString : forall x : number,
    isFinite x = true -> x <> negZero -> parseFloat (toString x) = x;
  toString_ofZ : forall z : Z,
    (Z.abs z <= 9007199254740992)%Z -> toString (ofZ z) = JS.Z_toString z
}.

(* ================================================================== *)
(** * [Dec]: an executable instance of [JSNumber]                      *)
(* ================================================================== *)

(** Finite numbers are exact decimals: a sign, a significand
    [d1 d2 ... dk] whose first and last digits are not zero, and the
    exponent [n] of ECMAScript's [Number::toString], so that the value is
    [0.d1 d2 ... dk * 10^n].  Every value has exactly one representation.
    Subtraction and comparison are exact; a quotient is cut after
    [precision] significant digits.  Binary rounding is not modelled. *)
Module Dec.

Inductive nzdigit : Set := N1 | N2 | N3 | N4 | N5 | N6 | N7 | N8 | N9.
Inductive digit : Set := D0 | Dnz (d : nzdigit).

(** [rest] is [None] for a one-digit significand, and otherwise holds the
    digits between the first and the last, and the last. *)
Record significand : Set :=
  { first : nzdigit; rest : option (list digit * nzdigit) }.

Inductive dec : Set :=
| NaN
| Inf (neg : bool)
| Zero (neg : bool)
| Fin (neg : bool) (s : significand) (n : Z).

Definition digits (s : significand) : list digit :=
  Dnz (first s) ::
  match rest s with
  | None => []
  | Some (mid, l) => mid ++ [Dnz l]
  end.

Definition nzCode (d : nzdigit) : N :=
  match d with
  | N1 => 49 | N2 => 50 | N3 => 51 | N4 => 52 | N5 => 53
  | N6 => 54 | N7 => 55 | N8 => 56 | N9 => 57
  end.

Definition digitCode (d : digit) : N :=
  match d with D0 => 48 | Dnz d => nzCode d end.

Definition codeDigit (c : N) : option digit :=
  if c =? 48 then Some D0 else
  if c =? 49 then Some (Dnz N1) else
  if c =? 50 then Some (Dnz N2) else
  if c =? 51 then Some (Dnz N3) else
  if c =? 52 then Some (Dnz N4) else
  if c =? 53 then Some (Dnz N5) else
  if c =? 54 then Some (Dnz N6) else
  if c =? 55 then Some (Dnz N7) else
  if c =? 56 then Some (Dnz N8) else
  if c =? 57 then Some (Dnz N9) else None.

Definition nzVal (d : nzdigit) : Z :=
  match d with
  | N1 => 1 | N2 => 2 | N3 => 3 | N4 => 4 | N5 => 5
  | N6 => 6 | N7 => 7 | N8 => 8 | N9 => 9
  end.

Definition digitVal (d : digit) : Z :=
  match d with D0 => 0 | Dnz d => nzVal d end.

Definition signCodes (neg : bool) : list N :=
  if neg then [JS.MINUS] else [].

(** ** [Number::toString(x, 10)] *)
Definition toString (x : dec) : list N :=
  match x with
  | NaN => JS.lit "NaN"
  | Inf neg => signCodes neg ++ JS.lit "Infinity"
  | Zero _ => JS.lit "0"
  | Fin neg s n =>
      let ds := List.map digitCode (digits s) in
      let k := Z.of_nat (length ds) in
      signCodes neg ++
      (if (k <=? n)%Z && (n <=? 21)%Z then
         ds ++ repeat 48 (Z.to_nat (n - k))
       else if (0 <? n)%Z && (n <=? 21)%Z then
         take (Z.to_nat n) ds ++ JS.DOT :: drop (Z.to_nat n) ds
       else if (-6 <? n)%Z && (n <=? 0)%Z then
         48 :: JS.DOT :: repeat 48 (Z.to_nat (- n)) ++ ds
       else
         let e := (n - 1)%Z in
         let exponent :=
           101 :: (if (e <? 0)%Z then JS.MINUS else JS.PLUS)
               :: JS.N_toString (Z.abs_N e) in
         match ds with
         | [] => exponent
         | [d] => d :: exponent
         | d :: ds' => d :: JS.DOT :: ds' ++ exponent
         end)
  end.

(** ** The unique representation of [0.ds * 10^n] *)
Fixpoint stripZeros (ds : list digit) : nat * list digit :=
  match ds with
  | D0 :: t => let '(z, r) := stripZeros t in (S z, r)
  | _ => (O, ds)
  end.

Definition mkSignificand (hd : nzdigit) (tail : list digit) : significand :=
  match snd (stripZeros (rev tail)) with
  | Dnz l :: rmid => {| first := hd; rest := Some (rev rmid, l) |}
  | _ => {| first := hd; rest := None |}
  end.

Definition canon (neg : bool) (ds : list digit) (n : Z) : dec :=
  match stripZeros ds with
  | (z, Dnz hd :: tail) => Fin neg (mkSignificand hd tail) (n - Z.of_nat z)
  | _ => Zero neg
  end.

(** ** [parseFloat]: the longest prefix that is a [StrDecimalLiteral] *)
Fixpoint spanDec (s : list N) : list digit * list N :=
  match s with
  | [] => ([], [])
  | c :: t =>
      match codeDigit c with
      | Some d => let '(ds, r) := spanDec t in (d :: ds, r)
      | None => ([], s)
      end
  end.

Fixpoint startsWith (p s : list N) : bool :=
  match p, s with
  | [], _ => true
  | x :: p', y :: s' => (x =? y) && startsWith p' s'
  | _ :: _, [] => false
  end.

Definition takeSign (s : list N) : bool * list N :=
  match s with
  | c :: t =>
      if c =? JS.MINUS then (true, t)
      else if c =? JS.PLUS then (false, t)
      else (false, s)
  | [] => (false, [])
  end.

(** The value of the [ExponentPart] at the head of [r], and [0] when [r]
    does not start with one. *)
Definition parseExponent (r : list N) : Z :=
  match r with
  | c :: t =>
      if (c =? 101) || (c =? 69) then
        let '(neg, t') := takeSign t in
        match JS.spanDigits t' with
        | (Decimal.Nil, _) => 0%Z
        | (u, _) =>
            let v := Z.of_N (N.of_uint u) in
            if neg then (- v)%Z else v
        end
      else 0%Z
  | [] => 0%Z
  end.

(** A [StrUnsignedDecimalLiteral] at the head of [s], with the sign read
    before it. *)
Definition parseUnsigned (neg : bool) (s : list N) : dec :=
  if startsWith (JS.lit "Infinity") s then Inf neg
  else
    let '(ip, r1) := spanDec s in
    let int_only (r : list N) :=
      match ip with
      | [] => NaN
      | _ => canon neg ip (Z.of_nat (length ip) + parseExponent r)
      end in
    match r1 with
    | c :: t =>
        if c =? JS.DOT then
          let '(fp, r2) := spanDec t in
          match ip, fp with
          | [], [] => NaN
          | _, _ =>
              canon neg (ip ++ fp) (Z.of_nat (length ip) + parseExponent r2)
          end
        else int_only r1
    | [] => int_only r1
    end.

Definition parseFloat (s : list N) : dec :=
  let '(neg, s2) := takeSign (JS.trimStart s) in
  parseUnsigned neg s2.

(** ** Arithmetic *)

(** [scaled x = (m, e)] with [x = m * 10^e], for a finite [x]. *)
Definition mantissa (s : significand) : Z :=
  fold_left (fun acc d => (10 * acc + digitVal d)%Z) (digits s) 0%Z.

Definition scaled (x : dec) : Z * Z :=
  match x with
  | Fin neg s n =>
      (if neg then (- mantissa s)%Z else mantissa s,
       (n - Z.of_nat (length (digits s)))%Z)
  | _ => (0%Z, 0%Z)
  end.

Fixpoint uintDigits (u : Decimal.uint) : list digit :=
  match u with
  | Decimal.Nil => []
  | Decimal.D0 u => D0 :: uintDigits u
  | Decimal.D1 u => Dnz N1 :: uintDigits u
  | Decimal.D2 u => Dnz N2 :: uintDigits u
  | Decimal.D3 u => Dnz N3 :: uintDigits u
  | Decimal.D4 u => Dnz N4 :: uintDigits u
  | Decimal.D5 u => Dnz N5 :: uintDigits u
  | Decimal.D6 u => Dnz N6 :: uintDigits u
  | Decimal.D7 u => Dnz N7 :: uintDigits u
  | Decimal.D8 u => Dnz N8 :: uintDigits u
  | Decimal.D9 u => Dnz N9 :: uintDigits u
  end.

(** The number [m * 10^e]. *)
Definition ofScaled (m e : Z) : dec :=
  let ds := uintDigits (N.to_uint (Z.abs_N m)) in
  canon (m <? 0)%Z ds (Z.of_nat (length ds) + e).

Definition isNeg (x : dec) : bool :=
  match x with
  | NaN => false
  | Inf neg | Zero neg | Fin neg _ _ => neg
  end.

Definition compare (a b : dec) : option comparison :=
  match a, b with
  | NaN, _ | _, NaN => None
  | Inf na, Inf nb =>
      Some (if na then (if nb then Eq else Lt) else (if nb then Gt else Eq))
  | Inf na, _ => Some (if na then Lt else Gt)
  | _, Inf nb => Some (if nb then Gt else Lt)
  | _, _ =>
      let '(m1, e1) := scaled a in
      let '(m2, e2) := scaled b in
      let e := Z.min e1 e2 in
      Some (Z.compare (m1 * 10 ^ (e1 - e)) (m2 * 10 ^ (e2 - e)))
  end.

Definition lt (a b : dec) : bool :=
  match compare a b with Some Lt => true | _ => false end.

Definition le (a b : dec) : bool :=
  match compare a b with Some Lt | Some Eq => true | _ => false end.

Definition strictEq (a b : dec) : bool :=
  match compare a b with Some Eq => true | _ => false end.

Definition sub (a b : dec) : dec :=
  match a, b with
  | NaN, _ | _, NaN => NaN
  | Inf na, Inf nb => if Bool.eqb na nb then NaN else Inf na
  | Inf na, _ => Inf na
  | _, Inf nb => Inf (negb nb)
  | Zero na, Zero nb => Zero (na && negb nb)
  | _, _ =>
      let '(m1, e1) := scaled a in
      let '(m2, e2) := scaled b in
      let e := Z.min e1 e2 in
      ofScaled (m1 * 10 ^ (e1 - e) - m2 * 10 ^ (e2 - e)) e
  end.

Definition precision : Z := 17.

Definition div (a b : dec) : dec :=
  match a, b with
  | NaN, _ | _, NaN => NaN
  | Inf _, Inf _ => NaN
  | Inf na, _ => Inf (xorb na (isNeg b))
  | _, Inf nb => Zero (xorb (isNeg a) nb)
  | Zero _, Zero _ => NaN
  | _, Zero nb => Inf (xorb (isNeg a) nb)
  | Zero na, _ => Zero (xorb na (isNeg b))
  | Fin na sa _, Fin nb sb _ =>
      let '(_, e1) := scaled a in
      let '(_, e2) := scaled b in
      let ka := Z.of_nat (length (digits sa)) in
      let kb := Z.of_nat (length (digits sb)) in
      let s := Z.max 0 (precision + kb - ka) in
      let q := (mantissa sa * 10 ^ s / mantissa sb)%Z in
      match ofScaled q (e1 - e2 - s) with
      | Fin _ sq nq => Fin (xorb na nb) sq nq
      | r => r
      end
  end.

Definition abs (x : dec) : dec :=
  match x with
  | NaN => NaN
  | Inf _ => Inf false
  | Zero _ => Zero false
  | Fin _ s n => Fin false s n
  end.

Definition isNaN (x : dec) : bool :=
  match x with NaN => true | _ => false end.

Definition isFinite (x : dec) : bool :=
  match x with Zero _ | Fin _ _ _ => true | _ => false end.

Definition ofZ (z : Z) : dec := ofScaled z 0.

End Dec.

#[global] Instance DecNumber : JSNumber := {|
  number := Dec.dec;
  parseFloat := Dec.parseFloat;
  toString := Dec.toString;
  isNaN := Dec.isNaN;
  isFinite := Dec.isFinite;
  lt := Dec.lt;
  le := Dec.le;
  strictEq := Dec.strictEq;
  sub := Dec.sub;
  div := Dec.div;
  abs := Dec.abs;
  ofZ := Dec.ofZ;
  negZero := Dec.Zero true
|}.


(* ================================================================== *)
(** * [packages/ingestor/src/types.ts]                                 *)
(* ================================================================== *)

Section Types.
Context {J : JSNumber}.

(** [interface PriceTick] of the ingestor.  Its ticks are built by
    [validateMessage] alone, whose [timestamp] is the result of a
    [parseInt] that has passed the range check: an integer.  An optional
    field that is absent is [None].  The tick generator declares the same
    interface in its own [types.ts]; there [timestamp] is whatever number
    the data source yields ([TickGenerator.PriceTick] below). *)
Record PriceTick : Type := {
  ric : list N;
  price : number;
  timestamp : Z;
  volume : option number;
  bid : option number;
  ask : option number
}.

(** [interface RawMessage] *)
Record RawMessage : Type := {
  data : list N;
  clientId : list N;
  receivedAt : Z
}.

(** The [validation] member of [interface IngestorConfig], the only part
    of the configuration the validator reads.  [maxTimestampAge] is the
    result of a [parseInt], so it may be NaN ([None]). *)
Record ValidationConfig : Type := {
  strictMode : bool;
  maxPriceDeviation : number;
  maxTimestampAge : option Z
}.

Record IngestorConfig : Type := { validation : ValidationConfig }.

(** The messages [validateMessage] and its helpers push onto [errors].
    The text of a message is fixed by its constructor and arguments; the
    template is quoted beside each one. *)
Inductive ValidationError : Type :=
| EmptyMessage
    (* 'Empty message received' *)
| InvalidFormat (got : nat) (cleanMessage : list N)
    (* `Invalid message format. Expected 6 parts, got ${parts.length}.
       Message: ${cleanMessage}` *)
| RicRequired
    (* 'RIC is required and cannot be empty' *)
| RicTooShort (ric : list N)
    (* `RIC too short: ${ric}` *)
| RicTooLong (ric : list N)
    (* `RIC too long: ${ric}` *)
| RicInvalidFormat (ric : list N)
    (* `Invalid RIC format: ${ric}. Only alphanumeric characters, ...` *)
| FieldRequired (fieldName : string)
    (* `${fieldName} is required and cannot be empty` *)
| FieldNotANumber (fieldName : string) (text : list N)
    (* `Invalid ${fieldName}: ${priceStr}. Must be a valid number` *)
| FieldNotPositive (fieldName : string) (value : number)
    (* `Invalid ${fieldName}: ${price}. Must be greater than 0` *)
| FieldTooHigh (fieldName : string) (value : number)
    (* `Invalid ${fieldName}: ${price}. Suspiciously high value` *)
| TimestampRequired
    (* 'Timestamp is required and cannot be empty' *)
| TimestampNotANumber (text : list N)
    (* `Invalid timestamp: ${timestampStr}. Must be a valid Unix timestamp` *)
| TimestampOutOfRange (ts : Z)
    (* `Invalid timestamp: ${timestamp}. Must be between ${minTimestamp}
       and ${maxTimestamp}` *)
| TimestampTooOld (ts age : Z)
    (* `Timestamp too old: ${timestamp}. Age: ${age}ms, Max allowed: ...` *)
| TimestampInFuture (ts now : Z)
    (* `Timestamp too far in future: ${timestamp}. Current time: ${now}` *)
| OptionalNotANumber (fieldName : string) (text : list N)
    (* `Invalid ${fieldName}: ${valueStr}. Must be a valid number or empty` *)
| OptionalNegative (fieldName : string) (value : number)
    (* `Invalid ${fieldName}: ${value}. Cannot be negative` *)
| OptionalHighVolume (fieldName : string) (value : number)
    (* `Invalid ${fieldName}: ${value}. Suspiciously high volume` *)
| OptionalHighPrice (fieldName : string) (value : number)
    (* `Invalid ${fieldName}: ${value}. Suspiciously high price` *)
| BidAboveAsk (b a : number)
    (* `Invalid bid/ask spread: bid ${tick.bid} > ask ${tick.ask}` *)
| PriceOutsideSpread (p b a : number)
    (* `Price ${tick.price} outside bid/ask spread [${tick.bid}, ${tick.ask}]` *)
| SuspiciousPriceChange (deviation lastPrice p : number)
    (* `Suspicious price change: ${deviationPercent}% deviation from last
       price ${lastPrice} to ${tick.price}` *)
| ZeroVolume.
    (* 'Zero volume trades are not allowed in strict mode' *)

(** What [console.warn] is called with. *)
Inductive Warning : Type :=
| LargeDeviation (ric : list N) (deviation lastPrice p : number).
    (* `Large price deviation for ${tick.ric}: ${deviationPercent}%
       (${lastPrice} -> ${tick.price})` *)

(** [interface ValidationResult] *)
Record ValidationResult : Type := {
  isValid : bool;
  tick : option PriceTick;
  errors : list ValidationError
}.

(** [interface EnrichedTick extends PriceTick] *)
Record EnrichedTick : Type := {
  base : PriceTick;
  e_receivedAt : Z;
  e_clientId : list N;
  sequenceId : list N;
  latencyMs : option Z;
  validationPassed : bool;
  validationErrors : list ValidationError
}.

End Types.

(* ================================================================== *)
(** * [packages/ingestor/src/index.ts]: [loadConfiguration]            *)
(* ================================================================== *)

Section Configuration.
Context {J : JSNumber}.

(** [process.env.NAME || fallback]: an unset or empty variable yields the
    fallback. *)
Definition envOr (env : string -> option (list N)) (name : string)
    (fallback : list N) : list N :=
  match env name with
  | Some v => if JS.isEmpty v then fallback else v
  | None => fallback
  end.

(** The [validation] member built by [loadConfiguration]. *)
Definition loadConfiguration (env : string -> option (list N)) : IngestorConfig :=
  {| validation := {|
       strictMode :=
         match env "VALIDATION_STRICT_MODE"%string with
         | Some v => JS.streq v (JS.lit "true")
         | None => false
         end;
       maxPriceDeviation :=
         parseFloat (envOr env "VALIDATION_MAX_PRICE_DEVIATION" (JS.lit "0.1"));
       maxTimestampAge :=
         JS.parseInt (envOr env "VALIDATION_MAX_TIMESTAMP_AGE" (JS.lit "300000"))
     |} |}.

End Configuration.

(* ================================================================== *)
(** * [packages/ingestor/src/message-validator.ts]                     *)
(* ================================================================== *)

Module MessageValidator.
Section WithNumber.
Context {J : JSNumber}.

(** The object state: [config] and the [lastPrices] map. *)
Record t : Type := {
  config : IngestorConfig;
  lastPrices : gmap (list N) number
}.

(** The constructor: [lastPrices] starts empty. *)
Definition new (cfg : IngestorConfig) : t :=
  {| config := cfg; lastPrices := ∅ |}.

(** ** The [errors] array

    The helpers receive the array [errors] of [validateMessage] and push
    onto it.  A computation of type [Check A] takes the array as it is
    and returns its result with the array as it has become. *)
Definition Check (A : Type) : Type :=
  list ValidationError -> A * list ValidationError.

Definition ret {A} (a : A) : Check A := fun errs => (a, errs).

Definition bind {A B} (m : Check A) (k : A -> Check B) : Check B :=
  fun errs => let '(a, errs') := m errs in k a errs'.

(** [errors.push(e)] *)
Definition push (e : ValidationError) : Check unit :=
  fun errs => (tt, errs ++ [e]).

Notation "x <- m ;; k" := (bind m (fun x => k))
  (at level 100, m at next level, right associativity).
Notation "m ;;; k" := (bind m (fun _ => k))
  (at level 100, right associativity).

(** [!s || s.trim() === ''] *)
Definition blank (s : list N) : bool :=
  JS.isEmpty s || JS.isEmpty (JS.trim s).

(** ** [validateRic] *)
Definition validateRic (ricStr : list N) : Check (option (list N)) :=
  if blank ricStr then
    push RicRequired ;;; ret None
  else
    let ric := JS.trim ricStr in
    if (length ric <? 2)%nat then
      push (RicTooShort ric) ;;; ret None
    else if (20 <? length ric)%nat then
      push (RicTooLong ric) ;;; ret None
    else if negb (JS.ricRegexTest ric) then
      push (RicInvalidFormat ric) ;;; ret None
    else
      ret (Some (JS.toUpperCase ric)).

(** ** [validatePrice] *)
Definition validatePrice (priceStr : list N) (fieldName : string)
    : Check (option number) :=
  if blank priceStr then
    push (FieldRequired fieldName) ;;; ret None
  else
    let price := parseFloat (JS.trim priceStr) in
    if isNaN price then
      push (FieldNotANumber fieldName priceStr) ;;; ret None
    else if le price (ofZ 0) then
      push (FieldNotPositive fieldName price) ;;; ret None
    else if gt price (ofZ 1000000) then
      push (FieldTooHigh fieldName price) ;;; ret None
    else
      ret (Some price).

(** ** [validateTimestamp]

    [now] is the value [Date.now()] returns inside the call. *)
Definition minTimestamp : Z := 1577836800000.   (* new Date('2020-01-01').getTime() *)
Definition maxTimestamp : Z := 1893456000000.   (* new Date('2030-01-01').getTime() *)

(** [age > this.config.validation.maxTimestampAge]; false when the bound
    is NaN. *)
Definition olderThan (age : Z) (bound : option Z) : bool :=
  match bound with
  | Some m => (m <? age)%Z
  | None => false
  end.

Definition validateTimestamp (v : t) (now : Z) (timestampStr : list N)
    : Check (option Z) :=
  if blank timestampStr then
    push TimestampRequired ;;; ret None
  else
    match JS.parseInt (JS.trim timestampStr) with
    | None =>
        push (TimestampNotANumber timestampStr) ;;; ret None
    | Some timestamp =>
        if (timestamp <? minTimestamp)%Z || (maxTimestamp <? timestamp)%Z then
          push (TimestampOutOfRange timestamp) ;;; ret None
        else
          let age := (now - timestamp)%Z in
          if olderThan age (maxTimestampAge (validation (config v))) then
            push (TimestampTooOld timestamp age) ;;; ret None
          else if (now + 60000 <? timestamp)%Z then
            push (TimestampInFuture timestamp now) ;;; ret None
          else
            ret (Some timestamp)
    end.

(** ** [validateOptionalNumber] *)
Definition validateOptionalNumber (valueStr : list N) (fieldName : string)
    : Check (option number) :=
  if blank valueStr then
    ret None
  else
    let value := parseFloat (JS.trim valueStr) in
    if isNaN value then
      push (OptionalNotANumber fieldName valueStr) ;;; ret None
    else if lt value (ofZ 0) then
      push (OptionalNegative fieldName value) ;;; ret None
    else if String.eqb fieldName "volume" && gt value (ofZ 1000000000) then
      push (OptionalHighVolume fieldName value) ;;; ret None
    else if (String.eqb fieldName "bid" || String.eqb fieldName "ask")
            && gt value (ofZ 1000000) then
      push (OptionalHighPrice fieldName value) ;;; ret None
    else
      ret (Some value).

(** ** [validateBusinessRules]

    The four rules, in the order of the source.  Rule 3 reads
    [this.lastPrices] and is the one that may call [console.warn]; its
    result is the list of warnings it has written. *)

(** [Math.abs(tick.price - lastPrice) / lastPrice] *)
Definition deviation (p lastPrice : number) : number :=
  div (abs (sub p lastPrice)) lastPrice.

Definition rule1 (tk : PriceTick) : Check unit :=
  match bid tk, ask tk with
  | Some b, Some a =>
      if gt b a then push (BidAboveAsk b a) else ret tt
  | _, _ => ret tt
  end.

Definition rule2 (tk : PriceTick) : Check unit :=
  match bid tk, ask tk with
  | Some b, Some a =>
      if lt (price tk) b || gt (price tk) a
      then push (PriceOutsideSpread (price tk) b a)
      else ret tt
  | _, _ => ret tt
  end.

Definition rule3 (v : t) (tk : PriceTick) : Check (list Warning) :=
  match lastPrices v !! ric tk with
  | Some lastPrice =>
      let d := deviation (price tk) lastPrice in
      if gt d (maxPriceDeviation (validation (config v))) then
        if strictMode (validation (config v)) then
          push (SuspiciousPriceChange d lastPrice (price tk)) ;;; ret []
        else
          ret [LargeDeviation (ric tk) d lastPrice (price tk)]
      else ret []
  | None => ret []
  end.

Definition rule4 (v : t) (tk : PriceTick) : Check unit :=
  match volume tk with
  | Some vol =>
      if strictEq vol (ofZ 0) then
        if strictMode (validation (config v)) then push ZeroVolume else ret tt
      else ret tt
  | None => ret tt
  end.

Definition validateBusinessRules (v : t) (tk : PriceTick) : Check (list Warning) :=
  rule1 tk ;;;
  rule2 tk ;;;
  w <- rule3 v tk ;;
  rule4 v tk ;;;
  ret w.

(** ** [validateMessage]

    A call returns the [ValidationResult], leaves the validator in a new
    state and may have written to the console. *)
Record Called : Type := {
  result : ValidationResult;
  self : t;
  console : list Warning
}.

Definition rejected (v : t) (errs : list ValidationError) : Called :=
  {| result := {| isValid := false; tick := None; errors := errs |};
     self := v;
     console := [] |}.

(** The six field validations, in the order of the source. *)
Definition validateFields (v : t) (now : Z)
    (ricStr priceStr timestampStr volumeStr bidStr askStr : list N)
    : Check (option (list N) * option number * option Z
             * option number * option number * option number) :=
  r <- validateRic ricStr ;;
  p <- validatePrice priceStr "price" ;;
  ts <- validateTimestamp v now timestampStr ;;
  vol <- validateOptionalNumber volumeStr "volume" ;;
  b <- validateOptionalNumber bidStr "bid" ;;
  a <- validateOptionalNumber askStr "ask" ;;
  ret (r, p, ts, vol, b, a).

(** No operation of the [try] block throws on a string argument, so the
    [catch] arm is not taken and is not modelled.  The non-null assertions
    [ric!], [price!] and [timestamp!] are justified by lemma
    [validateFields_defined]: when [errors] is still empty the three
    values are defined, so the last arm of the inner [match] is never
    reached. *)
Definition validateMessage (v : t) (now : Z) (rawMessage : list N) : Called :=
  let cleanMessage := JS.trim (JS.removeNewlines rawMessage) in
  if JS.isEmpty cleanMessage then
    rejected v [EmptyMessage]
  else
    let parts := JS.split JS.PIPE cleanMessage in
    match parts with
    | [ricStr; priceStr; timestampStr; volumeStr; bidStr; askStr] =>
        let '(fields, errs) :=
          validateFields v now ricStr priceStr timestampStr
                         volumeStr bidStr askStr [] in
        if (0 <? length errs)%nat then
          rejected v errs
        else
          match fields with
          | (Some r, Some p, Some ts, vol, b, a) =>
              let tk := {| ric := r; price := p; timestamp := ts;
                           volume := vol; bid := b; ask := a |} in
              let '(warnings, errs') := validateBusinessRules v tk errs in
              let ok := (length errs' =? 0)%nat in
              {| result := {| isValid := ok;
                              tick := if ok then Some tk else None;
                              errors := errs' |};
                 self := if ok
                         then {| config := config v;
                                 lastPrices := <[ric tk := price tk]> (lastPrices v) |}
                         else v;
                 console := warnings |}
          | _ => rejected v errs
          end
    | _ => rejected v [InvalidFormat (length parts) cleanMessage]
    end.

(** ** [getValidationStats], [clearPriceHistory] and [getLastPrices] *)

(** The object [getValidationStats] returns. *)
Record ValidationStats : Type := { trackedSymbols : nat }.

Definition getValidationStats (v : t) : ValidationStats :=
  {| trackedSymbols := size (lastPrices v) |}.

Definition clearPriceHistory (v : t) : t :=
  {| config := config v; lastPrices := ∅ |}.

(** [getLastPrices] returns a copy of the map. *)
Definition getLastPrices (v : t) : gmap (list N) number := lastPrices v.

End WithNumber.
End MessageValidator.


(* ================================================================== *)
(** * [packages/ingestor/src/ingestor-service.ts]                      *)
(* ================================================================== *)

Module IngestorService.
Section WithNumber.
Context {J : JSNumber}.

(** The members of the service that [handleMessage] and [enrichTick]
    touch: the validator and [sequenceCounter] (initially [0]).  The
    metrics counters and the Kafka publisher are left out. *)
Record t : Type := {
  validator : MessageValidator.t;
  sequenceCounter : Z
}.

Definition new (cfg : IngestorConfig) : t :=
  {| validator := MessageValidator.new cfg; sequenceCounter := 0 |}.

(** [enrichTick]: [now] is the value of [Date.now()] inside the call.
    A number is truthy when it is neither [0] nor NaN, so [latencyMs] is
    set when [tick.timestamp] is not [0]. *)
Definition enrichTick (s : t) (now : Z) (tk : PriceTick) (rawMessage : RawMessage)
    : EnrichedTick * t :=
  let counter := (sequenceCounter s + 1)%Z in
  ({| base := tk;
      e_receivedAt := receivedAt rawMessage;
      e_clientId := clientId rawMessage;
      sequenceId := JS.Z_toString now ++ JS.MINUS :: JS.Z_toString counter;
      latencyMs :=
        if (timestamp tk =? 0)%Z then None
        else Some (receivedAt rawMessage - timestamp tk)%Z;
      validationPassed := true;
      validationErrors := [] |},
   {| validator := validator s; sequenceCounter := counter |}).

(** [handleMessage], up to the call of [kafkaPublisher.publishTick]: the
    result is the enriched tick handed to the publisher, if any.
    [nowV] and [nowE] are the clock readings of [validateTimestamp] and
    of [enrichTick]. *)
Definition handleMessage (s : t) (nowV nowE : Z) (rawMessage : RawMessage)
    : option EnrichedTick * t :=
  let called := MessageValidator.validateMessage (validator s) nowV (data rawMessage) in
  let s1 := {| validator := MessageValidator.self called;
               sequenceCounter := sequenceCounter s |} in
  let validationResult := MessageValidator.result called in
  match isValid validationResult, tick validationResult with
  | true, Some tk =>
      let '(enriched, s2) := enrichTick s1 nowE tk rawMessage in
      (Some enriched, s2)
  | _, _ => (None, s1)
  end.

(** The service handling a sequence of messages, each with its two clock
    readings: the enriched ticks it publishes, in order. *)
Fixpoint run (s : t) (inputs : list (Z * Z * RawMessage)) : list EnrichedTick * t :=
  match inputs with
  | [] => ([], s)
  | (nowV, nowE, m) :: rest =>
      let '(o, s1) := handleMessage s nowV nowE m in
      let '(os, s2) := run s1 rest in
      (match o with Some e => e :: os | None => os end, s2)
  end.

End WithNumber.
End IngestorService.

(* ================================================================== *)
(** * [packages/ingestor/src/tcp-server.ts]: the per-client framer     *)
(* ================================================================== *)

(** [Buffer.prototype.toString()] with its default encoding, UTF-8: the
    bytes are decoded to code points, every ill-formed or truncated
    sequence becoming one U+FFFD, and code points above U+FFFF become a
    surrogate pair.  A byte is an [N] below 256. *)
Module Buffer.

Definition REPLACEMENT : N := 65533.

(** The state of the decoder between two bytes: [None] when no sequence
    is open, else the bits read so far, the number of continuation bytes
    still needed and the range allowed for the next one. *)
Definition pending : Type := option (N * nat * N * N).

Fixpoint decode (st : pending) (bytes : list N) : list N :=
  match bytes with
  | [] =>
      match st with
      | None => []
      | Some _ => [REPLACEMENT]
      end
  | b :: rest =>
      let lead :=
        if b <=? 127 then b :: decode None rest
        else if (194 <=? b) && (b <=? 223) then
          decode (Some (b - 192, 1%nat, 128, 191)) rest
        else if (224 <=? b) && (b <=? 239) then
          decode (Some (b - 224, 2%nat,
                        (if b =? 224 then 160 else 128),
                        (if b =? 237 then 159 else 191))) rest
        else if (240 <=? b) && (b <=? 244) then
          decode (Some (b - 240, 3%nat,
                        (if b =? 240 then 144 else 128),
                        (if b =? 244 then 143 else 191))) rest
        else REPLACEMENT :: decode None rest in
      match st with
      | None => lead
      | Some (cp, needed, lo, hi) =>
          if (lo <=? b) && (b <=? hi) then
            let cp' := cp * 64 + (b - 128) in
            match needed with
            | S (S _ as n) => decode (Some (cp', n, 128, 191)) rest
            | _ => cp' :: decode None rest
            end
          else REPLACEMENT :: lead
      end
  end.

(** UTF-16 code units of a code point. *)
Definition units (cp : N) : list N :=
  if cp <? 65536 then [cp]
  else [55296 + (cp - 65536) / 1024; 56320 + (cp - 65536) mod 1024].

Definition toString (bytes : list N) : list N :=
  concat (List.map units (decode None bytes)).

(** The UTF-8 bytes of an ASCII literal. *)
Definition ascii (s : string) : list N := JS.lit s.

End Buffer.

Module TcpServer.

(** The [while] loop of the ['data'] handler:
    [[
      while ((newlineIndex = buffer.indexOf('\n')) !== -1) {
        const message = buffer.slice(0, newlineIndex);
        buffer = buffer.slice(newlineIndex + 1);
        if (message.trim()) { this.handleMessage(clientId, message.trim()); }
      }
    ]]
    It returns the messages handed to [handleMessage], in order, and the
    buffer it leaves.  Each iteration shortens the buffer; [fuel] bounds
    the number of iterations. *)
Fixpoint extract (fuel : nat) (buffer : list N) : list (list N) * list N :=
  match fuel with
  | O => ([], buffer)
  | S fuel' =>
      match JS.indexOf JS.LF buffer with
      | None => ([], buffer)
      | Some newlineIndex =>
          let message := JS.slice_to newlineIndex buffer in
          let buffer' := JS.slice_from (S newlineIndex) buffer in
          let '(out, final) := extract fuel' buffer' in
          (if JS.isEmpty (JS.trim message) then out
           else JS.trim message :: out,
           final)
      end
  end.

(** The ['data'] handler of a client that is in [this.clients], on the
    closure variable [buffer]: [buffer += data.toString()], then the loop.
    The buffer has more code units than it has line feeds, so its length
    is fuel enough (lemma [extract_fuel]). *)
Definition onData (buffer : list N) (chunk : list N) : list (list N) * list N :=
  let buffer1 := buffer ++ Buffer.toString chunk in
  extract (length buffer1) buffer1.

(** A connection receiving [chunks] one after the other, from the empty
    buffer [setupClientEventHandlers] starts with. *)
Fixpoint receive (buffer : list N) (chunks : list (list N)) : list (list N) * list N :=
  match chunks with
  | [] => ([], buffer)
  | chunk :: rest =>
      let '(out1, buffer1) := onData buffer chunk in
      let '(out2, buffer2) := receive buffer1 rest in
      (out1 ++ out2, buffer2)
  end.

(** The same loop on strings already decoded. *)
Definition onText (buffer : list N) (text : list N) : list (list N) * list N :=
  let buffer1 := buffer ++ text in
  extract (length buffer1) buffer1.

Fixpoint receiveText (buffer : list N) (texts : list (list N)) : list (list N) * list N :=
  match texts with
  | [] => ([], buffer)
  | text :: rest =>
      let '(out1, buffer1) := onText buffer text in
      let '(out2, buffer2) := receiveText buffer1 rest in
      (out1 ++ out2, buffer2)
  end.

(** ** The server and its clients

    A socket is named by a number; [net.Server] hands a new socket
    object to every ['connection'] event. *)

(** [interface ClientConnection] *)
Module ClientConnection.
Record t : Type := {
  id : list N;
  socket : nat;
  connectedAt : Z;
  lastMessageAt : option Z;
  messageCount : nat;
  remoteAddress : option (list N);
  remotePort : option Z
}.
End ClientConnection.

(** What the handlers installed by [setupClientEventHandlers] close
    over, the parameter [clientId] and the variable [buffer], and
    [socket.destroyed]. *)
Module Closure.
Record t : Type := {
  clientId : list N;
  buffer : list N;
  destroyed : bool
}.
End Closure.

(** The fields of [class TcpServer] the handlers use: the map
    [this.clients], the two counters, and the sockets that carry
    handlers. *)
Record t : Type := {
  clients : gmap (list N) ClientConnection.t;
  sockets : gmap nat Closure.t;
  totalConnections : nat;
  totalMessages : nat
}.

Definition new : t :=
  {| clients := ∅; sockets := ∅; totalConnections := 0; totalMessages := 0 |}.

(** [`client-${Date.now()}-${Math.random().toString(36).substr(2, 9)}`]:
    [random] is the text drawn from [Math.random]. *)
Definition newClientId (clock : Z) (random : list N) : list N :=
  JS.lit "client-" ++ JS.Z_toString clock ++ JS.lit "-" ++ random.

(** [handleNewConnection] followed by [setupClientEventHandlers]:
    [clock] and [now] are the two readings of [Date.now()]. *)
Definition handleNewConnection (socket : nat) (clock now : Z) (random : list N)
    (remoteAddress : option (list N)) (remotePort : option Z) (s : t) : t :=
  let clientId := newClientId clock random in
  let client :=
    {| ClientConnection.id := clientId;
       ClientConnection.socket := socket;
       ClientConnection.connectedAt := now;
       ClientConnection.lastMessageAt := None;
       ClientConnection.messageCount := 0;
       ClientConnection.remoteAddress := remoteAddress;
       ClientConnection.remotePort := remotePort |} in
  {| clients := <[clientId := client]> (clients s);
     sockets := <[socket := {| Closure.clientId := clientId;
                               Closure.buffer := [];
                               Closure.destroyed := false |}]> (sockets s);
     totalConnections := S (totalConnections s);
     totalMessages := totalMessages s |}.

(** [client.messageCount++] *)
Definition counted (client : ClientConnection.t) : ClientConnection.t :=
  {| ClientConnection.id := ClientConnection.id client;
     ClientConnection.socket := ClientConnection.socket client;
     ClientConnection.connectedAt := ClientConnection.connectedAt client;
     ClientConnection.lastMessageAt := ClientConnection.lastMessageAt client;
     ClientConnection.messageCount := S (ClientConnection.messageCount client);
     ClientConnection.remoteAddress := ClientConnection.remoteAddress client;
     ClientConnection.remotePort := ClientConnection.remotePort client |}.

(** [client.lastMessageAt = Date.now()] *)
Definition seen (now : Z) (client : ClientConnection.t) : ClientConnection.t :=
  {| ClientConnection.id := ClientConnection.id client;
     ClientConnection.socket := ClientConnection.socket client;
     ClientConnection.connectedAt := ClientConnection.connectedAt client;
     ClientConnection.lastMessageAt := Some now;
     ClientConnection.messageCount := ClientConnection.messageCount client;
     ClientConnection.remoteAddress := ClientConnection.remoteAddress client;
     ClientConnection.remotePort := ClientConnection.remotePort client |}.

(** [handleMessage]: the new state and the message handed to
    [this.messageHandler], if any.  The handler is the service's
    [handleMessage], an [async] function: it does not throw. *)
Definition handleMessage (clientId messageData : list N) (now : Z) (s : t)
    : t * list RawMessage :=
  match clients s !! clientId with
  | None => (s, [])
  | Some client =>
      ({| clients := <[clientId := counted client]> (clients s);
          sockets := sockets s;
          totalConnections := totalConnections s;
          totalMessages := S (totalMessages s) |},
       [{| data := messageData; clientId := clientId; receivedAt := now |}])
  end.

(** The calls of [handleMessage] made by the loop of the ['data']
    handler, one for each message; [clock i] is the [i]-th reading of
    [Date.now()] during the event. *)
Fixpoint handleMessages (clientId : list N) (messages : list (list N))
    (clock : nat -> Z) (s : t) : t * list RawMessage :=
  match messages with
  | [] => (s, [])
  | messageData :: rest =>
      let '(s1, out1) := handleMessage clientId messageData (clock O) s in
      let '(s2, out2) := handleMessages clientId rest (fun i => clock (S i)) s1 in
      (s2, out1 ++ out2)
  end.

(** The ['data'] handler of [socket].  A destroyed socket emits no
    data. *)
Definition onSocketData (socket : nat) (chunk : list N) (clock : nat -> Z) (s : t)
    : t * list RawMessage :=
  match sockets s !! socket with
  | None => (s, [])
  | Some h =>
      if Closure.destroyed h then (s, [])
      else
        match clients s !! Closure.clientId h with
        | None => (s, [])
        | Some _ =>
            let '(messages, buffer) := onData (Closure.buffer h) chunk in
            let '(s1, out) := handleMessages (Closure.clientId h) messages clock s in
            ({| clients :=
                  alter (seen (clock (length messages))) (Closure.clientId h) (clients s1);
                sockets :=
                  <[socket := {| Closure.clientId := Closure.clientId h;
                                 Closure.buffer := buffer;
                                 Closure.destroyed := false |}]> (sockets s1);
                totalConnections := totalConnections s1;
                totalMessages := totalMessages s1 |},
             out)
        end
  end.

(** [socket.destroy()] *)
Definition destroy (h : Closure.t) : Closure.t :=
  {| Closure.clientId := Closure.clientId h;
     Closure.buffer := Closure.buffer h;
     Closure.destroyed := true |}.

(** [handleClientDisconnection] *)
Definition handleClientDisconnection (clientId : list N) (s : t) : t :=
  match clients s !! clientId with
  | None => s
  | Some client =>
      {| clients := delete clientId (clients s);
         sockets := alter destroy (ClientConnection.socket client) (sockets s);
         totalConnections := totalConnections s;
         totalMessages := totalMessages s |}
  end.

(** The ['error'] and ['close'] handlers of [socket]. *)
Definition onSocketClose (socket : nat) (s : t) : t :=
  match sockets s !! socket with
  | None => s
  | Some h => handleClientDisconnection (Closure.clientId h) s
  end.

(** The counters of [getMetrics]; the rates it derives from the uptime
    are left out. *)
Record ServerMetrics : Type := {
  activeConnections : nat;
  m_totalConnections : nat;
  messagesReceived : nat
}.

Definition getMetrics (s : t) : ServerMetrics :=
  {| activeConnections := size (clients s);
     m_totalConnections := totalConnections s;
     messagesReceived := totalMessages s |}.

(** What happens to the server. *)
Inductive Event : Type :=
| Connection (socket : nat) (clock now : Z) (random : list N)
    (remoteAddress : option (list N)) (remotePort : option Z)
| Data (socket : nat) (chunk : list N) (clock : nat -> Z)
| Error (socket : nat)
| Close (socket : nat).

Definition step (ev : Event) (s : t) : t * list RawMessage :=
  match ev with
  | Connection socket clock now random remoteAddress remotePort =>
      (handleNewConnection socket clock now random remoteAddress remotePort s, [])
  | Data socket chunk clock => onSocketData socket chunk clock s
  | Error socket => (onSocketClose socket s, [])
  | Close socket => (onSocketClose socket s, [])
  end.

(** The messages handed to the handler during [events], in order. *)
Fixpoint run (events : list Event) (s : t) : t * list RawMessage :=
  match events with
  | [] => (s, [])
  | ev :: rest =>
      let '(s1, out1) := step ev s in
      let '(s2, out2) := run rest s1 in
      (s2, out1 ++ out2)
  end.

End TcpServer.

(* ================================================================== *)
(** * [packages/tick-generator/src/types.ts] and the command line      *)
(* ================================================================== *)

Module TickGenerator.
Section WithNumber.
Context {J : JSNumber}.

(** [interface PriceTick] of the tick generator.  [timestamp] is the
    [getTime()] of a parsed date (CSV replay; NaN when the date does not
    parse) or the event time of a Binance message: any number. *)
Record PriceTick : Type := {
  ric : list N;
  price : number;
  timestamp : number;
  volume : option number;
  bid : option number;
  ask : option number
}.

End WithNumber.

(** [maxReconnectAttempts: options.maxReconnectAttempts || 10], where the
    option is [parseInt(value)] of the command line argument and [10]
    when the argument is absent: NaN and 0 become 10, any other integer
    is kept, a negative one too. *)
Definition maxReconnectAttemptsOf (argument : option (list N)) : Z :=
  match argument with
  | None => 10
  | Some value =>
      match JS.parseInt value with
      | Some z => if (z =? 0)%Z then 10%Z else z
      | None => 10%Z
      end
  end.

End TickGenerator.

(* ================================================================== *)
(** * [packages/tick-generator/src/tcp-sender.ts]                      *)
(* ================================================================== *)

Module TcpSender.
Section WithNumber.
Context {J : JSNumber}.

(** A [net.Socket] is represented by what has been written to it, oldest
    first.  [socket.write] does not throw on a string: a failed write is
    reported later through the ['error'] and ['close'] events. *)
Definition Socket : Type := list (list N).

(** [interface TcpSenderConfig]: of its four fields the state of the
    sender depends on [maxReconnectAttempts] alone, an integer (see
    [TickGenerator.maxReconnectAttemptsOf]). *)
Record TcpSenderConfig : Type := {
  maxReconnectAttempts : Z
}.

(** The object state.  [reconnectTimer] is [true] while a timer is set. *)
Record t : Type := {
  config : TcpSenderConfig;
  socket : option Socket;
  reconnectAttempts : nat;
  isConnected : bool;
  reconnectTimer : bool;
  messageQueue : list (list N)
}.

Definition new (cfg : TcpSenderConfig) : t :=
  {| config := cfg; socket := None; reconnectAttempts := 0;
     isConnected := false; reconnectTimer := false; messageQueue := [] |}.

(** ** [formatTick] *)

(** [x?.toString() || ''] *)
Definition optionalToString (x : option number) : list N :=
  match x with
  | None => []
  | Some n => let s := toString n in if JS.isEmpty s then [] else s
  end.

Definition formatTick (tk : TickGenerator.PriceTick) : list N :=
  JS.join JS.PIPE
    [ TickGenerator.ric tk;
      toString (TickGenerator.price tk);
      toString (TickGenerator.timestamp tk);
      optionalToString (TickGenerator.volume tk);
      optionalToString (TickGenerator.bid tk);
      optionalToString (TickGenerator.ask tk) ].

(** ** [handleDisconnection] *)
Definition handleDisconnection (s : t) : t :=
  if reconnectTimer s then s
  else if (maxReconnectAttempts (config s) <=? Z.of_nat (reconnectAttempts s))%Z then s
  else
    {| config := config s; socket := socket s;
       reconnectAttempts := S (reconnectAttempts s);
       isConnected := isConnected s;
       reconnectTimer := true;
       messageQueue := messageQueue s |}.

(** ** The event handlers [connect] installs on the socket *)
Definition setConnected (b : bool) (s : t) : t :=
  {| config := config s; socket := socket s;
     reconnectAttempts := reconnectAttempts s;
     isConnected := b;
     reconnectTimer := reconnectTimer s;
     messageQueue := messageQueue s |}.

(** ['close'] *)
Definition onClose (s : t) : t := handleDisconnection (setConnected false s).

(** ['error']: the first error only rejects the promise of [connect]. *)
Definition onError (s : t) : t :=
  let s1 := setConnected false s in
  if (reconnectAttempts s1 =? 0)%nat then s1 else handleDisconnection s1.

(** What the socket does to the sender while a [write] is running: with
    [net.Socket] nothing ([Stays]); a socket that delivers its events
    synchronously may run the ['close'] or ['error'] handler. *)
Inductive WriteEffect : Type := Stays | Closes | Errors.

Definition afterWrite (e : WriteEffect) (s : t) : t :=
  match e with
  | Stays => s
  | Closes => onClose s
  | Errors => onError s
  end.

(** [this.socket.write(text)] followed by the effect [e]. *)
Definition write (text : list N) (e : WriteEffect) (s : t) : t :=
  afterWrite e
    {| config := config s;
       socket := (fun sock => sock ++ [text]) <$> socket s;
       reconnectAttempts := reconnectAttempts s;
       isConnected := isConnected s;
       reconnectTimer := reconnectTimer s;
       messageQueue := messageQueue s |}.

Definition hasSocket (s : t) : bool :=
  match socket s with Some _ => true | None => false end.

(** ** [flushMessageQueue]

    [drain] is the [for ... of] loop over the queue; [effects] gives the
    effect of each [write] in turn ([Stays] once the list is exhausted). *)
Fixpoint drain (effects : list WriteEffect) (queue : list (list N)) (s : t)
    {struct queue} : t :=
  match queue with
  | [] => s
  | message :: rest =>
      if hasSocket s && isConnected s then
        match effects with
        | e :: effects' => drain effects' rest (write (message ++ [JS.LF]) e s)
        | [] => drain [] rest (write (message ++ [JS.LF]) Stays s)
        end
      else drain effects rest s
  end.

Definition flushMessageQueue (effects : list WriteEffect) (s : t) : t :=
  if (length (messageQueue s) =? 0)%nat then s
  else
    let s1 := drain effects (messageQueue s) s in
    {| config := config s1; socket := socket s1;
       reconnectAttempts := reconnectAttempts s1;
       isConnected := isConnected s1;
       reconnectTimer := reconnectTimer s1;
       messageQueue := [] |}.

(** ** [connect]

    [connect] creates the socket and starts connecting; the ['connect']
    handler runs when the connection is established. *)
Definition connect (s : t) : t :=
  {| config := config s; socket := Some [];
     reconnectAttempts := reconnectAttempts s;
     isConnected := isConnected s;
     reconnectTimer := reconnectTimer s;
     messageQueue := messageQueue s |}.

(** The callback of the reconnect timer: [this.reconnectTimer = null],
    then [connect()]. *)
Definition onTimer (s : t) : t :=
  connect
    {| config := config s; socket := socket s;
       reconnectAttempts := reconnectAttempts s;
       isConnected := isConnected s;
       reconnectTimer := false;
       messageQueue := messageQueue s |}.

Definition onConnect (effects : list WriteEffect) (s : t) : t :=
  flushMessageQueue effects
    {| config := config s; socket := socket s;
       reconnectAttempts := 0;
       isConnected := true;
       reconnectTimer := reconnectTimer s;
       messageQueue := messageQueue s |}.

(** ** [sendTick] *)

(** [this.messageQueue.push(message)] *)
Definition enqueue (message : list N) (s : t) : t :=
  {| config := config s; socket := socket s;
     reconnectAttempts := reconnectAttempts s;
     isConnected := isConnected s;
     reconnectTimer := reconnectTimer s;
     messageQueue := messageQueue s ++ [message] |}.

(** In the connected branch the [try] block writes the record and then
    logs it with [new Date(tick.timestamp).toISOString()], which throws
    when the timestamp is not a valid date.  The [catch] arm then runs
    after the write: the record is pushed onto the queue as well, and
    [handleDisconnection] is called while the connection is up. *)
Definition sendTick (e : WriteEffect) (tk : TickGenerator.PriceTick) (s : t) : t :=
  let message := formatTick tk in
  if isConnected s && hasSocket s then
    let s1 := write (message ++ [JS.LF]) e s in
    if validDate (TickGenerator.timestamp tk) then s1
    else handleDisconnection (enqueue message s1)
  else enqueue message s.

(** [sendTick] called on each tick of a list, in order, while no write
    has any effect on the sender. *)
Definition sendAll (ticks : list TickGenerator.PriceTick) (s : t) : t :=
  fold_left (fun acc tk => sendTick Stays tk acc) ticks s.

(** ** The life of a sender

    The calls and events that change the state of a sender.  A socket
    event needs a socket to come from, and the timer callback a timer
    that is set. *)
Inductive Event : Type :=
| CallSendTick (e : WriteEffect) (tk : TickGenerator.PriceTick)  (* sendTick(tk) *)
| CallConnect                                      (* connect() *)
| SocketConnect (effects : list WriteEffect)       (* 'connect' *)
| SocketClose                                      (* 'close' *)
| SocketError                                      (* 'error' *)
| TimerFires.                                      (* the reconnect timer *)

Definition step (ev : Event) (s : t) : t :=
  match ev with
  | CallSendTick e tk => sendTick e tk s
  | CallConnect => connect s
  | SocketConnect effects => onConnect effects s
  | SocketClose => onClose s
  | SocketError => onError s
  | TimerFires => onTimer s
  end.

Definition enabled (ev : Event) (s : t) : bool :=
  match ev with
  | CallSendTick _ _ | CallConnect => true
  | SocketConnect _ | SocketClose | SocketError => hasSocket s
  | TimerFires => reconnectTimer s
  end.

(** The states a sender can be in. *)
Inductive reachable : t -> Prop :=
| reach_new (cfg : TcpSenderConfig) : reachable (new cfg)
| reach_step (s : t) (ev : Event) :
    reachable s -> enabled ev s = true -> reachable (step ev s).

(** ** [disconnect], [isConnectionActive] and [getQueuedMessageCount]

    [disconnect] clears a pending reconnect timer and ends the socket;
    the socket stays in [this.socket], its handlers stay installed, and
    the queue and the connection flag are left as they are.  The
    ['close'] event of the ended socket follows later. *)
Definition disconnect (s : t) : t :=
  {| config := config s; socket := socket s;
     reconnectAttempts := reconnectAttempts s;
     isConnected := isConnected s;
     reconnectTimer := false;
     messageQueue := messageQueue s |}.

Definition isConnectionActive (s : t) : bool := isConnected s.

Definition getQueuedMessageCount (s : t) : nat := length (messageQueue s).

(** What has been written to the current socket. *)
Definition written (s : t) : list (list N) :=
  match socket s with Some sock => sock | None => [] end.

End WithNumber.
End TcpSender.

(* ================================================================== *)
(** * [packages/tick-generator/src]: the instrument codes of the two   *)
(**   tick sources                                                     *)
(* ================================================================== *)

(** [CsvReplay.createRic] (csv-replay.ts).  [symbol.toUpperCase()] is
    [JS.toUpperCase], the mapping of the ASCII range; the statements
    about [createRic] are made for ASCII symbols. *)
Module CsvReplay.

Definition ricMappings : list (list N * list N) :=
  (fun kv => (JS.lit kv.1, JS.lit kv.2)) <$>
  [ ("AAPL", "AAPL.O"); ("GOOGL", "GOOGL.O"); ("MSFT", "MSFT.O");
    ("TSLA", "TSLA.O"); ("AMZN", "AMZN.O"); ("NVDA", "NVDA.O");
    ("META", "META.O"); ("NFLX", "NFLX.O"); ("EURUSD", "EUR=");
    ("GBPUSD", "GBP="); ("USDJPY", "JPY="); ("BTCUSD", "BTC=");
    ("ETHUSD", "ETH=") ]%string.

Definition createRic (symbol : list N) : JS.Looked :=
  JS.getOr ricMappings (JS.toUpperCase symbol)
    (JS.toUpperCase symbol ++ JS.lit ".O").

End CsvReplay.

(** [BinanceRelay.binanceSymbolToRic] (binance-relay.ts): the symbol is
    looked up as it is. *)
Module BinanceRelay.

Definition cryptoMappings : list (list N * list N) :=
  (fun kv => (JS.lit kv.1, JS.lit kv.2)) <$>
  [ ("BTCUSDT", "BTC="); ("ETHUSDT", "ETH="); ("BNBUSDT", "BNB=");
    ("XRPUSDT", "XRP="); ("ADAUSDT", "ADA="); ("SOLUSDT", "SOL=");
    ("DOTUSDT", "DOT="); ("DOGEUSDT", "DOGE="); ("AVAXUSDT", "AVAX=");
    ("MATICUSDT", "MATIC="); ("LINKUSDT", "LINK="); ("UNIUSDT", "UNI=");
    ("LTCUSDT", "LTC="); ("BCHUSDT", "BCH="); ("XLMUSDT", "XLM=");
    ("ATOMUSDT", "ATOM="); ("VETUSDT", "VET="); ("FILUSDT", "FIL=");
    ("TRXUSDT", "TRX="); ("ETCUSDT", "ETC=") ]%string.

Definition binanceSymbolToRic (symbol : list N) : JS.Looked :=
  JS.getOr cryptoMappings symbol (symbol ++ JS.lit "=").

End BinanceRelay.

(* ================================================================== *)
(** * Products and fixed-point notation of numbers                     *)
(* ================================================================== *)

(** Two more primitives of [number], which the validator applies to the
    deviation when it words its message: [a * b] and [x.toFixed(f)]. *)
Class JSNumberFormat (J : JSNumber) : Type := {
  mul : number -> number -> number;
  toFixed : number -> nat -> list N
}.

(** The decimal instance: exact products, and
    [Number.prototype.toFixed]: a number that is not finite prints as
    [toString] prints it; otherwise the sign, then [toString] when the
    magnitude is at least [10^21], and else the integer nearest to the
    magnitude times [10^f] (the larger one of two) with a point before
    its last [f] digits. *)
Module DecFormat.
Import Dec.

Definition mul (a b : dec) : dec :=
  match a, b with
  | NaN, _ | _, NaN => NaN
  | Inf _, Zero _ | Zero _, Inf _ => NaN
  | Inf na, _ => Inf (xorb na (isNeg b))
  | _, Inf nb => Inf (xorb (isNeg a) nb)
  | Zero na, _ => Zero (xorb na (isNeg b))
  | _, Zero nb => Zero (xorb (isNeg a) nb)
  | Fin _ _ _, Fin _ _ _ =>
      let '(m1, e1) := scaled a in
      let '(m2, e2) := scaled b in
      ofScaled (m1 * m2) (e1 + e2)
  end.

(** The integer nearest to [m * 10^e], for [0 <= m]; the larger one when
    two are equally near. *)
Definition nearest (m e : Z) : Z :=
  if (0 <=? e)%Z then (m * 10 ^ e)%Z
  else let d := (10 ^ (- e))%Z in ((2 * m + d) / (2 * d))%Z.

(** The digits of [n] with a point before the last [f] of them. *)
Definition pointed (n : Z) (f : nat) : list N :=
  let m := JS.Z_toString n in
  match f with
  | O => m
  | _ =>
      let m1 := if (length m <=? f)%nat
                then repeat 48 (f + 1 - length m) ++ m else m in
      let k := length m1 in
      take (k - f) m1 ++ JS.DOT :: drop (k - f) m1
  end.

Definition toFixed (x : dec) (f : nat) : list N :=
  match x with
  | NaN | Inf _ => toString x
  | Zero _ => pointed 0 f
  | Fin neg s n =>
      signCodes neg ++
      (if (21 <? n)%Z then toString (Fin false s n)
       else
         let '(m, e) := scaled (Fin false s n) in
         pointed (nearest m (e + Z.of_nat f)) f)
  end.

End DecFormat.

#[global] Instance DecNumberFormat : JSNumberFormat DecNumber := {|
  mul := DecFormat.mul;
  toFixed := DecFormat.toFixed
|}.

(* ================================================================== *)
(** * The text of the validation errors                                *)
(* ================================================================== *)

(** The strings [validateMessage] and its helpers push onto [errors],
    one template for each constructor of [ValidationError].  The message
    for a timestamp that is too old quotes
    [this.config.validation.maxTimestampAge], so the text depends on the
    configuration. *)
Module Messages.
Section WithNumber.
Context {J : JSNumber} {F : JSNumberFormat J}.

(** [`${n}`] for the length of an array. *)
Definition ofNat (n : nat) : list N := JS.N_toString (N.of_nat n).

(** [`${x}`] for an integer-valued number that may be NaN. *)
Definition ofAge (x : option Z) : list N :=
  match x with
  | Some z => JS.Z_toString z
  | None => JS.lit "NaN"
  end.

(** [(deviation * 100).toFixed(2)] *)
Definition deviationPercent (deviation : number) : list N :=
  toFixed (mul deviation (ofZ 100)) 2.

Definition text (cfg : IngestorConfig) (e : ValidationError) : list N :=
  match e with
  | EmptyMessage => JS.lit "Empty message received"
  | InvalidFormat got cleanMessage =>
      JS.lit "Invalid message format. Expected 6 parts, got " ++ ofNat got
      ++ JS.lit ". Message: " ++ cleanMessage
  | RicRequired => JS.lit "RIC is required and cannot be empty"
  | RicTooShort ric => JS.lit "RIC too short: " ++ ric
  | RicTooLong ric => JS.lit "RIC too long: " ++ ric
  | RicInvalidFormat ric =>
      JS.lit "Invalid RIC format: " ++ ric
      ++ JS.lit ". Only alphanumeric characters, dots, and equals signs are allowed"
  | FieldRequired fieldName =>
      JS.lit fieldName ++ JS.lit " is required and cannot be empty"
  | FieldNotANumber fieldName s =>
      JS.lit "Invalid " ++ JS.lit fieldName ++ JS.lit ": " ++ s
      ++ JS.lit ". Must be a valid number"
  | FieldNotPositive fieldName value =>
      JS.lit "Invalid " ++ JS.lit fieldName ++ JS.lit ": " ++ toString value
      ++ JS.lit ". Must be greater than 0"
  | FieldTooHigh fieldName value =>
      JS.lit "Invalid " ++ JS.lit fieldName ++ JS.lit ": " ++ toString value
      ++ JS.lit ". Suspiciously high value"
  | TimestampRequired => JS.lit "Timestamp is required and cannot be empty"
  | TimestampNotANumber s =>
      JS.lit "Invalid timestamp: " ++ s ++ JS.lit ". Must be a valid Unix timestamp"
  | TimestampOutOfRange ts =>
      JS.lit "Invalid timestamp: " ++ JS.Z_toString ts
      ++ JS.lit ". Must be between " ++ JS.Z_toString MessageValidator.minTimestamp
      ++ JS.lit " and " ++ JS.Z_toString MessageValidator.maxTimestamp
  | TimestampTooOld ts age =>
      JS.lit "Timestamp too old: " ++ JS.Z_toString ts
      ++ JS.lit ". Age: " ++ JS.Z_toString age
      ++ JS.lit "ms, Max allowed: " ++ ofAge (maxTimestampAge (validation cfg))
      ++ JS.lit "ms"
  | TimestampInFuture ts now =>
      JS.lit "Timestamp too far in future: " ++ JS.Z_toString ts
      ++ JS.lit ". Current time: " ++ JS.Z_toString now
  | OptionalNotANumber fieldName s =>
      JS.lit "Invalid " ++ JS.lit fieldName ++ JS.lit ": " ++ s
      ++ JS.lit ". Must be a valid number or empty"
  | OptionalNegative fieldName value =>
      JS.lit "Invalid " ++ JS.lit fieldName ++ JS.lit ": " ++ toString value
      ++ JS.lit ". Cannot be negative"
  | OptionalHighVolume fieldName value =>
      JS.lit "Invalid " ++ JS.lit fieldName ++ JS.lit ": " ++ toString value
      ++ JS.lit ". Suspiciously high volume"
  | OptionalHighPrice fieldName value =>
      JS.lit "Invalid " ++ JS.lit fieldName ++ JS.lit ": " ++ toString value
      ++ JS.lit ". Suspiciously high price"
  | BidAboveAsk b a =>
      JS.lit "Invalid bid/ask spread: bid " ++ toString b
      ++ JS.lit " > ask " ++ toString a
  | PriceOutsideSpread p b a =>
      JS.lit "Price " ++ toString p ++ JS.lit " outside bid/ask spread ["
      ++ toString b ++ JS.lit ", " ++ toString a ++ JS.lit "]"
  | SuspiciousPriceChange deviation lastPrice p =>
      JS.lit "Suspicious price change: " ++ deviationPercent deviation
      ++ JS.lit "% deviation from last price " ++ toString lastPrice
      ++ JS.lit " to " ++ toString p
  | ZeroVolume => JS.lit "Zero volume trades are not allowed in strict mode"
  end.

End WithNumber.
End Messages.

(* ================================================================== *)
(** * [packages/ingestor/src/kafka-publisher.ts]                       *)
(* ================================================================== *)

(** [enum ErrorType] and [class IngestorError] of [types.ts]. *)
Inductive ErrorType : Type :=
| TCP_CONNECTION_ERROR
| MESSAGE_PARSE_ERROR
| VALIDATION_ERROR
| KAFKA_PUBLISH_ERROR
| KAFKA_CONNECTION_ERROR
| CONFIGURATION_ERROR
| INTERNAL_ERROR.

Record IngestorError : Type := {
  type : ErrorType;
  message : list N
}.

Module KafkaPublisher.

(** The object state, apart from the kafkajs client and producer. *)
Record t : Type := {
  isConnected : bool;
  publishCount : nat;
  errorCount : nat;
  reconnectAttempts : nat
}.

Definition maxReconnectAttempts : nat := 10.

Definition new : t :=
  {| isConnected := false; publishCount := 0; errorCount := 0;
     reconnectAttempts := 0 |}.

(** The handlers of ['producer.connect'] and ['producer.disconnect']. *)
Definition onProducerConnect (p : t) : t :=
  {| isConnected := true; publishCount := publishCount p;
     errorCount := errorCount p; reconnectAttempts := 0 |}.

Definition onProducerDisconnect (p : t) : t :=
  {| isConnected := false; publishCount := publishCount p;
     errorCount := errorCount p; reconnectAttempts := reconnectAttempts p |}.

(** How [producer.send] settles: it resolves (with the metadata of the
    partition written), or it rejects, with an [Error] that has a
    message or with a value that is not an [Error]. *)
Inductive SendOutcome : Type :=
| Sent
| Rejected (error : option (list N)).

(** How the [disconnect] and [connect] of [handleConnectionError]
    settle.  A [disconnect] or [connect] that resolves emits the
    producer event of the same name. *)
Inductive ReconnectOutcome : Type :=
| DisconnectFailed
| ConnectFailed
| Reconnected.

(** Where a call of [publishTick] stands: waiting for [producer.send],
    waiting in [handleConnectionError], or settled, its promise
    rejected with an error or resolved. *)
Inductive Stage : Type :=
| Sending
| Reconnecting (errorMessage : list N)
| Failing (error : IngestorError)
| Succeeding.

(** [error instanceof Error ? error.message : 'Unknown error'] *)
Definition errorMessageOf (error : option (list N)) : list N :=
  match error with
  | Some m => m
  | None => JS.lit "Unknown error"
  end.

(** The error [publishTick] throws from its [catch] block. *)
Definition publishError (errorMessage : list N) : IngestorError :=
  {| type := KAFKA_PUBLISH_ERROR;
     message := JS.lit "Failed to publish tick: " ++ errorMessage |}.

(** [Math.min(1000 * Math.pow(2, this.reconnectAttempts), 30000)] *)
Definition reconnectDelay (attempts : nat) : Z :=
  Z.min (1000 * 2 ^ Z.of_nat attempts) 30000.

(** The [catch] block of [publishTick], up to the first [await] of
    [handleConnectionError] when it is entered. *)
Definition caught (errorMessage : list N) (p : t) : t * Stage :=
  let p1 := {| isConnected := isConnected p; publishCount := publishCount p;
               errorCount := S (errorCount p);
               reconnectAttempts := reconnectAttempts p |} in
  if JS.includes (JS.lit "Connection") errorMessage
     || JS.includes (JS.lit "timeout") errorMessage
  then
    if (maxReconnectAttempts <=? reconnectAttempts p1)%nat
    then (p1, Failing (publishError errorMessage))
    else ({| isConnected := isConnected p1; publishCount := publishCount p1;
             errorCount := errorCount p1;
             reconnectAttempts := S (reconnectAttempts p1) |},
          Reconnecting errorMessage)
  else (p1, Failing (publishError errorMessage)).

(** [publishTick] from its call to its first [await]: a producer that
    is not connected makes it throw at once, into its own [catch]. *)
Definition publishTick (p : t) : t * Stage :=
  if isConnected p then (p, Sending)
  else caught (JS.lit "Kafka producer is not connected") p.

(** [publishTick] when [producer.send] has settled. *)
Definition sendSettled (o : SendOutcome) (p : t) : t * Stage :=
  match o with
  | Sent =>
      ({| isConnected := isConnected p; publishCount := S (publishCount p);
          errorCount := errorCount p;
          reconnectAttempts := reconnectAttempts p |}, Succeeding)
  | Rejected error => caught (errorMessageOf error) p
  end.

(** [publishTick] when the reconnection of [handleConnectionError] has
    settled: the producer events have run, and the error is thrown. *)
Definition reconnectSettled (o : ReconnectOutcome) (errorMessage : list N) (p : t)
    : t * Stage :=
  (match o with
   | DisconnectFailed => p
   | ConnectFailed => onProducerDisconnect p
   | Reconnected => onProducerConnect (onProducerDisconnect p)
   end,
   Failing (publishError errorMessage)).

(** [getMetrics] and [isConnectedToKafka] *)
Definition getMetrics (p : t) : nat * nat := (publishCount p, errorCount p).
Definition isConnectedToKafka (p : t) : bool := isConnected p.

End KafkaPublisher.

(* ================================================================== *)
(** * [packages/ingestor/src/ingestor-service.ts]: the metrics and     *)
(**   the whole of [handleMessage]                                     *)
(* ================================================================== *)

Module IngestorPipeline.
Section WithNumber.
Context {J : JSNumber} {F : JSNumberFormat J}.

(** [this.metrics.lastError] *)
Record LastError : Type := {
  le_message : list N;
  le_timestamp : Z;
  le_type : ErrorType
}.

(** [interface ServiceMetrics], without the two averages, which are
    running means of measured durations. *)
Record ServiceMetrics : Type := {
  activeConnections : nat;
  totalConnections : nat;
  messagesReceived : nat;
  messagesProcessed : nat;
  messagesFailed : nat;
  messagesPublished : nat;
  publishErrors : nat;
  validationErrors : gmap string nat;
  lastError : option LastError
}.

Definition noMetrics : ServiceMetrics :=
  {| activeConnections := 0; totalConnections := 0; messagesReceived := 0;
     messagesProcessed := 0; messagesFailed := 0; messagesPublished := 0;
     publishErrors := 0; validationErrors := ∅; lastError := None |}.

(** ** [categorizeValidationError] *)
Definition categorizeValidationError (error : list N) : string :=
  if JS.includes (JS.lit "RIC") error then "invalid_ric"
  else if JS.includes (JS.lit "price") error then "invalid_price"
  else if JS.includes (JS.lit "timestamp") error then "invalid_timestamp"
  else if JS.includes (JS.lit "format") error then "invalid_format"
  else if JS.includes (JS.lit "deviation") error then "price_deviation"
  else if JS.includes (JS.lit "bid/ask") error then "invalid_spread"
  else "other".

(** [validationErrors[errorType] = (validationErrors[errorType] || 0) + 1] *)
Definition countError (counts : gmap string nat) (error : list N) : gmap string nat :=
  let errorType := categorizeValidationError error in
  <[errorType := S (default 0%nat (counts !! errorType))]> counts.

(** ** [handleValidationFailure]

    The second component tells whether the failure is logged: the first
    one is, and then every tenth. *)
Definition handleValidationFailure (errors : list (list N)) (m : ServiceMetrics)
    : ServiceMetrics * bool :=
  let failed := S (messagesFailed m) in
  ({| activeConnections := activeConnections m;
      totalConnections := totalConnections m;
      messagesReceived := messagesReceived m;
      messagesProcessed := messagesProcessed m;
      messagesFailed := failed;
      messagesPublished := messagesPublished m;
      publishErrors := publishErrors m;
      validationErrors := fold_left countError errors (validationErrors m);
      lastError := lastError m |},
   (failed mod 10 =? 1)%nat).

(** ** [handleProcessingError]

    What the [catch] of [handleMessage] may receive: an [IngestorError],
    another [Error], or a value that is not an [Error]. *)
Inductive Thrown : Type :=
| ThrownIngestorError (e : IngestorError)
| ThrownError (message : list N)
| ThrownValue.

Definition handleProcessingError (error : Thrown) (now : Z) (m : ServiceMetrics)
    : ServiceMetrics :=
  let isPublishError :=
    match error with
    | ThrownIngestorError {| type := KAFKA_PUBLISH_ERROR |} => true
    | _ => false
    end in
  {| activeConnections := activeConnections m;
     totalConnections := totalConnections m;
     messagesReceived := messagesReceived m;
     messagesProcessed := messagesProcessed m;
     messagesFailed := S (messagesFailed m);
     messagesPublished := messagesPublished m;
     publishErrors := if isPublishError then S (publishErrors m) else publishErrors m;
     validationErrors := validationErrors m;
     lastError :=
       Some {| le_message :=
                 match error with
                 | ThrownIngestorError e => message e
                 | ThrownError msg => msg
                 | ThrownValue => JS.lit "Unknown error"
                 end;
               le_timestamp := now;
               le_type :=
                 match error with
                 | ThrownIngestorError e => type e
                 | _ => INTERNAL_ERROR
                 end |} |}.

(** ** [handleMessage]

    The running service ([isRunning] is true from the end of [start] to
    the call of [stop]) with its TCP server, its publisher and its
    metrics, and the calls of [handleMessage] that have not returned
    yet: each waits in [publishTick] with the tick it is publishing.
    The calls to [this.metricsExporter], which feed the Prometheus
    counters, and [updateProcessingMetrics], which sets only the average
    left out of [ServiceMetrics], are not modelled; they are taken not
    to throw. *)
Record t : Type := {
  service : IngestorService.t;
  tcpServer : TcpServer.t;
  publisher : KafkaPublisher.t;
  metrics : ServiceMetrics;
  inFlight : list (EnrichedTick * KafkaPublisher.Stage)
}.

(** The service when it starts handling messages.  The constructor has
    built the TCP server and installed [handleMessage] as its handler;
    [start] has connected the publisher first, which has published its
    test message, so the counters of the publisher need not be zero. *)
Definition started (cfg : IngestorConfig) (p0 : KafkaPublisher.t) : t :=
  {| service := IngestorService.new cfg; tcpServer := TcpServer.new;
     publisher := p0; metrics := noMetrics; inFlight := [] |}.

Definition received (m : ServiceMetrics) : ServiceMetrics :=
  {| activeConnections := activeConnections m;
     totalConnections := totalConnections m;
     messagesReceived := S (messagesReceived m);
     messagesProcessed := messagesProcessed m;
     messagesFailed := messagesFailed m;
     messagesPublished := messagesPublished m;
     publishErrors := publishErrors m;
     validationErrors := validationErrors m;
     lastError := lastError m |}.

Definition succeeded (m : ServiceMetrics) : ServiceMetrics :=
  {| activeConnections := activeConnections m;
     totalConnections := totalConnections m;
     messagesReceived := messagesReceived m;
     messagesProcessed := S (messagesProcessed m);
     messagesFailed := messagesFailed m;
     messagesPublished := S (messagesPublished m);
     publishErrors := publishErrors m;
     validationErrors := validationErrors m;
     lastError := lastError m |}.

(** [handleMessage] from its call to its [await]: the message is
    counted and validated; a rejected message is accounted for and the
    call returns; an accepted one is enriched and [publishTick] is
    called.  [nowV] and [nowE] are the clock readings of
    [validateTimestamp] and of [enrichTick]. *)
Definition handleMessage (s : t) (nowV nowE : Z) (rawMessage : RawMessage) : t :=
  let m := received (metrics s) in
  let v := IngestorService.validator (service s) in
  let called := MessageValidator.validateMessage v nowV (data rawMessage) in
  let s1 := {| IngestorService.validator := MessageValidator.self called;
               IngestorService.sequenceCounter :=
                 IngestorService.sequenceCounter (service s) |} in
  let validationResult := MessageValidator.result called in
  match isValid validationResult, tick validationResult with
  | true, Some tk =>
      let '(enrichedTick, s2) := IngestorService.enrichTick s1 nowE tk rawMessage in
      let '(p, stage) := KafkaPublisher.publishTick (publisher s) in
      {| service := s2; tcpServer := tcpServer s; publisher := p; metrics := m;
         inFlight := inFlight s ++ [(enrichedTick, stage)] |}
  | _, _ =>
      let errors :=
        Messages.text (MessageValidator.config v) <$> errors validationResult in
      {| service := s1; tcpServer := tcpServer s; publisher := publisher s;
         metrics := (handleValidationFailure errors m).1;
         inFlight := inFlight s |}
  end.

(** What an event of the TCP server does to the service: the server
    hands each message of the event to [handleMessage], which runs up to
    its [await] before the server goes on.  [clocks i] holds the
    readings of the clock by [validateTimestamp] and [enrichTick] for
    the [i]-th message.  The server and the handler touch different
    fields, so the server's part is put first. *)
Fixpoint handleMessages (s : t) (clocks : nat -> Z * Z) (messages : list RawMessage)
    : t :=
  match messages with
  | [] => s
  | rawMessage :: rest =>
      handleMessages (handleMessage s (clocks O).1 (clocks O).2 rawMessage)
                     (fun i => clocks (S i)) rest
  end.

Definition onServerEvent (ev : TcpServer.Event) (clocks : nat -> Z * Z) (s : t) : t :=
  let '(server, messages) := TcpServer.step ev (tcpServer s) in
  handleMessages
    {| service := service s; tcpServer := server; publisher := publisher s;
       metrics := metrics s; inFlight := inFlight s |}
    clocks messages.

(** ** The [report] callback of [startMetricsReporting]

    Every 30 seconds the counters of the TCP server and of the publisher
    are copied over those of the service ([x || 0] is [x] for a
    counter). *)
Definition report (s : t) : t :=
  let tcpMetrics := TcpServer.getMetrics (tcpServer s) in
  let kafkaMetrics := KafkaPublisher.getMetrics (publisher s) in
  {| service := service s; tcpServer := tcpServer s; publisher := publisher s;
     metrics :=
       {| activeConnections := TcpServer.activeConnections tcpMetrics;
          totalConnections := TcpServer.m_totalConnections tcpMetrics;
          messagesReceived := TcpServer.messagesReceived tcpMetrics;
          messagesProcessed := messagesProcessed (metrics s);
          messagesFailed := messagesFailed (metrics s);
          messagesPublished := kafkaMetrics.1;
          publishErrors := kafkaMetrics.2;
          validationErrors := validationErrors (metrics s);
          lastError := lastError (metrics s) |};
     inFlight := inFlight s |}.

(** What happens next to the call waiting at position [k]. *)
Inductive Settlement : Type :=
| SendSettles (o : KafkaPublisher.SendOutcome)
| ReconnectSettles (o : KafkaPublisher.ReconnectOutcome)
| Returns (now : Z).

(** The call at position [k] moves on: [producer.send] settles, the
    reconnection settles, or, [publishTick] having settled,
    [handleMessage] resumes after its [await] and returns.  [None] when
    there is no such call or it is not waiting for this. *)
Definition resume (k : nat) (what : Settlement) (s : t) : option t :=
  match inFlight s !! k with
  | None => None
  | Some (e, stage) =>
      let moved (ps : KafkaPublisher.t * KafkaPublisher.Stage) :=
        Some {| service := service s; tcpServer := tcpServer s;
                publisher := ps.1; metrics := metrics s;
                inFlight := <[k := (e, ps.2)]> (inFlight s) |} in
      match stage, what with
      | KafkaPublisher.Sending, SendSettles o =>
          moved (KafkaPublisher.sendSettled o (publisher s))
      | KafkaPublisher.Reconnecting msg, ReconnectSettles o =>
          moved (KafkaPublisher.reconnectSettled o msg (publisher s))
      | KafkaPublisher.Succeeding, Returns _ =>
          Some {| service := service s; tcpServer := tcpServer s;
                  publisher := publisher s;
                  metrics := succeeded (metrics s);
                  inFlight := delete k (inFlight s) |}
      | KafkaPublisher.Failing err, Returns now =>
          Some {| service := service s; tcpServer := tcpServer s;
                  publisher := publisher s;
                  metrics := handleProcessingError (ThrownIngestorError err) now (metrics s);
                  inFlight := delete k (inFlight s) |}
      | _, _ => None
      end
  end.

(** The calls and events that change the state of the service.  The
    producer events may occur at any time; when other calls run between
    the [disconnect] and the [connect] of a reconnection, its producer
    events are events of their own, before a settlement that changes
    nothing more. *)
Inductive Event : Type :=
| Server (ev : TcpServer.Event) (clocks : nat -> Z * Z)
| Resume (k : nat) (what : Settlement)
| ProducerConnect
| ProducerDisconnect
| Report.

Definition step (ev : Event) (s : t) : option t :=
  match ev with
  | Server ev clocks => Some (onServerEvent ev clocks s)
  | Resume k what => resume k what s
  | ProducerConnect =>
      Some {| service := service s; tcpServer := tcpServer s;
              publisher := KafkaPublisher.onProducerConnect (publisher s);
              metrics := metrics s; inFlight := inFlight s |}
  | ProducerDisconnect =>
      Some {| service := service s; tcpServer := tcpServer s;
              publisher := KafkaPublisher.onProducerDisconnect (publisher s);
              metrics := metrics s; inFlight := inFlight s |}
  | Report => Some (report s)
  end.

(** Whether the [report] callback has run during [evs]. *)
Definition isReport (ev : Event) : bool :=
  match ev with Report => true | _ => false end.

Definition reported (evs : list Event) : bool := existsb isReport evs.

(** The service after a sequence of events; [None] when one of them
    cannot occur. *)
Fixpoint run (evs : list Event) (s : t) : option t :=
  match evs with
  | [] => Some s
  | ev :: rest =>
      match step ev s with
      | Some s' => run rest s'
      | None => None
      end
  end.

End WithNumber.
End IngestorPipeline.

(* ================================================================== *)
(** * [packages/ingestor/src/index.ts]: the whole configuration        *)
(* ================================================================== *)

Module Index.

(** [interface TcpServerConfig], [interface KafkaConfig] and the
    [metrics] member of [interface IngestorConfig].  A number read with
    [parseInt] may be NaN ([None]). *)
Module Tcp.
Record t : Type := {
  host : list N;
  port : option Z;
  maxConnections : option Z;
  keepAlive : bool;
  keepAliveInitialDelay : option Z
}.
End Tcp.

Module Kafka.
Record t : Type := {
  brokers : list (list N);
  clientId : list N;
  topic : list N;
  acks : option Z;
  retries : option Z;
  compression : option (list N);
  batchSize : option Z;
  lingerMs : option Z
}.
End Kafka.

Module Metrics.
Record t : Type := {
  enabled : bool;
  port : option Z;
  path : list N
}.
End Metrics.

Section WithNumber.
Context {J : JSNumber}.

(** The [validation] member, as built by [loadConfiguration] above. *)
Definition loadValidation (env : string -> option (list N)) : IngestorConfig :=
  loadConfiguration env.

(** [interface IngestorConfig]: [validator] holds the [validation]
    member, the part of the configuration modelled by the record
    [IngestorConfig] above. *)
Record Configuration : Type := {
  tcp : Tcp.t;
  kafka : Kafka.t;
  metrics : Metrics.t;
  validator : IngestorConfig
}.

Definition COMMA : N := 44.

(** [process.env.NAME === 'true'] and [process.env.NAME !== 'false'] *)
Definition envIs (env : string -> option (list N)) (name : string) (value : string)
    : bool :=
  match env name with
  | Some v => JS.streq v (JS.lit value)
  | None => false
  end.

(** [process.env.NAME || undefined] *)
Definition envOptional (env : string -> option (list N)) (name : string)
    : option (list N) :=
  match env name with
  | Some v => if JS.isEmpty v then None else Some v
  | None => None
  end.

Definition envInt (env : string -> option (list N)) (name : string) (fallback : string)
    : option Z :=
  JS.parseInt (envOr env name (JS.lit fallback)).

Definition loadConfiguration (env : string -> option (list N)) : Configuration :=
  {| tcp :=
       {| Tcp.host := envOr env "TCP_HOST" (JS.lit "0.0.0.0");
          Tcp.port := envInt env "TCP_PORT" "8080";
          Tcp.maxConnections := envInt env "TCP_MAX_CONNECTIONS" "100";
          Tcp.keepAlive := envIs env "TCP_KEEP_ALIVE" "true";
          Tcp.keepAliveInitialDelay := envInt env "TCP_KEEP_ALIVE_DELAY" "30000" |};
     kafka :=
       {| Kafka.brokers :=
            JS.split COMMA (envOr env "KAFKA_BROKERS" (JS.lit "kafka:29092"));
          Kafka.clientId := envOr env "KAFKA_CLIENT_ID" (JS.lit "trade-pulse-ingestor");
          Kafka.topic := envOr env "KAFKA_TOPIC" (JS.lit "price-ticks");
          Kafka.acks := envInt env "KAFKA_ACKS" "1";
          Kafka.retries := envInt env "KAFKA_RETRIES" "3";
          Kafka.compression := envOptional env "KAFKA_COMPRESSION";
          Kafka.batchSize := envInt env "KAFKA_BATCH_SIZE" "16384";
          Kafka.lingerMs := envInt env "KAFKA_LINGER_MS" "10" |};
     metrics :=
       {| Metrics.enabled := negb (envIs env "METRICS_ENABLED" "false");
          Metrics.port := envInt env "METRICS_PORT" "9090";
          Metrics.path := envOr env "METRICS_PATH" (JS.lit "/metrics") |};
     validator := loadValidation env |}.

(** The messages of [validateConfiguration]. *)
Inductive ConfigurationError : Type :=
| InvalidTcpPort (port : option Z)
    (* `Invalid TCP port: ${port}. Must be between 1 and 65535` *)
| InvalidMaxConnections (maxConnections : option Z)
    (* `Invalid max connections: ${n}. Must be at least 1` *)
| NoBroker
    (* 'At least one Kafka broker must be specified' *)
| EmptyTopic
    (* 'Kafka topic cannot be empty' *)
| InvalidAcks (acks : option Z)
    (* `Invalid Kafka acks value: ${acks}. Must be 0, 1, or -1` *)
| InvalidMetricsPort (port : option Z)
    (* `Invalid metrics port: ${port}. Must be between 1 and 65535` *)
| InvalidMaxPriceDeviation (maxPriceDeviation : number)
    (* `Invalid max price deviation: ${d}. Must be between 0 and 1` *)
| InvalidMaxTimestampAge (maxTimestampAge : option Z).
    (* `Invalid max timestamp age: ${age}. Must be non-negative` *)

(** [x < n] and [x > n] for a number that may be NaN: both are false
    for NaN. *)
Definition below (x : option Z) (n : Z) : bool :=
  match x with Some z => (z <? n)%Z | None => false end.

Definition above (x : option Z) (n : Z) : bool :=
  match x with Some z => (n <? z)%Z | None => false end.

(** [[0, 1, -1].includes(x)]: NaN is not among them. *)
Definition isAcks (x : option Z) : bool :=
  match x with
  | Some z => (z =? 0)%Z || (z =? 1)%Z || (z =? -1)%Z
  | None => false
  end.

(** [if (cond) errors.push(e)] *)
Definition check (cond : bool) (e : ConfigurationError)
    (errors : list ConfigurationError) : list ConfigurationError :=
  if cond then errors ++ [e] else errors.

(** [validateConfiguration]: the errors it collects; it prints them and
    calls [process.exit(1)] when there is one. *)
Definition validateConfiguration (config : Configuration) : list ConfigurationError :=
  let validation := validation (validator config) in
  let errors := [] in
  let errors :=
    check (below (Tcp.port (tcp config)) 1 || above (Tcp.port (tcp config)) 65535)
          (InvalidTcpPort (Tcp.port (tcp config))) errors in
  let errors :=
    check (below (Tcp.maxConnections (tcp config)) 1)
          (InvalidMaxConnections (Tcp.maxConnections (tcp config))) errors in
  let errors :=
    check (length (Kafka.brokers (kafka config)) =? 0)%nat NoBroker errors in
  let errors :=
    check (JS.isEmpty (JS.trim (Kafka.topic (kafka config)))) EmptyTopic errors in
  let errors :=
    check (negb (isAcks (Kafka.acks (kafka config))))
          (InvalidAcks (Kafka.acks (kafka config))) errors in
  let errors :=
    check (Metrics.enabled (metrics config)
           && (below (Metrics.port (metrics config)) 1
               || above (Metrics.port (metrics config)) 65535))
          (InvalidMetricsPort (Metrics.port (metrics config))) errors in
  let errors :=
    check (lt (maxPriceDeviation validation) (ofZ 0)
           || gt (maxPriceDeviation validation) (ofZ 1))
          (InvalidMaxPriceDeviation (maxPriceDeviation validation)) errors in
  let errors :=
    check (below (maxTimestampAge validation) 0)
          (InvalidMaxTimestampAge (maxTimestampAge validation)) errors in
  errors.

(** Whether [validateConfiguration] ends the process. *)
Definition exits (config : Configuration) : bool :=
  (0 <? length (validateConfiguration config))%nat.

End WithNumber.
End Index.

(* ================================================================== *)
(** * Properties                                                       *)
(* ================================================================== *)

(** ** Strings *)
Module JSFacts.
Import JS.

Fixpoint count (c : N) (s : list N) : nat :=
  match s with
  | [] => O
  | x :: t => if x =? c then S (count c t) else count c t
  end.

Lemma count_cons c x s :
  count c (x :: s) = if x =? c then S (count c s) else count c s.
Proof. reflexivity. Qed.

Lemma count_app c s1 s2 : count c (s1 ++ s2) = (count c s1 + count c s2)%nat.
Proof.
  induction s1 as [|x s1 IH]; [done|].
  simpl. rewrite IH. by destruct (x =? c).
Qed.

Lemma count_rev c s : count c (rev s) = count c s.
Proof.
  induction s as [|x s IH]; [done|].
  simpl. rewrite count_app, IH. simpl.
  destruct (x =? c); lia.
Qed.

Lemma split_nonempty sep s : split sep s <> [].
Proof.
  destruct s as [|c t]; simpl; [done|].
  destruct (c =? sep); [done|]. by destruct (split sep t).
Qed.

(** [split] yields one part more than there are separators. *)
Lemma split_length sep s : length (split sep s) = S (count sep s).
Proof.
  induction s as [|c t IH]; [done|].
  simpl. destruct (c =? sep); simpl; [by rewrite IH|].
  pose proof (split_nonempty sep t).
  destruct (split sep t); [done|]. simpl in *. lia.
Qed.

Lemma count_trimStart c s : isWhiteSpace c = false -> count c (trimStart s) = count c s.
Proof.
  intros Hc. induction s as [|x s IH]; [done|].
  simpl. destruct (isWhiteSpace x) eqn:Hx; [|done].
  rewrite IH. destruct (N.eqb_spec x c); [congruence|done].
Qed.

Lemma count_trim c s : isWhiteSpace c = false -> count c (trim s) = count c s.
Proof.
  intros Hc. unfold trim, trimEnd.
  by rewrite count_rev, count_trimStart, count_rev, count_trimStart.
Qed.

Lemma removeNewlines_cons x t :
  removeNewlines (x :: t) =
    if x =? LF then removeNewlines t
    else match t with
         | d :: u => if (x =? CR) && (d =? LF) then removeNewlines u
                     else x :: removeNewlines t
         | [] => [x]
         end.
Proof. reflexivity. Qed.

Lemma count_removeNewlines c s :
  c <> LF -> c <> CR -> count c (removeNewlines s) = count c s.
Proof.
  intros H1 H2.
  assert (forall n s, (length s <= n)%nat -> count c (removeNewlines s) = count c s) as H;
    [|by apply (H (length s))].
  clear s. induction n as [|n IH]; intros [|x t] Hn; try done.
  { cbn [length] in Hn. lia. }
  cbn [length] in Hn.
  rewrite removeNewlines_cons, count_cons.
  destruct (N.eqb_spec x LF) as [->|Hx].
  { destruct (N.eqb_spec LF c); [congruence|]. apply IH; lia. }
  destruct t as [|d u]; [by rewrite count_cons|].
  cbn [length] in Hn.
  destruct (N.eqb_spec x CR) as [->|Hx']; cbn [andb].
  - destruct (N.eqb_spec d LF) as [->|Hd].
    + destruct (N.eqb_spec CR c); [congruence|].
      rewrite count_cons.
      destruct (N.eqb_spec LF c); [congruence|].
      apply IH. lia.
    + rewrite count_cons, (IH (d :: u)) by (cbn [length]; lia).
      destruct (N.eqb_spec CR c); [congruence|done].
  - rewrite count_cons, (IH (d :: u)) by (cbn [length]; lia). done.
Qed.

(** Cleaning a raw message does not change its number of fields. *)
Lemma fields_clean raw :
  length (split PIPE (trim (removeNewlines raw))) = length (split PIPE raw).
Proof.
  rewrite !split_length, count_trim, count_removeNewlines; done.
Qed.

(** *** Decimal integers *)

Definition startsWithDigit (s : list N) : bool :=
  match s with c :: _ => isDigit c | [] => false end.

Lemma isDigit_cases c :
  isDigit c = true ->
  c = 48 \/ c = 49 \/ c = 50 \/ c = 51 \/ c = 52 \/ c = 53 \/ c = 54 \/ c = 55 \/ c = 56 \/ c = 57.
Proof.
  unfold isDigit. intros H. apply andb_true_iff in H as [H1 H2].
  apply N.leb_le in H1, H2. lia.
Qed.

Lemma spanDigits_nondigit s :
  startsWithDigit s = false -> spanDigits s = (Decimal.Nil, s).
Proof.
  destruct s as [|c t]; [done|]. cbn [startsWithDigit]. intros Hc.
  cbn [spanDigits].
  repeat match goal with
  | |- context [c =? ?k] =>
      destruct (N.eqb_spec c k) as [->|?]; [discriminate Hc|]
  end. done.
Qed.

Lemma spanDigits_uintCodes u r :
  startsWithDigit r = false -> spanDigits (uintCodes u ++ r) = (u, r).
Proof.
  intros Hr. induction u; cbn [uintCodes app];
    [by apply spanDigits_nondigit| ..];
    cbn [spanDigits]; rewrite IHu; reflexivity.
Qed.

Lemma uintCodes_digits u : forallb isDigit (uintCodes u) = true.
Proof. induction u; simpl; auto. Qed.

Lemma isDigit_not_ws c : isDigit c = true -> isWhiteSpace c = false.
Proof. intros H. apply isDigit_cases in H. by repeat destruct H as [->|H]; [..|subst]. Qed.

Lemma to_uint_nonnil n : N.to_uint n <> Decimal.Nil.
Proof.
  destruct n; [done|]. apply DecimalPos.Unsigned.to_uint_nonnil.
Qed.

Lemma N_toString_nonempty n : N_toString n <> [].
Proof.
  unfold N_toString. pose proof (to_uint_nonnil n).
  by destruct (N.to_uint n).
Qed.

Lemma N_toString_digits n : forallb isDigit (N_toString n) = true.
Proof. apply uintCodes_digits. Qed.

Lemma parseInt_digits n :
  parseInt (N_toString n) = Some (Z.of_N n).
Proof.
  unfold parseInt.
  pose proof (N_toString_nonempty n) as Hne.
  pose proof (N_toString_digits n) as Hd.
  unfold N_toString in *.
  destruct (uintCodes (N.to_uint n)) as [|c t] eqn:Hu; [done|].
  cbn [forallb] in Hd. apply andb_true_iff in Hd as [Hc _].
  cbn [trimStart]. rewrite (isDigit_not_ws _ Hc).
  assert ((c =? MINUS) = false /\ (c =? PLUS) = false) as [-> ->].
  { apply isDigit_cases in Hc. by repeat destruct Hc as [->|Hc]; [..|subst]. }
  rewrite <- Hu, <- (app_nil_r (uintCodes _)), spanDigits_uintCodes by done.
  pose proof (to_uint_nonnil n).
  rewrite DecimalN.Unsigned.of_to.
  by destruct (N.to_uint n).
Qed.

(** [parseInt] reads back what [toString] prints. *)
Lemma parseInt_Z_toString z : parseInt (Z_toString z) = Some z.
Proof.
  destruct z as [|p|p]; [done| |].
  - apply (parseInt_digits (Npos p)).
  - unfold Z_toString, parseInt. cbn [trimStart].
    change (isWhiteSpace MINUS) with false. cbn iota.
    change (MINUS =? MINUS) with true. cbn iota.
    rewrite <- (app_nil_r (N_toString _)). unfold N_toString.
    rewrite spanDigits_uintCodes by done.
    pose proof (to_uint_nonnil (Npos p)).
    rewrite DecimalN.Unsigned.of_to.
    by destruct (N.to_uint (N.pos p)).
Qed.

Lemma Z_toString_inj a b : Z_toString a = Z_toString b -> a = b.
Proof.
  intros H. apply (f_equal parseInt) in H.
  rewrite !parseInt_Z_toString in H. congruence.
Qed.

(** *** [split] and separators *)

Lemma split_app_sep sep a b :
  split sep (a ++ sep :: b) = split sep a ++ split sep b.
Proof.
  induction a as [|x a IH]; cbn [app split].
  - by rewrite N.eqb_refl.
  - destruct (x =? sep); [by rewrite IH|].
    rewrite IH. pose proof (split_nonempty sep a).
    by destruct (split sep a).
Qed.

Lemma split_nosep sep b : count sep b = 0%nat -> split sep b = [b].
Proof.
  induction b as [|x b IH]; [done|].
  cbn [count split]. destruct (x =? sep); [done|].
  intros H. by rewrite IH.
Qed.

Lemma count_digits c s :
  forallb isDigit s = true -> isDigit c = false -> count c s = 0%nat.
Proof.
  intros Hs Hc. induction s as [|x s IH]; [done|].
  cbn [forallb] in Hs. apply andb_true_iff in Hs as [Hx Hs].
  cbn [count]. destruct (N.eqb_spec x c) as [->|_]; [congruence|auto].
Qed.

End JSFacts.

(** ** The characters of a wire line *)
Module WireFacts.
Import JS JSFacts.

(** Turning boolean tests on code units into arithmetic. *)
Ltac arith :=
  repeat match goal with
  | H : _ && _ = true |- _ => apply andb_true_iff in H as [? ?]
  | H : _ || _ = false |- _ => apply orb_false_iff in H as [? ?]
  | H : (_ <=? _) = true |- _ => apply N.leb_le in H
  | H : (_ <=? _) = false |- _ => apply N.leb_gt in H
  | H : (_ <? _) = true |- _ => apply N.ltb_lt in H
  | H : (_ <? _) = false |- _ => apply N.ltb_ge in H
  | H : (_ =? _) = true |- _ => apply N.eqb_eq in H
  | H : (_ =? _) = false |- _ => apply N.eqb_neq in H
  | H : negb _ = true |- _ => apply negb_true_iff in H
  | H : negb _ = false |- _ => apply negb_false_iff in H
  end.

Definition noWS (s : list N) : bool := forallb (fun c => negb (isWhiteSpace c)) s.
Definition noPipe (s : list N) : bool := forallb (fun c => negb (c =? PIPE)) s.

Lemma trimStart_noWS s : noWS s = true -> trimStart s = s.
Proof.
  destruct s as [|c t]; [done|]. cbn [noWS forallb trimStart].
  intros H. apply andb_true_iff in H as [H _]. apply negb_true_iff in H. by rewrite H.
Qed.

Lemma noWS_rev s : noWS (rev s) = noWS s.
Proof.
  unfold noWS. induction s as [|c s IH]; [done|].
  cbn [rev forallb]. rewrite forallb_app, IH. cbn [forallb].
  rewrite andb_true_r. apply andb_comm.
Qed.

Lemma trim_noWS s : noWS s = true -> trim s = s.
Proof.
  intros H. unfold trim, trimEnd. rewrite (trimStart_noWS s H).
  rewrite trimStart_noWS by (by rewrite noWS_rev). apply rev_involutive.
Qed.

Lemma removeNewlines_noWS s : noWS s = true -> removeNewlines s = s.
Proof.
  assert (forall n s, (length s <= n)%nat -> noWS s = true -> removeNewlines s = s) as H;
    [|by apply (H (length s))].
  clear s. induction n as [|n IH]; intros [|x t] Hn Hs; try done.
  { cbn [length] in Hn. lia. }
  cbn [length] in Hn. cbn [noWS forallb] in Hs.
  apply andb_true_iff in Hs as [Hx Ht]. apply negb_true_iff in Hx.
  rewrite removeNewlines_cons.
  assert ((x =? LF) = false) as ->.
  { destruct (N.eqb_spec x LF) as [->|]; [discriminate Hx|done]. }
  destruct t as [|d u]; [done|].
  assert ((x =? CR) = false) as ->.
  { destruct (N.eqb_spec x CR) as [->|]; [discriminate Hx|done]. }
  cbn [andb]. f_equal. apply IH; [lia|done].
Qed.

Lemma noWS_app a b : noWS (a ++ b) = noWS a && noWS b.
Proof. apply forallb_app. Qed.

Lemma noPipe_count s : noPipe s = true -> count PIPE s = 0%nat.
Proof.
  induction s as [|c s IH]; [done|]. cbn [noPipe forallb count].
  intros H. apply andb_true_iff in H as [Hc Hs]. apply negb_true_iff in Hc.
  rewrite Hc. by apply IH.
Qed.

(** [split] undoes [join] when no part contains the separator. *)
Lemma split_join parts :
  parts <> [] -> forallb noPipe parts = true ->
  split PIPE (join PIPE parts) = parts.
Proof.
  induction parts as [|p parts IH]; [done|]. intros _ H.
  cbn [forallb] in H. apply andb_true_iff in H as [Hp Hps].
  destruct parts as [|q parts].
  - cbn [join]. apply split_nosep. by apply noPipe_count.
  - change (join PIPE (p :: q :: parts)) with (p ++ PIPE :: join PIPE (q :: parts)).
    rewrite split_app_sep, IH by done.
    rewrite split_nosep by (by apply noPipe_count). done.
Qed.

Lemma noWS_join parts : forallb noWS parts = true -> noWS (join PIPE parts) = true.
Proof.
  induction parts as [|p parts IH]; [done|]. intros H.
  cbn [forallb] in H. apply andb_true_iff in H as [Hp Hps].
  destruct parts as [|q parts]; [done|].
  change (join PIPE (p :: q :: parts)) with (p ++ PIPE :: join PIPE (q :: parts)).
  rewrite noWS_app, Hp. cbn [noWS forallb]. change (negb (isWhiteSpace PIPE)) with true.
  cbn [andb]. by apply IH.
Qed.

(** The characters of the fields. *)
Lemma forallb_impl {A} (f g : A -> bool) l :
  (forall x, f x = true -> g x = true) -> forallb f l = true -> forallb g l = true.
Proof.
  intros Hfg. induction l as [|x l IH]; [done|]. cbn [forallb].
  intros H. apply andb_true_iff in H as [Hx Hl]. by rewrite (Hfg x Hx), IH.
Qed.

Lemma ricChar_field c :
  isRicChar c = true -> isWhiteSpace c = false /\ (c =? PIPE) = false.
Proof.
  unfold isRicChar, isUpper, isLower, isDigit, isWhiteSpace, DOT, EQUALS, PIPE.
  intros H. repeat (apply orb_true_iff in H as [H|H]); arith;
    (split; [repeat (apply orb_false_iff; split); try apply andb_false_iff;
             rewrite ?N.leb_gt, ?N.eqb_neq; lia
            |apply N.eqb_neq; lia]).
Qed.

Lemma numberChar_field c :
  isNumberChar c = true -> isWhiteSpace c = false /\ (c =? PIPE) = false.
Proof.
  unfold isNumberChar, isDigit, isWhiteSpace, DOT, MINUS, PLUS, PIPE.
  intros H. repeat (apply orb_true_iff in H as [H|H]); arith;
    (split; [repeat (apply orb_false_iff; split); try apply andb_false_iff;
             rewrite ?N.leb_gt, ?N.eqb_neq; lia
            |apply N.eqb_neq; lia]).
Qed.

End WireFacts.

(** ** The validator *)
Module MessageValidatorFacts.
Import MessageValidator.
Section WithNumber.
Context {J : JSNumber}.

(** Each helper either pushes exactly one message and returns
    [undefined], or pushes nothing. *)
Lemma validateRic_cases ricStr errs :
  (exists e, validateRic ricStr errs = (None, errs ++ [e]))
  \/ (exists r, validateRic ricStr errs = (Some r, errs)).
Proof.
  unfold validateRic, bind, push, ret.
  repeat case_match; eauto.
Qed.

Lemma validatePrice_cases priceStr fieldName errs :
  (exists e, validatePrice priceStr fieldName errs = (None, errs ++ [e]))
  \/ (exists p, validatePrice priceStr fieldName errs = (Some p, errs)).
Proof.
  unfold validatePrice, bind, push, ret.
  repeat case_match; eauto.
Qed.

Lemma validateTimestamp_cases v now timestampStr errs :
  (exists e, validateTimestamp v now timestampStr errs = (None, errs ++ [e]))
  \/ (exists ts, validateTimestamp v now timestampStr errs = (Some ts, errs)).
Proof.
  unfold validateTimestamp, bind, push, ret.
  repeat case_match; eauto.
Qed.

Lemma validateOptionalNumber_cases valueStr fieldName errs :
  (exists e, validateOptionalNumber valueStr fieldName errs = (None, errs ++ [e]))
  \/ (exists o, validateOptionalNumber valueStr fieldName errs = (o, errs)).
Proof.
  unfold validateOptionalNumber, bind, push, ret.
  repeat case_match; eauto.
Qed.

(** When the six validations leave [errors] empty, the RIC, the price
    and the timestamp are defined: the assertions [ric!], [price!] and
    [timestamp!] of [validateMessage] hold. *)
Lemma validateFields_defined v now f1 f2 f3 f4 f5 f6 fields :
  validateFields v now f1 f2 f3 f4 f5 f6 [] = (fields, []) ->
  exists r p ts vol b a,
    fields = (Some r, Some p, Some ts, vol, b, a)
    /\ validateRic f1 [] = (Some r, [])
    /\ validatePrice f2 "price" [] = (Some p, [])
    /\ validateTimestamp v now f3 [] = (Some ts, [])
    /\ validateOptionalNumber f4 "volume" [] = (vol, [])
    /\ validateOptionalNumber f5 "bid" [] = (b, [])
    /\ validateOptionalNumber f6 "ask" [] = (a, []).
Proof.
  unfold validateFields, bind, ret.
  destruct (validateRic_cases f1 []) as [[e1 H1]|[r H1]]; rewrite H1;
  match goal with |- context [validatePrice f2 _ ?l] =>
    destruct (validatePrice_cases f2 "price" l) as [[e2 H2]|[p H2]]; rewrite H2 end;
  match goal with |- context [validateTimestamp v now f3 ?l] =>
    destruct (validateTimestamp_cases v now f3 l) as [[e3 H3]|[ts H3]]; rewrite H3 end;
  match goal with |- context [validateOptionalNumber f4 _ ?l] =>
    destruct (validateOptionalNumber_cases f4 "volume" l) as [[e4 H4]|[vol H4]]; rewrite H4 end;
  match goal with |- context [validateOptionalNumber f5 _ ?l] =>
    destruct (validateOptionalNumber_cases f5 "bid" l) as [[e5 H5]|[b H5]]; rewrite H5 end;
  match goal with |- context [validateOptionalNumber f6 _ ?l] =>
    destruct (validateOptionalNumber_cases f6 "ask" l) as [[e6 H6]|[a H6]]; rewrite H6 end;
  intros Heq; apply pair_equal_spec in Heq as [<- Herr];
  try (exfalso; apply (f_equal length) in Herr; rewrite ?length_app in Herr; simpl in Herr; lia).
  by exists r, p, ts, vol, b, a.
Qed.

(** ** The business rules only append to [errors] *)

Lemma rule1_app tk errs : rule1 tk errs = (tt, errs ++ (rule1 tk []).2).
Proof.
  unfold rule1, push, ret. repeat case_match; simpl; by rewrite ?app_nil_r.
Qed.

Lemma rule2_app tk errs : rule2 tk errs = (tt, errs ++ (rule2 tk []).2).
Proof.
  unfold rule2, push, ret. repeat case_match; simpl; by rewrite ?app_nil_r.
Qed.

Lemma rule3_app v tk errs :
  rule3 v tk errs = ((rule3 v tk []).1, errs ++ (rule3 v tk []).2).
Proof.
  unfold rule3, bind, push, ret. repeat case_match; simpl; by rewrite ?app_nil_r.
Qed.

Lemma rule4_app v tk errs : rule4 v tk errs = (tt, errs ++ (rule4 v tk []).2).
Proof.
  unfold rule4, push, ret. repeat case_match; simpl; by rewrite ?app_nil_r.
Qed.

Lemma validateBusinessRules_eq v tk errs :
  validateBusinessRules v tk errs =
    ((rule3 v tk []).1,
     errs ++ (rule1 tk []).2 ++ (rule2 tk []).2
          ++ (rule3 v tk []).2 ++ (rule4 v tk []).2).
Proof.
  unfold validateBusinessRules, bind, ret.
  rewrite (rule1_app tk errs).
  rewrite (rule2_app tk (errs ++ _)).
  rewrite (rule3_app v tk (_ ++ _)).
  rewrite (rule4_app v tk (_ ++ _)).
  by rewrite <- !app_assoc.
Qed.

(** ** The shape of every call of [validateMessage] *)

(** The validator after an accepted tick. *)
Definition remember (v : t) (tk : PriceTick) : t :=
  {| config := config v;
     lastPrices := <[ric tk := price tk]> (lastPrices v) |}.

(** The raw message has six fields that pass the six field validations
    and make up [tk]. *)
Definition wellFormed (v : t) (now : Z) (rawMessage : list N) (tk : PriceTick) : Prop :=
  exists f1 f2 f3 f4 f5 f6,
    JS.isEmpty (JS.trim (JS.removeNewlines rawMessage)) = false
    /\ JS.split JS.PIPE (JS.trim (JS.removeNewlines rawMessage)) = [f1; f2; f3; f4; f5; f6]
    /\ validateFields v now f1 f2 f3 f4 f5 f6 [] =
         ((Some (ric tk), Some (price tk), Some (timestamp tk),
           volume tk, bid tk, ask tk), []).

Lemma tick_eta (tk : PriceTick) :
  {| ric := ric tk; price := price tk; timestamp := timestamp tk;
     volume := volume tk; bid := bid tk; ask := ask tk |} = tk.
Proof. by destruct tk. Qed.

(** A well-formed message reaches the business rules. *)
Lemma validateMessage_wellFormed v now raw tk :
  wellFormed v now raw tk ->
  validateMessage v now raw =
    let '(warnings, errs) := validateBusinessRules v tk [] in
    let ok := (length errs =? 0)%nat in
    {| result := {| isValid := ok;
                    tick := if ok then Some tk else None;
                    errors := errs |};
       self := if ok then remember v tk else v;
       console := warnings |}.
Proof.
  intros (f1 & f2 & f3 & f4 & f5 & f6 & Hne & Hsplit & Hfields).
  unfold validateMessage. rewrite Hne, Hsplit, Hfields. simpl.
  by rewrite tick_eta.
Qed.

(** Every other message is rejected with at least one error, before the
    business rules, and leaves the validator as it was. *)
Lemma validateMessage_cases v now raw :
  (exists errs, errs <> [] /\ validateMessage v now raw = rejected v errs)
  \/ (exists tk, wellFormed v now raw tk).
Proof.
  unfold validateMessage, wellFormed.
  destruct (JS.isEmpty _) eqn:Hne.
  { left. eexists; split; [|reflexivity]. discriminate. }
  destruct (JS.split _ _) as [|f1 [|f2 [|f3 [|f4 [|f5 [|f6 [|]]]]]]] eqn:Hsplit;
    try (left; eexists; split; [|reflexivity]; discriminate).
  destruct (validateFields _ _ _ _ _ _ _ _ _) as [fields errs] eqn:Hfields.
  destruct errs as [|e errs].
  - right. apply validateFields_defined in Hfields as Hdef.
    destruct Hdef as (r & p & ts & vol & b & a & -> & _).
    exists {| ric := r; price := p; timestamp := ts;
              volume := vol; bid := b; ask := a |}.
    exists f1, f2, f3, f4, f5, f6. eauto.
  - left. simpl. eexists; split; [|reflexivity]. discriminate.
Qed.

(** ** C9: every [ValidationResult] is well formed *)

(** C9.  For every input string and every validator state, the result of
    [validateMessage] has [isValid] true exactly when its error list is
    empty, and carries a tick exactly when [isValid] is true: success is
    never reported together with errors, and a rejected message never
    carries a tick. *)
Theorem validateMessage_result_wellformed (v : t) (now : Z) (rawMessage : list N) :
  let r := result (validateMessage v now rawMessage) in
  (isValid r = true <-> errors r = [])
  /\ (isValid r = true <-> exists tk, tick r = Some tk).
Proof.
  destruct (validateMessage_cases v now rawMessage) as [(errs & Hne & ->)|[tk Hwf]].
  - simpl. split; split; try done. by intros [tk ?].
  - rewrite (validateMessage_wellFormed _ _ _ _ Hwf).
    destruct (validateBusinessRules v tk []) as [w errs].
    destruct errs; simpl; split; split; try done; eauto. by intros [? ?].
Qed.

(** ** C3: a rejected message never changes the price map *)

(** C3.  For every raw message and every validator state: the
    configuration is never changed; when the result is invalid the
    last-price map is unchanged; when the result is valid it carries a
    tick, of some instrument X with price P, and the map afterwards is
    the map before with X bound to P: X is bound to P and the entry of
    every other instrument is what it was. *)
Theorem validateMessage_state (v : t) (now : Z) (rawMessage : list N) :
  let c := validateMessage v now rawMessage in
  config (self c) = config v
  /\ (isValid (result c) = false -> lastPrices (self c) = lastPrices v)
  /\ (isValid (result c) = true ->
      exists tk,
        tick (result c) = Some tk
        /\ lastPrices (self c) = <[ric tk := price tk]> (lastPrices v)
        /\ lastPrices (self c) !! ric tk = Some (price tk)
        /\ forall x, x <> ric tk -> lastPrices (self c) !! x = lastPrices v !! x).
Proof.
  destruct (validateMessage_cases v now rawMessage) as [(errs & Hne & ->)|[tk Hwf]].
  - simpl. done.
  - rewrite (validateMessage_wellFormed _ _ _ _ Hwf).
    destruct (validateBusinessRules v tk []) as [w errs].
    destruct errs; simpl; [|done].
    split; [done|]. split; [done|].
    intros _. exists tk. split; [done|]. split; [done|].
    split; [by rewrite lookup_insert_eq|].
    intros x Hx. by rewrite lookup_insert_ne.
Qed.

(** ** C5: exactly six fields *)

(** C5.  For every input line whose number of [|]-separated fields is not
    six, [validateMessage] returns an invalid result with no tick, whose
    only error is the empty-message or the field-count error: no field
    has been parsed, the validator is unchanged and nothing is logged.
    Hence for every input line either the split yields six fields or the
    message is rejected before any field-level parsing. *)
Theorem validateMessage_six_fields (v : t) (now : Z) (rawMessage : list N) :
  length (JS.split JS.PIPE rawMessage) <> 6%nat ->
  let c := validateMessage v now rawMessage in
  isValid (result c) = false
  /\ tick (result c) = None
  /\ (errors (result c) = [EmptyMessage]
      \/ errors (result c) =
           [InvalidFormat (length (JS.split JS.PIPE rawMessage))
                          (JS.trim (JS.removeNewlines rawMessage))])
  /\ self c = v
  /\ console c = [].
Proof.
  intros Hlen. rewrite <- JSFacts.fields_clean in *.
  unfold validateMessage.
  destruct (JS.isEmpty _); [simpl; eauto 10|].
  destruct (JS.split _ _) as [|f1 [|f2 [|f3 [|f4 [|f5 [|f6 [|]]]]]]] eqn:Hsplit;
    simpl in *; try done; eauto 10.
Qed.

(** ** C4: the deviation rule *)

(** C4.  Let the validator hold the last price P for instrument X, and
    let a message be well formed (six fields, all field checks passed),
    denote a tick for X with price P', and pass rules 1, 2 and 4.  With
    [d = Math.abs(P' - P) / P], the quotient of the absolute difference
    by the last price: in strict mode the message is rejected if and
    only if [d] exceeds [maxPriceDeviation] (then with the price-change
    error alone and the state unchanged); in
    permissive mode it is accepted whatever [d] is, a warning is written
    exactly when [d] exceeds the threshold, and the last price of X
    becomes P'.  [loadConfiguration] sets the threshold to
    [parseFloat('0.1')] and the mode to permissive when the environment
    does not say otherwise. *)
Theorem price_deviation_rule (v : t) (now : Z) (rawMessage : list N)
    (tk : PriceTick) (lastPrice : number) :
  wellFormed v now rawMessage tk ->
  lastPrices v !! ric tk = Some lastPrice ->
  (rule1 tk []).2 = [] ->
  (rule2 tk []).2 = [] ->
  (rule4 v tk []).2 = [] ->
  let c := validateMessage v now rawMessage in
  let d := div (abs (sub (price tk) lastPrice)) lastPrice in
  let exceeds := gt d (maxPriceDeviation (validation (config v))) in
  (if strictMode (validation (config v)) then
     (isValid (result c) = false <-> exceeds = true)
     /\ (exceeds = true ->
           errors (result c) = [SuspiciousPriceChange d lastPrice (price tk)]
           /\ self c = v)
     /\ (exceeds = false ->
           tick (result c) = Some tk
           /\ lastPrices (self c) !! ric tk = Some (price tk))
   else
     isValid (result c) = true
     /\ tick (result c) = Some tk
     /\ errors (result c) = []
     /\ lastPrices (self c) !! ric tk = Some (price tk)
     /\ console c =
          if exceeds then [LargeDeviation (ric tk) d lastPrice (price tk)] else [])
  /\ validation (loadConfiguration (fun _ => None)) =
       {| strictMode := false;
          maxPriceDeviation := parseFloat (JS.lit "0.1");
          maxTimestampAge := Some 300000%Z |}.
Proof.
  intros Hwf Hlast H1 H2 H4. split; [|reflexivity].
  rewrite (validateMessage_wellFormed _ _ _ _ Hwf).
  rewrite validateBusinessRules_eq, H1, H2, H4. simpl.
  unfold rule3, deviation, bind, push, ret. rewrite Hlast.
  destruct (gt _ _) eqn:Hgt;
    destruct (strictMode _) eqn:Hmode; simpl;
    rewrite ?lookup_insert_eq; repeat split; try done.
Qed.

End WithNumber.
End MessageValidatorFacts.

(** ** The enrichment step *)
Module IngestorServiceFacts.
Import JSFacts MessageValidator MessageValidatorFacts IngestorService.
Section WithNumber.
Context {J : JSNumber}.

(** An accepted timestamp lies between 2020 and 2030. *)
Lemma validateTimestamp_range v now timestampStr ts errs errs' :
  validateTimestamp v now timestampStr errs = (Some ts, errs') ->
  (minTimestamp <= ts <= maxTimestamp)%Z.
Proof.
  unfold validateTimestamp, bind, push, ret.
  repeat case_match; intros [= <- <-]; try done.
  repeat match goal with
  | H : (_ || _) = false |- _ => apply orb_false_iff in H as [? ?]
  | H : (_ <? _)%Z = false |- _ => apply Z.ltb_ge in H
  end.
  lia.
Qed.

Lemma accepted_timestamp v now raw tk :
  tick (result (validateMessage v now raw)) = Some tk ->
  (minTimestamp <= timestamp tk <= maxTimestamp)%Z.
Proof.
  destruct (validateMessage_cases v now raw) as [(errs & Hne & ->)|[tk' Hwf]]; [done|].
  rewrite (validateMessage_wellFormed _ _ _ _ Hwf).
  destruct (validateBusinessRules v tk' []) as [w errs].
  destruct errs; simpl; [|done]. intros [= <-].
  destruct Hwf as (f1 & f2 & f3 & f4 & f5 & f6 & _ & _ & Hfields).
  apply validateFields_defined in Hfields as (r & p & ts & vol & b & a & Heq & _ & _ & Hts & _).
  injection Heq as _ _ -> _ _ _.
  by apply validateTimestamp_range in Hts.
Qed.

(** C8.  For every tick accepted by [validateMessage] (in any validator
    state, at any time), every service state and every raw message:
    [enrichTick] returns an enriched tick that carries the tick unchanged
    and whose [latencyMs] is present and is exactly [receivedAt] minus
    the tick's timestamp, whatever its sign; and [handleMessage] hands
    such an enriched tick to the publisher for every message its
    validator accepts. *)
Theorem enrichTick_latency (v : MessageValidator.t) (nowV : Z) (text : list N)
    (tk : PriceTick) :
  tick (result (validateMessage v nowV text)) = Some tk ->
  (forall s nowE rawMessage,
     let e := (enrichTick s nowE tk rawMessage).1 in
     base e = tk
     /\ latencyMs e = Some (receivedAt rawMessage - timestamp tk)%Z
     /\ validationPassed e = true)
  /\ (forall s nowE rawMessage,
        validator s = v -> data rawMessage = text ->
        exists e,
          (handleMessage s nowV nowE rawMessage).1 = Some e
          /\ base e = tk
          /\ latencyMs e = Some (receivedAt rawMessage - timestamp tk)%Z).
Proof.
  intros Htick.
  pose proof (accepted_timestamp _ _ _ _ Htick) as Hrange.
  assert ((timestamp tk =? 0)%Z = false) as Hnz.
  { apply Z.eqb_neq. unfold minTimestamp in Hrange. lia. }
  split.
  - intros s nowE rawMessage. simpl. by rewrite Hnz.
  - intros s nowE rawMessage <- <-.
    pose proof (validateMessage_result_wellformed (validator s) nowV (data rawMessage)) as [_ Hv].
    unfold handleMessage. rewrite Htick.
    destruct Hv as [_ ->]; [|by eauto].
    simpl. rewrite Hnz. eauto.
Qed.

(** ** Sequence identifiers *)

(** The identifier [enrichTick] builds from a clock reading and a counter
    value: [`${Date.now()}-${this.sequenceCounter}`]. *)
Definition idOf (now counter : Z) : list N :=
  JS.Z_toString now ++ JS.MINUS :: JS.Z_toString counter.

(** The counter an identifier ends with: the integer after its last [-]. *)
Definition counterOf (id : list N) : option Z :=
  match last (JS.split JS.MINUS id) with
  | Some s => JS.parseInt s
  | None => None
  end.

(** [ids] is strictly increasing under the order of strings. *)
Fixpoint increasing (ids : list (list N)) : bool :=
  match ids with
  | a :: (b :: _) as rest => JS.strlt a b && increasing rest
  | _ => true
  end.

(** The identifiers issued for the clock readings [clocks] by a service
    whose counter is [c]. *)
Fixpoint idsFrom (c : Z) (clocks : list Z) : list (list N) :=
  match clocks with
  | [] => []
  | now :: rest => idOf now (c + 1) :: idsFrom (c + 1) rest
  end.

Lemma counterOf_idOf now c : (0 <= c)%Z -> counterOf (idOf now c) = Some c.
Proof.
  intros Hc. unfold counterOf, idOf.
  rewrite split_app_sep, (split_nosep _ (JS.Z_toString c)), last_snoc.
  - apply JSFacts.parseInt_Z_toString.
  - destruct c as [|p|p]; [done| |lia].
    apply count_digits; [apply JSFacts.N_toString_digits|done].
Qed.

Lemma counterOf_idsFrom c clocks :
  (0 <= c)%Z ->
  counterOf <$> idsFrom c clocks =
    (fun i => Some (c + 1 + Z.of_nat i)%Z) <$> seq 0 (length clocks).
Proof.
  revert c. induction clocks as [|now clocks IH]; intros c Hc; [done|].
  cbn [idsFrom length seq fmap list_fmap].
  rewrite counterOf_idOf by lia. rewrite IH by lia.
  f_equal; [f_equal; lia|].
  rewrite <- (fmap_S_seq 0), <- list_fmap_compose.
  apply list_fmap_ext. intros _ i _. simpl. f_equal. lia.
Qed.

Lemma run_ids (s : t) inputs :
  exists clocks,
    sequenceId <$> (run s inputs).1 = idsFrom (sequenceCounter s) clocks
    /\ sequenceCounter (run s inputs).2 = (sequenceCounter s + Z.of_nat (length clocks))%Z.
Proof.
  revert s. induction inputs as [|[[nowV nowE] m] inputs IH]; intros s.
  { exists []. simpl. split; [done|lia]. }
  cbn [run].
  destruct (handleMessage s nowV nowE m) as [o s1] eqn:Hh.
  destruct (IH s1) as (clocks & Hids & Hc).
  destruct (run s1 inputs) as [os s2]. simpl in *.
  unfold handleMessage in Hh.
  destruct (isValid _); [destruct (tick _)|]; simplify_eq/=.
  - exists (nowE :: clocks). simpl. rewrite Hids, Hc. split; [done|lia].
  - exists clocks. done.
  - exists clocks. done.
Qed.

Lemma length_idsFrom c clocks : length (idsFrom c clocks) = length clocks.
Proof. revert c. induction clocks; intros; simpl; auto. Qed.

(** C2 (as amended).  For every sequence of messages handled in order by
    a service whose counter is not negative (it starts at [0]), whatever
    the clock readings and the connections: the sequence identifiers of
    the enriched ticks it publishes are pairwise distinct, the k-th of
    them ends with the counter value it was given, the counter of the
    service plus k, and so the counters they end with are strictly
    increasing in send order. *)
Theorem sequence_ids_distinct_counter_increasing (s : t)
    (inputs : list (Z * Z * RawMessage)) :
  (0 <= sequenceCounter s)%Z ->
  let ids := sequenceId <$> (run s inputs).1 in
  NoDup ids
  /\ counterOf <$> ids =
       (fun i => Some (sequenceCounter s + 1 + Z.of_nat i)%Z) <$> seq 0 (length ids)
  /\ (forall i j idi idj,
        (i < j)%nat -> ids !! i = Some idi -> ids !! j = Some idj ->
        exists a b, counterOf idi = Some a /\ counterOf idj = Some b /\ (a < b)%Z).
Proof.
  intros Hc ids.
  destruct (run_ids s inputs) as (clocks & Hids & _).
  fold ids in Hids.
  assert (counterOf <$> ids =
          (fun i => Some (sequenceCounter s + 1 + Z.of_nat i)%Z) <$> seq 0 (length ids)) as Hcnt.
  { rewrite Hids, length_idsFrom. by apply counterOf_idsFrom. }
  split; [|split; [done|]].
  - apply (NoDup_fmap_1 counterOf). rewrite Hcnt.
    apply NoDup_fmap_2; [|apply NoDup_seq].
    intros i j [=]. lia.
  - intros i j idi idj Hij Hi Hj.
    assert ((counterOf <$> ids) !! i = Some (counterOf idi)) as Hi'
      by (by rewrite list_lookup_fmap, Hi).
    assert ((counterOf <$> ids) !! j = Some (counterOf idj)) as Hj'
      by (by rewrite list_lookup_fmap, Hj).
    rewrite Hcnt, list_lookup_fmap in Hi', Hj'.
    apply lookup_lt_Some in Hi as Hil. apply lookup_lt_Some in Hj as Hjl.
    rewrite lookup_seq_lt in Hi', Hj' by done. simpl in Hi', Hj'.
    injection Hi' as <-. injection Hj' as <-.
    eexists _, _. split; [done|]. split; [done|]. lia.
Qed.

End WithNumber.
End IngestorServiceFacts.

(** ** The reconnecting sender *)
Module TcpSenderFacts.
Import TcpSender.
Section WithNumber.
Context {J : JSNumber}.

(** The record sent for a queued message. *)
Definition line (message : list N) : list N := message ++ [JS.LF].

(** Nothing in the sender touches the queue except [sendTick] and
    [flushMessageQueue]. *)
Lemma messageQueue_handleDisconnection s :
  messageQueue (handleDisconnection s) = messageQueue s.
Proof. unfold handleDisconnection. by repeat case_match. Qed.

Lemma socket_handleDisconnection s : socket (handleDisconnection s) = socket s.
Proof. unfold handleDisconnection. by repeat case_match. Qed.

Lemma isConnected_handleDisconnection s :
  isConnected (handleDisconnection s) = isConnected s.
Proof. unfold handleDisconnection. by repeat case_match. Qed.

Lemma socket_afterWrite e s : socket (afterWrite e s) = socket s.
Proof.
  destruct e; simpl; unfold onClose, onError;
    repeat case_match; by rewrite ?socket_handleDisconnection.
Qed.

Lemma messageQueue_afterWrite e s : messageQueue (afterWrite e s) = messageQueue s.
Proof.
  destruct e; simpl; unfold onClose, onError;
    repeat case_match; by rewrite ?messageQueue_handleDisconnection.
Qed.

Lemma isConnected_afterWrite e s :
  isConnected (afterWrite e s) = match e with Stays => isConnected s | _ => false end.
Proof.
  destruct e; simpl; unfold onClose, onError;
    repeat case_match; by rewrite ?isConnected_handleDisconnection.
Qed.

Lemma written_write text e s :
  written (write text e s) =
    match socket s with Some sock => sock ++ [text] | None => [] end.
Proof.
  unfold written, write. rewrite socket_afterWrite. simpl.
  by destruct (socket s).
Qed.

(** ** The drain loop *)

(** The number of queued messages the loop writes: it writes while the
    connection flag is up, and no more once a write has taken it down. *)
Fixpoint delivered (effects : list WriteEffect) (n : nat) {struct n} : nat :=
  match n with
  | O => O
  | S n' =>
      match effects with
      | Stays :: effects' => S (delivered effects' n')
      | [] => n
      | _ :: _ => 1%nat
      end
  end.

Lemma drain_down effects queue s :
  hasSocket s && isConnected s = false -> drain effects queue s = s.
Proof.
  intros H. induction queue as [|m queue IH]; [done|].
  cbn [drain]. by rewrite H.
Qed.

Lemma hasSocket_write text e s : hasSocket (write text e s) = hasSocket s.
Proof.
  unfold hasSocket, write. rewrite socket_afterWrite. simpl. by destruct (socket s).
Qed.

Lemma isConnected_write text e s :
  isConnected (write text e s) = match e with Stays => isConnected s | _ => false end.
Proof. unfold write. by rewrite isConnected_afterWrite. Qed.

Lemma messageQueue_write text e s : messageQueue (write text e s) = messageQueue s.
Proof. unfold write. by rewrite messageQueue_afterWrite. Qed.

Lemma delivered_nil n : delivered [] n = n.
Proof. by destruct n. Qed.

Lemma delivered_le effects n : (delivered effects n <= n)%nat.
Proof.
  revert effects. induction n as [|n IH]; intros effects; [simpl; lia|].
  cbn [delivered]. destruct effects as [|[] effects]; try lia.
  specialize (IH effects). lia.
Qed.

Lemma drain_spec effects queue s sock :
  socket s = Some sock -> isConnected s = true ->
  let s' := drain effects queue s in
  socket s' = Some (sock ++ (line <$> take (delivered effects (length queue)) queue))
  /\ messageQueue s' = messageQueue s.
Proof.
  revert effects s sock. induction queue as [|m queue IH]; intros effects s sock Hs Hc.
  { simpl. by rewrite app_nil_r. }
  cbn [drain length]. unfold hasSocket. rewrite Hs, Hc. cbn [andb].
  assert (forall e, socket (write (m ++ [JS.LF]) e s) = Some (sock ++ [line m])) as Hw.
  { intros e. unfold write. rewrite socket_afterWrite. simpl. by rewrite Hs. }
  destruct effects as [|e effects].
  - destruct (IH [] (write (m ++ [JS.LF]) Stays s) _ (Hw Stays)) as [H1 H2].
    { by rewrite isConnected_write. }
    rewrite H1, H2, messageQueue_write. split; [|done].
    rewrite !delivered_nil. cbn [take fmap list_fmap].
    by rewrite <- app_assoc.
  - destruct e.
    + destruct (IH effects (write (m ++ [JS.LF]) Stays s) _ (Hw Stays)) as [H1 H2].
      { by rewrite isConnected_write. }
      rewrite H1, H2, messageQueue_write. split; [|done].
      cbn [delivered take fmap list_fmap]. by rewrite <- app_assoc.
    + rewrite drain_down.
      2:{ rewrite isConnected_write. apply andb_false_r. }
      rewrite Hw, messageQueue_write. split; [|done].
      cbn [delivered take fmap list_fmap]. by rewrite take_0.
    + rewrite drain_down.
      2:{ rewrite isConnected_write. apply andb_false_r. }
      rewrite Hw, messageQueue_write. split; [|done].
      cbn [delivered take fmap list_fmap]. by rewrite take_0.
Qed.

(** ** Sending while disconnected *)

Lemma sendTick_disconnected e tk s :
  isConnected s = false ->
  let s' := sendTick e tk s in
  messageQueue s' = messageQueue s ++ [formatTick tk]
  /\ socket s' = socket s
  /\ isConnected s' = false
  /\ reconnectAttempts s' = reconnectAttempts s
  /\ reconnectTimer s' = reconnectTimer s
  /\ config s' = config s.
Proof. intros H. unfold sendTick. rewrite H. simpl. done. Qed.

Lemma sendAll_disconnected ticks s :
  isConnected s = false ->
  let s' := sendAll ticks s in
  messageQueue s' = messageQueue s ++ (formatTick <$> ticks)
  /\ socket s' = socket s
  /\ isConnected s' = false.
Proof.
  revert s. induction ticks as [|tk ticks IH]; intros s H.
  { simpl. by rewrite app_nil_r. }
  cbn [sendAll fold_left].
  destruct (sendTick_disconnected Stays tk s H) as (Hq & Hs & Hc & _).
  destruct (IH (sendTick Stays tk s) Hc) as (Hq' & Hs' & Hc').
  unfold sendAll in *. rewrite Hq', Hs', Hc', Hq, Hs.
  cbn [fmap list_fmap]. by rewrite <- app_assoc.
Qed.

Lemma delivered_stays effects n :
  Forall (fun e => e = Stays) effects -> delivered effects n = n.
Proof.
  intros H. revert n. induction H as [|e effects -> _ IH]; intros n.
  { apply delivered_nil. }
  destruct n; [done|]. cbn [delivered]. by rewrite IH.
Qed.

(** The number of messages a flush writes. *)
Definition flushed (effects : list WriteEffect) (s : t) : nat :=
  if hasSocket s && isConnected s
  then delivered effects (length (messageQueue s))
  else O.

Lemma flushMessageQueue_spec effects s :
  let s' := flushMessageQueue effects s in
  messageQueue s' = []
  /\ written s' = written s ++ (line <$> take (flushed effects s) (messageQueue s)).
Proof.
  unfold flushMessageQueue, flushed.
  destruct (messageQueue s) as [|m q] eqn:Hq.
  { simpl. rewrite Hq, take_nil. simpl. by rewrite app_nil_r. }
  cbn [length Nat.eqb]. cbn beta iota. split; [done|].
  unfold written at 1. cbn [socket].
  destruct (hasSocket s && isConnected s) eqn:Hup.
  - apply andb_true_iff in Hup as [Hs Hc]. unfold hasSocket in Hs.
    destruct (socket s) as [sock|] eqn:Hsock; [|done].
    destruct (drain_spec effects (m :: q) s sock Hsock Hc) as [-> _].
    unfold written. by rewrite Hsock.
  - rewrite drain_down by done. unfold written.
    rewrite take_0. simpl. by rewrite app_nil_r.
Qed.

Lemma drain_stays effects queue s :
  Forall (fun e => e = Stays) effects ->
  isConnected (drain effects queue s) = isConnected s.
Proof.
  revert effects s. induction queue as [|m queue IH]; intros effects s Heff; [done|].
  cbn [drain]. destruct (hasSocket s && isConnected s); [|by apply IH].
  destruct Heff as [|e effects -> Heff]; rewrite IH by done;
    by rewrite isConnected_write.
Qed.

(** The ['connect'] event on a socket that stays up while the queue is
    flushed. *)
Lemma onConnect_spec effects s sock :
  socket s = Some sock ->
  Forall (fun e => e = Stays) effects ->
  let s' := onConnect effects s in
  written s' = sock ++ (line <$> messageQueue s)
  /\ messageQueue s' = []
  /\ isConnected s' = true.
Proof.
  intros Hsock Hstays. unfold onConnect.
  match goal with |- context [flushMessageQueue effects ?x] => set (c := x) end.
  destruct (flushMessageQueue_spec effects c) as [H1 H2].
  split; [|split; [done|]].
  - rewrite H2. unfold flushed, c, written.
    cbn [socket isConnected messageQueue]. rewrite Hsock.
    unfold hasSocket. cbn [socket andb].
    rewrite delivered_stays by done. by rewrite firstn_all.
  - unfold flushMessageQueue. destruct (length (messageQueue c) =? 0)%nat; [done|].
    cbn [isConnected]. by rewrite drain_stays.
Qed.

(** ** What holds in every state a sender can be in *)

Lemma hasSocket_drain effects queue s :
  hasSocket (drain effects queue s) = hasSocket s.
Proof.
  revert effects s. induction queue as [|m queue IH]; intros effects s; [done|].
  cbn [drain]. destruct (hasSocket s && isConnected s); [|apply IH].
  destruct effects; rewrite IH; apply hasSocket_write.
Qed.

Lemma hasSocket_flushMessageQueue effects s :
  hasSocket (flushMessageQueue effects s) = hasSocket s.
Proof.
  unfold flushMessageQueue. destruct (_ =? _)%nat; [done|].
  unfold hasSocket at 1. cbn [socket]. apply hasSocket_drain.
Qed.

(** A connected sender has a socket, and what is queued is a list of
    encoded ticks. *)
Lemma reachable_invariant s :
  reachable s ->
  (isConnected s = true -> hasSocket s = true)
  /\ exists pending, messageQueue s = formatTick <$> pending.
Proof.
  induction 1 as [cfg|s ev Hr [IH1 [pending IH2]] Hen].
  { split; [done|]. by exists []. }
  destruct ev as [e tk| |effects| | |]; cbn [step enabled] in *.
  - unfold sendTick. destruct (isConnected s) eqn:Hc; cbn [andb].
    + pose proof (IH1 eq_refl) as Hs. rewrite Hs.
      destruct (validDate _).
      * split; [intros _; by rewrite hasSocket_write|].
        exists pending. by rewrite messageQueue_write.
      * split.
        -- intros _. unfold hasSocket.
           rewrite socket_handleDisconnection. unfold enqueue. cbn [socket].
           fold (hasSocket (write (formatTick tk ++ [JS.LF]) e s)).
           by rewrite hasSocket_write.
        -- exists (pending ++ [tk]).
           rewrite messageQueue_handleDisconnection. unfold enqueue.
           cbn [messageQueue]. by rewrite messageQueue_write, IH2, fmap_app.
    + cbv iota. unfold enqueue. split; [cbn; congruence|].
      exists (pending ++ [tk]).
      cbn [messageQueue]. by rewrite IH2, fmap_app.
  - split; [done|by exists pending].
  - destruct (flushMessageQueue_spec effects
                {| config := config s; socket := socket s; reconnectAttempts := 0;
                   isConnected := true; reconnectTimer := reconnectTimer s;
                   messageQueue := messageQueue s |}) as [Hq _].
    unfold onConnect. rewrite Hq. split; [|by exists []].
    intros _. by rewrite hasSocket_flushMessageQueue.
  - unfold onClose.
    rewrite isConnected_handleDisconnection, messageQueue_handleDisconnection.
    split; [done|]. by exists pending.
  - unfold onError. cbn [setConnected reconnectAttempts].
    destruct (_ =? _)%nat;
      rewrite ?isConnected_handleDisconnection, ?messageQueue_handleDisconnection;
      (split; [done|]; by exists pending).
  - split; [done|by exists pending].
Qed.

(** C7.  For every disconnected sender and every list of N ticks: while
    the sender is disconnected every [sendTick] appends the encoded tick
    to the queue, writes nothing and leaves the sender disconnected (the
    call cannot fail, whatever the tick: its date is not formatted in
    this branch); after the N calls the queue holds what it held,
    followed by the N encoded ticks in call order.  When the connection
    is then established and stays up during the flush, whether [connect]
    was called after the sends or before them, the socket receives
    exactly the queued records, in queue order, each once and none
    missing, and the queue is empty.  A sender whose queue was empty, as
    it is for a sender just built, writes exactly the N encoded ticks,
    in call order. *)
Theorem reconnect_queuing (s : t) (ticks : list TickGenerator.PriceTick)
    (effects : list WriteEffect) :
  isConnected s = false ->
  Forall (fun e => e = Stays) effects ->
  let queued := sendAll ticks s in
  (forall e tk s0,
     isConnected s0 = false ->
     messageQueue (sendTick e tk s0) = messageQueue s0 ++ [formatTick tk]
     /\ written (sendTick e tk s0) = written s0
     /\ isConnected (sendTick e tk s0) = false)
  /\ messageQueue queued = messageQueue s ++ (formatTick <$> ticks)
  /\ written queued = written s
  /\ isConnected queued = false
  /\ (let s' := onConnect effects (connect queued) in
      written s' = line <$> (messageQueue s ++ (formatTick <$> ticks))
      /\ messageQueue s' = []
      /\ isConnected s' = true)
  /\ (forall sock,
        socket s = Some sock ->
        let s' := onConnect effects queued in
        written s' = sock ++ (line <$> (messageQueue s ++ (formatTick <$> ticks)))
        /\ messageQueue s' = []
        /\ isConnected s' = true)
  /\ (messageQueue s = [] ->
      written (onConnect effects (connect queued)) = line <$> (formatTick <$> ticks)
      /\ length (written (onConnect effects (connect queued))) = length ticks).
Proof.
  intros Hdown Hstays queued.
  destruct (sendAll_disconnected ticks s Hdown) as (Hq & Hsock & Hc).
  fold queued in Hq, Hsock, Hc.
  destruct (onConnect_spec effects (connect queued) [] eq_refl Hstays) as (Hw & He & Hup).
  cbn [connect messageQueue app] in Hw. rewrite Hq in Hw.
  split.
  { intros e tk s0 H0.
    destruct (sendTick_disconnected e tk s0 H0) as (H1 & H2 & H3 & _).
    split; [done|]. split; [|done]. unfold written. by rewrite H2. }
  split; [done|]. split; [unfold written; by rewrite Hsock|]. split; [done|].
  split; [done|]. split.
  { intros sock Hs. rewrite <- Hsock in Hs.
    destruct (onConnect_spec effects queued sock Hs Hstays) as (H1 & H2 & H3).
    rewrite Hq in H1. done. }
  intros Hnil.
  rewrite Hw, Hnil. simpl. by rewrite !length_fmap.
Qed.

(** C10.  For every queue, empty or not, and whatever the writes do to
    the connection flag, one run of [flushMessageQueue] leaves the queue
    empty.  It writes the first [flushed effects s] queued messages, in
    order: all of them when the flag stays up, only those up to and
    including the write that took the flag down otherwise, none when the
    sender was not connected.  The remaining messages are neither written
    nor kept. *)
Theorem flush_discards_unsent (effects : list WriteEffect) (s : t) :
  let s' := flushMessageQueue effects s in
  messageQueue s' = []
  /\ written s' = written s ++ (line <$> take (flushed effects s) (messageQueue s))
  /\ (flushed effects s <= length (messageQueue s))%nat
  /\ (forall before e after,
        effects = before ++ e :: after ->
        Forall (fun x => x = Stays) before -> e <> Stays ->
        hasSocket s && isConnected s = true ->
        (length before < length (messageQueue s))%nat ->
        flushed effects s = S (length before)).
Proof.
  destruct (flushMessageQueue_spec effects s) as [H1 H2].
  split; [done|]. split; [done|]. split.
  - unfold flushed. destruct (_ && _); [apply delivered_le|lia].
  - intros before e after -> Hb He Hup Hlen.
    unfold flushed. rewrite Hup.
    revert Hlen. generalize (length (messageQueue s)). clear -Hb He.
    induction Hb as [|x before -> _ IH]; intros n Hn.
    + destruct n; [simpl in Hn; lia|]. cbn [app delivered length]. by destruct e.
    + destruct n; [simpl in Hn; lia|]. cbn [app delivered length].
      rewrite IH; [done|]. simpl in Hn. lia.
Qed.

End WithNumber.
End TcpSenderFacts.

(** ** The framer *)
Module TcpServerFacts.
Import TcpServer.

(** What the loop does with one complete line. *)
Definition emit (message : list N) (out : list (list N)) : list (list N) :=
  if JS.isEmpty (JS.trim message) then out else JS.trim message :: out.

(** The loop, read off the text one code unit at a time: [cur] is the
    line being assembled. *)
Fixpoint frames (cur : list N) (s : list N) : list (list N) * list N :=
  match s with
  | [] => ([], cur)
  | c :: t =>
      if c =? JS.LF then
        let '(out, final) := frames [] t in (emit cur out, final)
      else frames (cur ++ [c]) t
  end.

Definition noLF (s : list N) : Prop := JS.indexOf JS.LF s = None.

Lemma noLF_cons c s : noLF (c :: s) <-> c <> JS.LF /\ noLF s.
Proof.
  unfold noLF. cbn [JS.indexOf].
  destruct (N.eqb_spec c JS.LF) as [->|Hc].
  - split; [done|]. by intros [? _].
  - destruct (JS.indexOf JS.LF s); simpl; split; try done; by intros [_ ?].
Qed.

Lemma noLF_app a b : noLF (a ++ b) <-> noLF a /\ noLF b.
Proof.
  induction a as [|c a IH]; simpl.
  - split; [done|]. by intros [_ ?].
  - rewrite !noLF_cons, IH. tauto.
Qed.

Lemma frames_noLF cur m s : noLF m -> frames cur (m ++ s) = frames (cur ++ m) s.
Proof.
  revert cur. induction m as [|c m IH]; intros cur Hm.
  { by rewrite app_nil_r. }
  apply noLF_cons in Hm as [Hc Hm].
  cbn [app frames]. destruct (N.eqb_spec c JS.LF); [done|].
  rewrite IH by done. by rewrite <- app_assoc.
Qed.

Lemma frames_final_noLF cur s : noLF cur -> noLF (frames cur s).2.
Proof.
  revert cur. induction s as [|c s IH]; intros cur Hcur; [done|].
  cbn [frames]. destruct (N.eqb_spec c JS.LF) as [->|Hc].
  - specialize (IH [] eq_refl). by destruct (frames [] s).
  - apply IH. apply noLF_app. split; [done|]. by apply noLF_cons.
Qed.

(** [indexOf] splits the buffer at its first line feed. *)
Lemma indexOf_Some c s i :
  JS.indexOf c s = Some i ->
  s = take i s ++ c :: drop (S i) s /\ JS.indexOf c (take i s) = None /\ (i < length s)%nat.
Proof.
  revert i. induction s as [|x s IH]; intros i; [done|].
  cbn [JS.indexOf]. destruct (N.eqb_spec x c) as [->|Hx].
  - intros [= <-]. simpl. split; [done|]. split; [done|]. lia.
  - destruct (JS.indexOf c s) as [j|] eqn:Hj; [|done].
    intros [= <-]. destruct (IH j eq_refl) as (H1 & H2 & H3).
    cbn [take drop app length]. split; [by rewrite <- H1|].
    split; [|lia]. cbn [JS.indexOf]. destruct (N.eqb_spec x c); [done|]. by rewrite H2.
Qed.

(** With fuel for every code unit of the buffer, the loop of the source
    computes [frames]: it stops because no line feed is left, never
    because the fuel is spent. *)
Lemma extract_frames fuel buffer :
  (length buffer <= fuel)%nat -> extract fuel buffer = frames [] buffer.
Proof.
  revert buffer. induction fuel as [|fuel IH]; intros buffer Hlen.
  { destruct buffer; [done|]. simpl in Hlen. lia. }
  cbn [extract]. destruct (JS.indexOf JS.LF buffer) as [i|] eqn:Hi.
  - apply indexOf_Some in Hi as (Hsplit & Hno & Hlt).
    unfold JS.slice_to, JS.slice_from.
    rewrite IH by (rewrite length_drop; lia).
    revert Hsplit Hno.
    generalize (take i buffer) (drop (S i) buffer). intros m r -> Hno.
    rewrite frames_noLF by done.
    cbn [app frames]. rewrite N.eqb_refl.
    by destruct (frames [] r).
  - rewrite <- (app_nil_r buffer) at 2. rewrite frames_noLF by done. done.
Qed.

Lemma extract_fuel fuel buffer :
  (length buffer <= fuel)%nat -> extract fuel buffer = extract (length buffer) buffer.
Proof. intros H. by rewrite !extract_frames. Qed.

Lemma onText_frames buffer text : onText buffer text = frames [] (buffer ++ text).
Proof. unfold onText. by apply extract_frames. Qed.

(** Framing a text in two pieces. *)
Lemma frames_app cur a b :
  frames cur (a ++ b) =
    let '(out1, mid) := frames cur a in
    let '(out2, final) := frames mid b in
    (out1 ++ out2, final).
Proof.
  revert cur. induction a as [|c a IH]; intros cur.
  { simpl. by destruct (frames cur b). }
  cbn [app frames]. destruct (c =? JS.LF).
  - rewrite IH. destruct (frames [] a) as [o1 m]. destruct (frames m b) as [o2 f].
    unfold emit. by destruct (JS.isEmpty _).
  - apply IH.
Qed.

Lemma frames_cur cur s : noLF cur -> frames [] (cur ++ s) = frames cur s.
Proof. intros H. by rewrite frames_noLF. Qed.

(** Decoded text may be delivered in any number of pieces: the messages
    handed on and the buffer left are those of the whole text. *)
Lemma receiveText_concat buffer texts :
  noLF buffer ->
  receiveText buffer texts = onText buffer (concat texts).
Proof.
  revert buffer. induction texts as [|text texts IH]; intros buffer Hb.
  { simpl. rewrite onText_frames, app_nil_r.
    rewrite <- (app_nil_r buffer), frames_noLF by done. by rewrite app_nil_r. }
  cbn [receiveText concat].
  rewrite !onText_frames, app_assoc, (frames_app [] (buffer ++ text)).
  destruct (frames [] (buffer ++ text)) as [o1 mid] eqn:H1.
  rewrite IH.
  2:{ pose proof (frames_final_noLF [] (buffer ++ text) eq_refl) as H. by rewrite H1 in H. }
  rewrite onText_frames, frames_cur.
  2:{ pose proof (frames_final_noLF [] (buffer ++ text) eq_refl) as H. by rewrite H1 in H. }
  by destruct (frames mid (concat texts)).
Qed.

(** No message handed on is empty. *)
Lemma frames_nonempty cur s : Forall (fun m => m <> []) (frames cur s).1.
Proof.
  revert cur. induction s as [|c s IH]; intros cur; [constructor|].
  cbn [frames]. destruct (c =? JS.LF); [|apply IH].
  specialize (IH []). destruct (frames [] s) as [o f]. simpl in *.
  unfold emit. destruct (JS.trim cur) eqn:Ht; simpl; [done|].
  constructor; done.
Qed.

(** ** Bytes *)

Definition isAscii (bytes : list N) : Prop := Forall (fun b => b <= 127) bytes.

Lemma decode_ascii bytes : isAscii bytes -> Buffer.decode None bytes = bytes.
Proof.
  induction 1 as [|b bytes Hb _ IH]; [done|].
  cbn [Buffer.decode]. apply N.leb_le in Hb. by rewrite Hb, IH.
Qed.

Lemma toString_ascii bytes : isAscii bytes -> Buffer.toString bytes = bytes.
Proof.
  intros H. unfold Buffer.toString. rewrite decode_ascii by done.
  induction H as [|b bytes Hb _ IH]; [done|].
  cbn [List.map concat]. rewrite IH. unfold Buffer.units.
  assert ((b <? 65536) = true) as -> by (apply N.ltb_lt; lia). done.
Qed.

Lemma receive_ascii buffer chunks :
  Forall isAscii chunks -> receive buffer chunks = receiveText buffer chunks.
Proof.
  intros H. revert buffer. induction H as [|chunk chunks Hc _ IH]; intros buffer; [done|].
  cbn [receive receiveText]. unfold onData, onText.
  rewrite toString_ascii by done.
  destruct (extract _ _) as [o b]. by rewrite IH.
Qed.

(** An ASCII byte stream may be cut into chunks anywhere: the connection
    hands on the same messages, and keeps the same partial line, as when
    the stream arrives in one piece; and no message is empty. *)
Lemma framing_ascii_chunks (chunks : list (list N)) :
  Forall isAscii chunks ->
  receive [] chunks = receive [] [concat chunks]
  /\ Forall (fun m => m <> []) (receive [] chunks).1.
Proof.
  intros H.
  assert (isAscii (concat chunks)) as Hall.
  { unfold isAscii. induction H; simpl; [constructor|]. by apply Forall_app. }
  rewrite !receive_ascii by (done || by constructor).
  rewrite !receiveText_concat by done.
  cbn [concat]. rewrite app_nil_r. split; [done|].
  rewrite onText_frames. apply frames_nonempty.
Qed.

End TcpServerFacts.

(** ** The decimal instance *)
Module DecFacts.
Import Dec.

Definition startsWithDigit := JSFacts.startsWithDigit.

Lemma codeDigit_digitCode d : codeDigit (digitCode d) = Some d.
Proof. by destruct d as [|[]]. Qed.

Lemma isDigit_digitCode d : JS.isDigit (digitCode d) = true.
Proof. by destruct d as [|[]]. Qed.

Lemma codeDigit_nondigit c : JS.isDigit c = false -> codeDigit c = None.
Proof.
  intros Hc. unfold codeDigit.
  repeat match goal with
  | |- context [c =? ?k] =>
      destruct (N.eqb_spec c k) as [->|?]; [discriminate Hc|]
  end. done.
Qed.

Lemma spanDec_nondigit s : startsWithDigit s = false -> spanDec s = ([], s).
Proof.
  destruct s as [|c t]; [done|]. cbn. intros Hc.
  by rewrite codeDigit_nondigit.
Qed.

Lemma spanDec_digits ds r :
  startsWithDigit r = false ->
  spanDec (List.map digitCode ds ++ r) = (ds, r).
Proof.
  intros Hr. induction ds as [|d ds IH]; [simpl; by apply spanDec_nondigit|].
  cbn [List.map app spanDec]. by rewrite codeDigit_digitCode, IH.
Qed.

Lemma stripZeros_repeat m ds :
  stripZeros (repeat D0 m ++ ds) = ((m + (stripZeros ds).1)%nat, (stripZeros ds).2).
Proof.
  induction m as [|m IH]; [simpl; by destruct (stripZeros ds)|].
  cbn [repeat app stripZeros]. by rewrite IH.
Qed.

Lemma stripZeros_nz d ds : stripZeros (Dnz d :: ds) = (0%nat, Dnz d :: ds).
Proof. reflexivity. Qed.

(** The digits after the first. *)
Definition tail (s : significand) : list digit :=
  match rest s with
  | None => []
  | Some (mid, l) => mid ++ [Dnz l]
  end.

Lemma digits_eq s : digits s = Dnz (first s) :: tail s.
Proof. reflexivity. Qed.

Lemma rev_repeat {A} (x : A) m : rev (repeat x m) = repeat x m.
Proof.
  induction m as [|m IH]; [done|].
  cbn [repeat rev]. rewrite IH. clear.
  induction m as [|m IH]; [done|]. cbn [repeat app]. by rewrite IH.
Qed.

Lemma mkSignificand_zeros s m :
  mkSignificand (first s) (tail s ++ repeat D0 m) = s.
Proof.
  unfold mkSignificand. rewrite rev_app_distr, rev_repeat, stripZeros_repeat.
  destruct s as [hd [[mid l]|]]; unfold tail; cbn [rest first].
  - rewrite rev_app_distr. cbn [rev app stripZeros snd].
    by rewrite rev_involutive.
  - reflexivity.
Qed.

Lemma canon_digits neg s m n :
  canon neg (digits s ++ repeat D0 m) n = Fin neg s n.
Proof.
  unfold canon. rewrite digits_eq. cbn [app stripZeros].
  rewrite mkSignificand_zeros. f_equal. lia.
Qed.

Lemma canon_exact neg s n : canon neg (digits s) n = Fin neg s n.
Proof.
  rewrite <- (canon_digits neg s 0 n). cbn [repeat]. by rewrite app_nil_r.
Qed.

Lemma canon_leading neg s z n :
  canon neg (repeat D0 z ++ digits s) n = Fin neg s (n - Z.of_nat z).
Proof.
  unfold canon. rewrite stripZeros_repeat, digits_eq, stripZeros_nz.
  cbn [fst snd]. rewrite <- (app_nil_r (tail s)).
  change [] with (repeat D0 0). rewrite mkSignificand_zeros.
  f_equal. lia.
Qed.

(** ** Reading back what [toString] prints *)

Lemma startsWithDigit_digits ds r :
  ds <> [] -> startsWithDigit (List.map digitCode ds ++ r) = true.
Proof. destruct ds as [|d ds]; [done|]. intros _. apply isDigit_digitCode. Qed.

Lemma parseFloat_signed neg body :
  startsWithDigit body = true ->
  parseFloat (signCodes neg ++ body) = parseUnsigned neg body.
Proof.
  destruct body as [|c body]; [done|]. cbn [startsWithDigit JSFacts.startsWithDigit].
  intros Hc. unfold parseFloat.
  pose proof (JSFacts.isDigit_not_ws _ Hc) as Hws.
  assert ((c =? JS.MINUS) = false /\ (c =? JS.PLUS) = false) as [Hm Hp].
  { apply JSFacts.isDigit_cases in Hc.
    by repeat destruct Hc as [->|Hc]; [..|subst]. }
  destruct neg; cbn [signCodes app JS.trimStart].
  - change (JS.isWhiteSpace JS.MINUS) with false. cbn iota.
    unfold takeSign. by rewrite N.eqb_refl.
  - rewrite Hws. unfold takeSign. by rewrite Hm, Hp.
Qed.

Lemma not_infinity body :
  startsWithDigit body = true -> startsWith (JS.lit "Infinity") body = false.
Proof.
  destruct body as [|c body]; [done|]. cbn [startsWithDigit JSFacts.startsWithDigit].
  intros Hc. apply JSFacts.isDigit_cases in Hc.
  by repeat destruct Hc as [->|Hc]; [..|subst].
Qed.

Lemma parseExponent_print e :
  parseExponent (101 :: (if (e <? 0)%Z then JS.MINUS else JS.PLUS)
                     :: JS.N_toString (Z.abs_N e)) = e.
Proof.
  cbn [parseExponent]. change (101 =? 101) with true. cbn [orb].
  pose proof (JSFacts.N_toString_digits (Z.abs_N e)) as Hd.
  pose proof (JSFacts.N_toString_nonempty (Z.abs_N e)) as Hne.
  assert (takeSign ((if (e <? 0)%Z then JS.MINUS else JS.PLUS)
                      :: JS.N_toString (Z.abs_N e))
          = ((e <? 0)%Z, JS.N_toString (Z.abs_N e))) as ->.
  { by destruct (e <? 0)%Z. }
  unfold JS.N_toString.
  rewrite <- (app_nil_r (JS.uintCodes _)), JSFacts.spanDigits_uintCodes by done.
  rewrite DecimalN.Unsigned.of_to.
  pose proof (JSFacts.to_uint_nonnil (Z.abs_N e)).
  destruct (N.to_uint (Z.abs_N e)); try done;
    destruct (Z.ltb_spec e 0); lia.
Qed.

Lemma parseExponent_nil : parseExponent [] = 0%Z.
Proof. reflexivity. Qed.

Lemma map_repeat_zero m : repeat 48 m = List.map digitCode (repeat D0 m).
Proof. induction m as [|m IH]; [done|]. cbn [repeat List.map]. by rewrite IH. Qed.

(** [parseFloat] reads back every finite number from what [toString]
    prints for it, [-0] excepted. *)
Lemma parseFloat_toString x :
  isFinite x = true -> x <> Zero true -> parseFloat (toString x) = x.
Proof.
  destruct x as [|neg|neg|neg s n]; try done.
  { destruct neg; [done|]. reflexivity. }
  intros _ _. cbn [toString].
  set (ds := List.map digitCode (digits s)).
  assert (length ds = length (digits s)) as Hlen by apply length_map.
  assert (digits s <> []) as Hne by (by rewrite digits_eq).
  set (k := Z.of_nat (length ds)).
  destruct ((k <=? n)%Z && (n <=? 21)%Z) eqn:HA.
  { (* the digits, then zeros *)
    rewrite map_repeat_zero. unfold ds. rewrite <- map_app.
    rewrite parseFloat_signed.
    2:{ rewrite <- (app_nil_r (List.map _ _)). apply startsWithDigit_digits.
        by destruct (digits s). }
    unfold parseUnsigned. rewrite not_infinity.
    2:{ rewrite <- (app_nil_r (List.map _ _)). apply startsWithDigit_digits.
        by destruct (digits s). }
    rewrite <- (app_nil_r (List.map _ _)), spanDec_digits by done.
    rewrite parseExponent_nil, canon_digits.
    destruct (digits s ++ _) eqn:Hd; [by destruct (digits s)|]. rewrite <- Hd.
    f_equal. rewrite length_app, repeat_length.
    apply andb_true_iff in HA as [H1 H2]. apply Z.leb_le in H1. subst k. lia. }
  destruct ((0 <? n)%Z && (n <=? 21)%Z) eqn:HB.
  { (* a decimal point inside the digits *)
    apply andb_true_iff in HB as [H1 H2]. apply Z.ltb_lt in H1.
    assert (n < k)%Z as Hnk.
    { apply andb_false_iff in HA as [HA|HA]; [apply Z.leb_gt in HA; lia|congruence]. }
    unfold ds. rewrite firstn_map, skipn_map.
    assert (take (Z.to_nat n) (digits s) <> []) as Htake.
    { rewrite digits_eq. destruct (Z.to_nat n) eqn:Hz; [lia|done]. }
    rewrite parseFloat_signed by (by apply startsWithDigit_digits).
    unfold parseUnsigned. rewrite not_infinity by (by apply startsWithDigit_digits).
    rewrite spanDec_digits by done.
    change (JS.DOT =? JS.DOT) with true. cbn iota.
    rewrite <- (app_nil_r (List.map _ (drop _ _))), spanDec_digits by done.
    rewrite parseExponent_nil, take_drop.
    rewrite canon_exact.
    destruct (take _ _) eqn:Ht; [done|]. rewrite <- Ht.
    f_equal. rewrite length_take. subst k. lia. }
  destruct ((-6 <? n)%Z && (n <=? 0)%Z) eqn:HC.
  { (* 0. zeros digits *)
    apply andb_true_iff in HC as [H1 H2]. apply Z.leb_le in H2.
    rewrite map_repeat_zero. unfold ds. rewrite <- map_app.
    rewrite parseFloat_signed by done.
    unfold parseUnsigned. rewrite not_infinity by done.
    change (48 :: JS.DOT :: ?r) with (List.map digitCode [D0] ++ JS.DOT :: r).
    rewrite spanDec_digits by done.
    change (JS.DOT =? JS.DOT) with true. cbn iota.
    rewrite <- (app_nil_r (List.map _ _)), spanDec_digits by done.
    rewrite parseExponent_nil.
    change ([D0] ++ repeat D0 ?m ++ ?d) with (repeat D0 (S m) ++ d).
    rewrite canon_leading. f_equal. cbn [length]. lia. }
  (* exponent form *)
  assert (ds = digitCode (Dnz (first s)) :: List.map digitCode (tail s)) as Hds
    by (unfold ds; by rewrite digits_eq).
  rewrite Hds.
  set (ex := 101 :: _).
  assert (parseExponent ex = (n - 1)%Z) as Hex by apply parseExponent_print.
  assert (startsWithDigit ex = false) as Hexd by done.
  destruct (List.map digitCode (tail s)) as [|c cs] eqn:Htail.
  - (* one digit *)
    assert (tail s = []) as Ht by (by destruct (tail s)).
    rewrite parseFloat_signed by (by destruct (first s)).
    unfold parseUnsigned. rewrite not_infinity by (by destruct (first s)).
    change (?c :: ex) with (List.map digitCode [Dnz (first s)] ++ ex).
    rewrite spanDec_digits by done.
    subst ex. cbn iota. change (101 =? JS.DOT) with false. cbn iota.
    rewrite Hex.
    assert ([Dnz (first s)] = digits s) as -> by (by rewrite digits_eq, Ht).
    rewrite canon_exact. f_equal. rewrite digits_eq, Ht. simpl. lia.
  - rewrite <- Htail.
    rewrite parseFloat_signed by (by destruct (first s)).
    unfold parseUnsigned. rewrite not_infinity by (by destruct (first s)).
    change (?c :: JS.DOT :: ?r) with (List.map digitCode [Dnz (first s)] ++ JS.DOT :: r).
    rewrite spanDec_digits by done.
    change (JS.DOT =? JS.DOT) with true. cbn iota.
    rewrite spanDec_digits by done.
    rewrite Hex.
    change ([Dnz (first s)] ++ tail s) with (digits s).
    rewrite canon_exact. f_equal. simpl. lia.
Qed.

(** ** What [toString] prints *)

Lemma forallb_digits ds : forallb isNumberChar (List.map digitCode ds) = true.
Proof. induction ds as [|[|[]] ds IH]; simpl; auto. Qed.

Lemma forallb_zeros m : forallb isNumberChar (repeat 48 m) = true.
Proof. induction m; simpl; auto. Qed.

Lemma forallb_N_toString m : forallb isNumberChar (JS.N_toString m) = true.
Proof.
  pose proof (JSFacts.N_toString_digits m) as H.
  induction (JS.N_toString m) as [|c l IH]; [done|].
  cbn [forallb] in *. apply andb_true_iff in H as [Hc Hl].
  rewrite IH by done. unfold isNumberChar. by rewrite Hc.
Qed.

Lemma forallb_take_drop {A} (f : A -> bool) n l :
  forallb f l = true -> forallb f (take n l) = true /\ forallb f (drop n l) = true.
Proof.
  intros H. rewrite <- (take_drop n l), forallb_app in H.
  by apply andb_true_iff in H.
Qed.

Lemma toString_chars x :
  isFinite x = true -> forallb isNumberChar (toString x) = true.
Proof.
  destruct x as [|neg|neg|neg s n]; try done. intros _.
  cbn [toString]. rewrite forallb_app. apply andb_true_iff. split.
  { by destruct neg. }
  pose proof (forallb_digits (digits s)) as Hd.
  destruct (_ && _).
  { by rewrite forallb_app, Hd, forallb_zeros. }
  destruct (_ && _).
  { destruct (forallb_take_drop isNumberChar (Z.to_nat n) _ Hd) as [H1 H2].
    rewrite forallb_app. cbn [forallb]. by rewrite H1, H2. }
  destruct (_ && _).
  { cbn [forallb]. by rewrite forallb_app, Hd, forallb_zeros. }
  destruct (List.map digitCode (digits s)) as [|c [|c' l]]; cbn [forallb] in *.
  - by rewrite forallb_N_toString; destruct (_ <? _)%Z.
  - apply andb_true_iff in Hd as [-> _].
    by rewrite forallb_N_toString; destruct (_ <? _)%Z.
  - apply andb_true_iff in Hd as [-> Hd].
    rewrite forallb_app. cbn [forallb]. rewrite Hd.
    by rewrite forallb_N_toString; destruct (_ <? _)%Z.
Qed.

Lemma toString_nonempty x : toString x <> [].
Proof.
  destruct x as [|neg|neg|neg s n]; try done.
  - by destruct neg.
  - cbn [toString]. destruct neg; [done|]. cbn [signCodes app].
    rewrite digits_eq. cbn [List.map].
    destruct ((_ <=? n)%Z && (n <=? 21)%Z); [done|].
    destruct ((0 <? n)%Z && (n <=? 21)%Z) eqn:HB.
    { apply andb_true_iff in HB as [HB _]. apply Z.ltb_lt in HB.
      destruct (Z.to_nat n) eqn:Hz; [lia|done]. }
    destruct ((-6 <? n)%Z && (n <=? 0)%Z); [done|].
    destruct (List.map digitCode (tail s)); cbn iota; done.
Qed.

(** ** Integers print as their digits *)

Lemma digitCode_uintDigits u : List.map digitCode (uintDigits u) = JS.uintCodes u.
Proof. induction u; cbn [uintDigits JS.uintCodes List.map]; by rewrite ?IHu. Qed.

Lemma length_uintDigits u : length (uintDigits u) = Decimal.nb_digits u.
Proof. induction u; cbn [uintDigits length Decimal.nb_digits]; by rewrite ?IHu. Qed.

(** [stripZeros] cuts the leading zeros, and only those. *)
Lemma stripZeros_spec ds :
  ds = repeat D0 (stripZeros ds).1 ++ (stripZeros ds).2
  /\ match (stripZeros ds).2 with D0 :: _ => False | _ => True end.
Proof.
  induction ds as [|[|d] ds [IH1 IH2]]; [done| |done].
  cbn [stripZeros]. destruct (stripZeros ds) as [z r]. cbn [fst snd] in *.
  split; [|done]. cbn [repeat app]. by rewrite <- IH1.
Qed.

(** The digits of a significand are the digits it was made from,
    without their trailing zeros. *)
Lemma mkSignificand_digits hd tl :
  exists m, digits (mkSignificand hd tl) ++ repeat D0 m = Dnz hd :: tl.
Proof.
  unfold mkSignificand. destruct (stripZeros_spec (rev tl)) as [E H].
  destruct (stripZeros (rev tl)) as [z r]. cbn [fst snd] in *.
  exists z. apply (f_equal (@rev digit)) in E.
  rewrite rev_involutive, rev_app_distr, rev_repeat in E.
  cbn [snd]. destruct r as [|[|l] rmid]; [|done|].
  - cbn [rev app] in E. subst tl. reflexivity.
  - unfold digits. cbn [first rest]. rewrite E. cbn [rev app].
    by rewrite <- app_assoc.
Qed.

(** A numeral of [k + 1] digits whose first digit is not zero denotes a
    number of at least [10^k]. *)
Lemma of_uint_acc_ge u acc :
  (Z.pos acc * 10 ^ Z.of_nat (Decimal.nb_digits u) <= Z.pos (Pos.of_uint_acc u acc))%Z.
Proof.
  revert acc. induction u; intros acc;
    cbn [Pos.of_uint_acc Decimal.nb_digits]; [cbn; lia|..];
    rewrite Nat2Z.inj_succ, Z.pow_succ_r by lia;
    match goal with
    | |- (_ <= Z.pos (Pos.of_uint_acc _ ?a))%Z => pose proof (IHu a) as IH
    end;
    assert (0 <= 10 ^ Z.of_nat (Decimal.nb_digits u))%Z as Hpow
      by (apply Z.pow_nonneg; lia);
    revert IH Hpow; generalize (10 ^ Z.of_nat (Decimal.nb_digits u))%Z;
    generalize (Pos.of_uint_acc u); intros f x IH Hpow;
    (etransitivity; [|exact IH]); nia.
Qed.

Lemma nb_digits_pos p :
  (10 ^ Z.of_nat (Decimal.nb_digits (Pos.to_uint p) - 1) <= Z.pos p)%Z.
Proof.
  pose proof (DecimalPos.Unsigned.of_to p) as E.
  pose proof (DecimalPos.Unsigned.to_of (Pos.to_uint p)) as N.
  rewrite E in N. cbn [N.to_uint] in N.
  revert E N. generalize (Pos.to_uint p). intros d E N.
  destruct d as [|u|u|u|u|u|u|u|u|u|u];
    cbn [Pos.of_uint Decimal.nb_digits] in *;
    rewrite ?Nat.sub_succ, ?Nat.sub_0_r;
    try (injection E as E; rewrite <- E;
         etransitivity; [|apply of_uint_acc_ge]; lia).
  - done.
  - exfalso. rewrite DecimalFacts.unorm_D0 in N.
    pose proof (DecimalFacts.nb_digits_unorm u) as L.
    destruct u; [done|..]; specialize (L ltac:(done)); rewrite <- N in L;
      cbn [Decimal.nb_digits] in L; lia.
Qed.

Lemma pos_uint_head p :
  exists hd tl, uintDigits (Pos.to_uint p) = Dnz hd :: tl.
Proof.
  pose proof (DecimalPos.Unsigned.of_to p) as E.
  pose proof (DecimalPos.Unsigned.to_of (Pos.to_uint p)) as N.
  rewrite E in N. cbn [N.to_uint] in N.
  revert E N. generalize (Pos.to_uint p). intros d E N.
  destruct d as [|u|u|u|u|u|u|u|u|u|u];
    cbn [uintDigits]; eauto.
  - done.
  - exfalso. rewrite DecimalFacts.unorm_D0 in N.
    pose proof (DecimalFacts.nb_digits_unorm u) as L.
    destruct u; [done|..]; specialize (L ltac:(done)); rewrite <- N in L;
      cbn [Decimal.nb_digits] in L; lia.
Qed.

Lemma toString_pos neg p :
  (Z.pos p <= 9007199254740992)%Z ->
  toString (canon neg (uintDigits (Pos.to_uint p))
                  (Z.of_nat (length (uintDigits (Pos.to_uint p))) + 0)) =
    signCodes neg ++ JS.N_toString (N.pos p).
Proof.
  intros Hp. destruct (pos_uint_head p) as (hd & tl & E).
  pose proof (nb_digits_pos p) as Hd. rewrite <- length_uintDigits in Hd.
  unfold JS.N_toString. cbn [N.to_uint]. rewrite <- digitCode_uintDigits.
  rewrite E in *. unfold canon. cbn [stripZeros].
  destruct (mkSignificand_digits hd tl) as [m Hm].
  cbn [toString]. f_equal.
  assert (length (digits (mkSignificand hd tl)) + m = length (Dnz hd :: tl))%nat as Hlen
    by (by rewrite <- Hm, length_app, repeat_length).
  assert (length (Dnz hd :: tl) <= 16)%nat as H16.
  { destruct (le_lt_dec (length (Dnz hd :: tl)) 16) as [|Hgt]; [done|exfalso].
    assert (10 ^ 16 <= 10 ^ Z.of_nat (length (Dnz hd :: tl) - 1))%Z
      by (apply Z.pow_le_mono_r; lia).
    lia. }
  rewrite length_map.
  assert ((Z.of_nat (length (digits (mkSignificand hd tl)))
             <=? Z.of_nat (length (Dnz hd :: tl)) + 0 - Z.of_nat 0)%Z = true) as ->
    by (apply Z.leb_le; lia).
  assert ((Z.of_nat (length (Dnz hd :: tl)) + 0 - Z.of_nat 0 <=? 21)%Z = true) as ->
    by (apply Z.leb_le; lia).
  cbn [andb].
  transitivity (List.map digitCode (digits (mkSignificand hd tl) ++ repeat D0 m));
    [|by rewrite Hm].
  rewrite map_app, <- map_repeat_zero. f_equal. f_equal. lia.
Qed.

Lemma toString_ofZ z :
  (Z.abs z <= 9007199254740992)%Z -> toString (ofZ z) = JS.Z_toString z.
Proof.
  intros Hz. unfold ofZ, ofScaled. destruct z as [|p|p].
  - reflexivity.
  - cbn [Z.abs_N Z.abs N.to_uint Z.ltb Z.compare JS.Z_toString] in *.
    by rewrite toString_pos.
  - cbn [Z.abs_N Z.abs N.to_uint Z.ltb Z.compare JS.Z_toString] in *.
    by rewrite toString_pos.
Qed.

End DecFacts.

(** [Dec] satisfies what is asked of a JavaScript number. *)
#[global] Instance DecSpec : JSNumberSpec DecNumber.
Proof.
  split.
  - exact DecFacts.toString_nonempty.
  - exact DecFacts.toString_chars.
  - exact DecFacts.parseFloat_toString.
  - exact DecFacts.toString_ofZ.
Qed.

(** ** The wire codec *)
Module CodecFacts.
Import JS JSFacts WireFacts MessageValidator MessageValidatorFacts TcpSender.
Section WithNumber.
Context {J : JSNumber} {JSpec : JSNumberSpec J}.

(** A number that the wire format carries faithfully: finite, and not
    [-0] (which prints as [0]). *)
Definition wireNumber (x : number) : Prop :=
  isFinite x = true /\ x <> negZero.

(** The shape [validateRic] accepts, for a string without surrounding
    white space. *)
Definition ricShape (r : list N) : Prop :=
  ricRegexTest r = true /\ (2 <= length r <= 20)%nat.

(** The checks of [validatePrice], [validateTimestamp] and
    [validateOptionalNumber], stated on the values themselves. *)
Definition priceInRange (p : number) : Prop :=
  isNaN p = false /\ le p (ofZ 0) = false /\ gt p (ofZ 1000000) = false.

Definition timestampInWindow (v : MessageValidator.t) (now ts : Z) : Prop :=
  (minTimestamp <= ts <= maxTimestamp)%Z
  /\ olderThan (now - ts) (maxTimestampAge (validation (MessageValidator.config v))) = false
  /\ (ts <= now + 60000)%Z.

Definition optionalInRange (ceiling : Z) (x : option number) : Prop :=
  match x with
  | None => True
  | Some n =>
      wireNumber n /\ isNaN n = false /\ lt n (ofZ 0) = false
      /\ gt n (ofZ ceiling) = false
  end.

(** The tick [validateMessage] builds from the line of a tick [tk] of
    the generator whose timestamp is the integer [ts]. *)
Definition normalized (tk : TickGenerator.PriceTick) (ts : Z) : PriceTick :=
  {| ric := toUpperCase (TickGenerator.ric tk);
     price := TickGenerator.price tk;
     timestamp := ts;
     volume := TickGenerator.volume tk;
     bid := TickGenerator.bid tk;
     ask := TickGenerator.ask tk |}.

Lemma toString_field (x : number) :
  isFinite x = true ->
  noWS (toString x) = true /\ noPipe (toString x) = true /\ isEmpty (toString x) = false.
Proof.
  intros Hx. pose proof (toString_chars x Hx) as Hc.
  pose proof (toString_nonempty x) as Hne.
  split; [|split].
  - revert Hc. apply forallb_impl. intros c Hcc.
    by destruct (numberChar_field c Hcc) as [-> _].
  - revert Hc. apply forallb_impl. intros c Hcc.
    by destruct (numberChar_field c Hcc) as [_ ->].
  - by destruct (toString x).
Qed.

Lemma blank_field s : noWS s = true -> isEmpty s = false -> blank s = false.
Proof.
  intros H1 H2. unfold blank. by rewrite trim_noWS, H2.
Qed.

Lemma validatePrice_toString (p : number) errs :
  wireNumber p -> priceInRange p ->
  validatePrice (toString p) "price" errs = (Some p, errs).
Proof.
  intros [Hf Hz] (H1 & H2 & H3).
  destruct (toString_field p Hf) as (Hws & _ & Hne).
  unfold validatePrice. rewrite blank_field by done.
  rewrite trim_noWS by done. rewrite parseFloat_toString by done.
  by rewrite H1, H2, H3.
Qed.

Lemma optionalToString_field (x : option number) ceiling :
  optionalInRange ceiling x ->
  noWS (optionalToString x) = true /\ noPipe (optionalToString x) = true.
Proof.
  destruct x as [n|]; [|done]. intros ([Hf _] & _).
  destruct (toString_field n Hf) as (H1 & H2 & H3).
  unfold optionalToString. by rewrite H3.
Qed.

Lemma validateOptionalNumber_toString (x : option number) fieldName ceiling errs :
  optionalInRange ceiling x ->
  (fieldName = "volume"%string /\ ceiling = 1000000000%Z
   \/ (fieldName = "bid"%string \/ fieldName = "ask"%string) /\ ceiling = 1000000%Z) ->
  validateOptionalNumber (optionalToString x) fieldName errs = (x, errs).
Proof.
  destruct x as [n|]; [|done].
  intros ([Hf Hz] & H1 & H2 & H3) Hname.
  destruct (toString_field n Hf) as (Hws & _ & Hne).
  unfold validateOptionalNumber, optionalToString. rewrite Hne.
  rewrite blank_field by done.
  rewrite trim_noWS by done. rewrite parseFloat_toString by done.
  rewrite H1, H2.
  destruct Hname as [[-> ->]|[[->| ->] ->]]; cbn [String.eqb Ascii.eqb Bool.eqb andb orb];
    by rewrite H3.
Qed.

Lemma Z_toString_field z :
  noWS (Z_toString z) = true /\ noPipe (Z_toString z) = true /\ isEmpty (Z_toString z) = false.
Proof.
  assert (forall n, noWS (N_toString n) = true /\ noPipe (N_toString n) = true
                    /\ isEmpty (N_toString n) = false) as HN.
  { intros n. pose proof (N_toString_digits n) as Hd.
    pose proof (N_toString_nonempty n) as Hne.
    split; [|split].
    - revert Hd. apply forallb_impl. intros c Hc.
      apply isDigit_not_ws in Hc. by rewrite Hc.
    - revert Hd. apply forallb_impl. intros c Hc.
      apply isDigit_cases in Hc. by repeat destruct Hc as [->|Hc]; [..|subst].
    - by destruct (N_toString n). }
  destruct z as [|p|p]; [done|apply HN|].
  destruct (HN (Npos p)) as (H1 & H2 & H3).
  cbn [Z_toString noWS noPipe forallb isEmpty]. fold (noWS (N_toString (Npos p))).
  fold (noPipe (N_toString (Npos p))). by rewrite H1, H2.
Qed.

Lemma validateTimestamp_toString v now ts errs :
  timestampInWindow v now ts ->
  validateTimestamp v now (Z_toString ts) errs = (Some ts, errs).
Proof.
  intros ([H1 H2] & H3 & H4).
  destruct (Z_toString_field ts) as (Hws & _ & Hne).
  unfold validateTimestamp. rewrite blank_field by done.
  rewrite trim_noWS by done. rewrite parseInt_Z_toString.
  assert ((ts <? minTimestamp)%Z = false) as -> by (apply Z.ltb_ge; lia).
  assert ((maxTimestamp <? ts)%Z = false) as -> by (apply Z.ltb_ge; lia).
  cbn [orb]. rewrite H3.
  assert ((now + 60000 <? ts)%Z = false) as -> by (apply Z.ltb_ge; lia).
  done.
Qed.

Lemma ricShape_field r :
  ricShape r -> noWS r = true /\ noPipe r = true /\ isEmpty r = false.
Proof.
  intros [Hre _]. unfold ricRegexTest in Hre.
  apply andb_true_iff in Hre as [Hne Hc]. apply negb_true_iff in Hne.
  split; [|split; [|done]].
  - revert Hc. apply forallb_impl. intros c Hcc.
    by destruct (ricChar_field c Hcc) as [-> _].
  - revert Hc. apply forallb_impl. intros c Hcc.
    by destruct (ricChar_field c Hcc) as [_ ->].
Qed.

Lemma validateRic_shape r errs :
  ricShape r -> validateRic r errs = (Some (toUpperCase r), errs).
Proof.
  intros Hr. destruct (ricShape_field r Hr) as (Hws & _ & Hne).
  destruct Hr as [Hre [Hlo Hhi]].
  unfold validateRic. rewrite blank_field by done.
  rewrite trim_noWS by done.
  assert ((length r <? 2)%nat = false) as -> by (apply Nat.ltb_ge; lia).
  assert ((20 <? length r)%nat = false) as -> by (apply Nat.ltb_ge; lia).
  by rewrite Hre.
Qed.

(** The line of a tick that passes the field checks is well formed and
    denotes the tick, with its instrument in upper case. *)
Lemma formatTick_wellFormed (v : MessageValidator.t) (now : Z)
    (tk : TickGenerator.PriceTick) (ts : Z) :
  ricShape (TickGenerator.ric tk) ->
  wireNumber (TickGenerator.price tk) -> priceInRange (TickGenerator.price tk) ->
  TickGenerator.timestamp tk = ofZ ts ->
  timestampInWindow v now ts ->
  optionalInRange 1000000000 (TickGenerator.volume tk) ->
  optionalInRange 1000000 (TickGenerator.bid tk) ->
  optionalInRange 1000000 (TickGenerator.ask tk) ->
  wellFormed v now (formatTick tk) (normalized tk ts).
Proof.
  intros Hric Hwp Hp Hint Hts Hvol Hbid Hask.
  assert (toString (TickGenerator.timestamp tk) = Z_toString ts) as Hprint.
  { rewrite Hint. apply toString_ofZ.
    destruct Hts as ([H1 H2] & _). unfold minTimestamp, maxTimestamp in *. lia. }
  destruct (ricShape_field _ Hric) as (R1 & R2 & R3).
  destruct (toString_field _ (proj1 Hwp)) as (P1 & P2 & P3).
  destruct (Z_toString_field ts) as (T1 & T2 & T3).
  destruct (optionalToString_field _ _ Hvol) as (V1 & V2).
  destruct (optionalToString_field _ _ Hbid) as (B1 & B2).
  destruct (optionalToString_field _ _ Hask) as (A1 & A2).
  exists (TickGenerator.ric tk), (toString (TickGenerator.price tk)), (Z_toString ts),
    (optionalToString (TickGenerator.volume tk)),
    (optionalToString (TickGenerator.bid tk)),
    (optionalToString (TickGenerator.ask tk)).
  assert (noWS (formatTick tk) = true) as Hws.
  { apply noWS_join. cbn [forallb]. by rewrite Hprint, R1, P1, T1, V1, B1, A1. }
  rewrite removeNewlines_noWS, trim_noWS by (by rewrite ?removeNewlines_noWS).
  split; [|split].
  - unfold formatTick. rewrite Hprint. cbn [join]. by destruct (TickGenerator.ric tk).
  - unfold formatTick. rewrite Hprint.
    apply split_join; [done|]. cbn [forallb]. by rewrite R2, P2, T2, V2, B2, A2.
  - unfold validateFields, bind, ret.
    rewrite validateRic_shape by done.
    rewrite validatePrice_toString by done.
    rewrite validateTimestamp_toString by done.
    rewrite (validateOptionalNumber_toString _ _ 1000000000) by (done || auto).
    rewrite (validateOptionalNumber_toString _ _ 1000000) by (done || auto).
    rewrite (validateOptionalNumber_toString _ _ 1000000) by (done || auto).
    done.
Qed.

(** C1 (as amended).  Let a tick of the generator have an instrument
    code of the accepted shape, finite numeric fields other than [-0], a
    timestamp that is an integer number of milliseconds, and a price, a
    timestamp and optional fields that pass the range checks of the
    validator at the time of the call, and let the decoded tick (the
    tick with its instrument in upper case) raise no error in the
    business rules for the validator's state and mode.  Then
    [validateMessage] applied to [formatTick]'s line returns a valid
    result with no error whose tick has the instrument in upper case and
    the same price, timestamp, volume, bid and ask: every optional field
    is present exactly when it was, with the same value.  (A timestamp
    with a fraction is cut to its integer part by [parseInt].) *)
Theorem codec_round_trip (v : MessageValidator.t) (now : Z)
    (tk : TickGenerator.PriceTick) (ts : Z) :
  ricShape (TickGenerator.ric tk) ->
  wireNumber (TickGenerator.price tk) -> priceInRange (TickGenerator.price tk) ->
  TickGenerator.timestamp tk = ofZ ts ->
  timestampInWindow v now ts ->
  optionalInRange 1000000000 (TickGenerator.volume tk) ->
  optionalInRange 1000000 (TickGenerator.bid tk) ->
  optionalInRange 1000000 (TickGenerator.ask tk) ->
  (validateBusinessRules v (normalized tk ts) []).2 = [] ->
  let c := validateMessage v now (formatTick tk) in
  result c = {| isValid := true; tick := Some (normalized tk ts); errors := [] |}
  /\ (exists tk', tick (result c) = Some tk'
        /\ ric tk' = toUpperCase (TickGenerator.ric tk)
        /\ price tk' = TickGenerator.price tk
        /\ ofZ (timestamp tk') = TickGenerator.timestamp tk
        /\ volume tk' = TickGenerator.volume tk
        /\ bid tk' = TickGenerator.bid tk
        /\ ask tk' = TickGenerator.ask tk).
Proof.
  intros Hric Hwp Hp Hint Hts Hvol Hbid Hask Hrules c. subst c.
  rewrite (validateMessage_wellFormed v now _ (normalized tk ts))
    by (by apply formatTick_wellFormed).
  destruct (validateBusinessRules v (normalized tk ts) []) as [w errs].
  simpl in Hrules. subst errs. cbn.
  split; [done|]. exists (normalized tk ts). by rewrite Hint.
Qed.

End WithNumber.
End CodecFacts.

Module ValidatorGuarantees.
Import JS JSFacts WireFacts MessageValidator MessageValidatorFacts CodecFacts.
Section WithNumber.
Context {J : JSNumber}.

(** The characters of a normalised instrument code. *)
Definition isUpperRicChar (c : N) : bool :=
  isUpper c || isDigit c || (c =? DOT) || (c =? EQUALS).

Lemma upperChar_ric c : isRicChar c = true -> isUpperRicChar (upperChar c) = true.
Proof.
  unfold isRicChar, isUpperRicChar, upperChar, isUpper, isLower, isDigit, DOT, EQUALS.
  intros H. destruct ((97 <=? c) && (c <=? 122)) eqn:Hl.
  - arith. assert ((65 <=? c - 32) && (c - 32 <=? 90) = true) as ->; [|done].
    apply andb_true_iff. split; apply N.leb_le; lia.
  - by rewrite orb_false_r in H.
Qed.

Lemma upperRicChar_fix c :
  isUpperRicChar c = true -> isRicChar c = true /\ upperChar c = c.
Proof.
  unfold isRicChar, isUpperRicChar, upperChar, isUpper, isLower, isDigit, DOT, EQUALS.
  intros H. split.
  - repeat (apply orb_true_iff in H as [H|H]); rewrite H; by rewrite ?orb_true_r.
  - assert ((97 <=? c) && (c <=? 122) = false) as ->; [|done].
    repeat (apply orb_true_iff in H as [H|H]); arith;
      apply andb_false_iff; rewrite !N.leb_gt; lia.
Qed.

Lemma toUpperCase_ric s :
  forallb isRicChar s = true -> forallb isUpperRicChar (toUpperCase s) = true.
Proof.
  induction s as [|c s IH]; [done|]. cbn [forallb toUpperCase List.map].
  intros H. apply andb_true_iff in H as [Hc Hs].
  rewrite upperChar_ric by done. by apply IH.
Qed.

Lemma toUpperCase_fix s :
  forallb isUpperRicChar s = true ->
  forallb isRicChar s = true /\ toUpperCase s = s.
Proof.
  induction s as [|c s IH]; [done|]. cbn [forallb toUpperCase List.map].
  intros H. apply andb_true_iff in H as [Hc Hs].
  destruct (upperRicChar_fix c Hc) as [-> ->].
  destruct (IH Hs) as [-> Hfix]. unfold toUpperCase in Hfix. by rewrite Hfix.
Qed.

(** The instrument code [validateRic] returns is in normal form: 2 to 20
    characters among [A-Z], [0-9], [.] and [=]. *)
Lemma validateRic_normal ricStr errs r errs' :
  validateRic ricStr errs = (Some r, errs') ->
  forallb isUpperRicChar r = true /\ (2 <= length r <= 20)%nat.
Proof.
  unfold validateRic, bind, push, ret.
  repeat case_match; intros [= <- <-].
  match goal with H : negb (ricRegexTest _) = false |- _ =>
    apply negb_false_iff in H; unfold ricRegexTest in H;
    apply andb_true_iff in H as [_ Hc] end.
  split; [by apply toUpperCase_ric|].
  unfold toUpperCase. rewrite length_map.
  repeat match goal with H : (_ <? _)%nat = false |- _ => apply Nat.ltb_ge in H end.
  lia.
Qed.

Lemma normal_ricShape r :
  forallb isUpperRicChar r = true -> (2 <= length r <= 20)%nat ->
  ricShape r /\ toUpperCase r = r.
Proof.
  intros Hc Hlen. destruct (toUpperCase_fix r Hc) as [Hr Hfix].
  split; [|done]. split; [|done].
  unfold ricRegexTest. rewrite Hr. destruct r; [simpl in Hlen; lia|done].
Qed.

Lemma validatePrice_range priceStr fieldName errs p errs' :
  validatePrice priceStr fieldName errs = (Some p, errs') ->
  priceInRange p.
Proof.
  unfold validatePrice, bind, push, ret.
  repeat case_match; intros [= <- <-]. done.
Qed.

Lemma validateTimestamp_window v now timestampStr errs ts errs' :
  validateTimestamp v now timestampStr errs = (Some ts, errs') ->
  timestampInWindow v now ts.
Proof.
  unfold validateTimestamp, bind, push, ret.
  repeat case_match; intros [= <- <-]; try done.
  repeat match goal with
  | H : (_ || _) = false |- _ => apply orb_false_iff in H as [? ?]
  | H : (_ <? _)%Z = false |- _ => apply Z.ltb_ge in H
  end.
  done.
Qed.

(** What [validateOptionalNumber] has checked of a value it returns. *)
Definition optionalChecked (ceiling : Z) (x : option number) : Prop :=
  match x with
  | None => True
  | Some n => isNaN n = false /\ lt n (ofZ 0) = false /\ gt n (ofZ ceiling) = false
  end.

Lemma validateOptionalNumber_volume valueStr errs x errs' :
  validateOptionalNumber valueStr "volume" errs = (x, errs') ->
  optionalChecked 1000000000 x.
Proof.
  unfold validateOptionalNumber, bind, push, ret.
  cbn [String.eqb Ascii.eqb Bool.eqb andb orb].
  repeat case_match; intros [= <- <-]; done.
Qed.

Lemma validateOptionalNumber_quote valueStr fieldName errs x errs' :
  fieldName = "bid"%string \/ fieldName = "ask"%string ->
  validateOptionalNumber valueStr fieldName errs = (x, errs') ->
  optionalChecked 1000000 x.
Proof.
  unfold validateOptionalNumber, bind, push, ret.
  intros [-> | ->]; cbn [String.eqb Ascii.eqb Bool.eqb andb orb];
    repeat case_match; intros [= <- <-]; done.
Qed.

(** Every tick [validateMessage] accepts has passed every check of the
    source: its instrument code is in normal form (and is accepted
    unchanged when validated again), its price, timestamp and optional
    fields are inside the ranges of the field validations, the price lies
    inside the spread when bid and ask are both present, and in strict
    mode the volume is not zero and the price has not moved from the last
    accepted price of the instrument by more than the threshold. *)
Theorem accepted_tick_checked (v : t) (now : Z) (rawMessage : list N) (tk : PriceTick) :
  tick (result (validateMessage v now rawMessage)) = Some tk ->
  (forallb isUpperRicChar (ric tk) = true
   /\ (2 <= length (ric tk) <= 20)%nat
   /\ validateRic (ric tk) [] = (Some (ric tk), []))
  /\ priceInRange (price tk)
  /\ timestampInWindow v now (timestamp tk)
  /\ optionalChecked 1000000000 (volume tk)
  /\ optionalChecked 1000000 (bid tk)
  /\ optionalChecked 1000000 (ask tk)
  /\ (forall b a,
        bid tk = Some b -> ask tk = Some a ->
        gt b a = false /\ lt (price tk) b = false /\ gt (price tk) a = false)
  /\ (strictMode (validation (config v)) = true ->
      (forall vol, volume tk = Some vol -> strictEq vol (ofZ 0) = false)
      /\ (forall lastPrice,
            lastPrices v !! ric tk = Some lastPrice ->
            gt (deviation (price tk) lastPrice)
               (maxPriceDeviation (validation (config v))) = false)).
Proof.
  destruct (validateMessage_cases v now rawMessage) as [(errs & Hne & ->)|[tk' Hwf]]; [done|].
  rewrite (validateMessage_wellFormed _ _ _ _ Hwf).
  rewrite validateBusinessRules_eq. cbn [app].
  destruct (_ ++ _) as [|e errs] eqn:Hrules; cbn; [|done].
  intros [= <-].
  apply app_eq_nil in Hrules as [H1 Hrules].
  apply app_eq_nil in Hrules as [H2 Hrules].
  apply app_eq_nil in Hrules as [H3 H4].
  destruct Hwf as (f1 & f2 & f3 & f4 & f5 & f6 & _ & _ & Hfields).
  apply validateFields_defined in Hfields
    as (r & p & ts & vol & b & a & Heq & Hr & Hp & Hts & Hvol & Hb & Ha).
  injection Heq as <- <- <- <- <- <-.
  destruct (validateRic_normal _ _ _ _ Hr) as [Hc Hlen].
  split.
  { split; [done|]. split; [done|].
    destruct (normal_ricShape _ Hc Hlen) as [Hshape Hfix].
    rewrite (validateRic_shape _ [] Hshape). by rewrite Hfix. }
  split; [by eapply validatePrice_range|].
  split; [by eapply validateTimestamp_window|].
  split; [by eapply validateOptionalNumber_volume|].
  split; [eapply validateOptionalNumber_quote; [|done]; auto|].
  split; [eapply validateOptionalNumber_quote; [|done]; auto|].
  split.
  - intros b0 a0 Eb Ea. unfold rule1, rule2, push, ret in H1, H2.
    rewrite Eb, Ea in H1, H2.
    destruct (gt b0 a0); [done|].
    destruct (lt (price tk') b0); [done|].
    destruct (gt (price tk') a0); done.
  - intros Hstrict. split.
    + intros vol0 Ev. unfold rule4, push, ret in H4. rewrite Ev, Hstrict in H4.
      by destruct (strictEq vol0 (ofZ 0)).
    + intros lastPrice Hl. unfold rule3, bind, push, ret in H3.
      rewrite Hl, Hstrict in H3. by destruct (gt _ _).
Qed.

(** ** All six fields are checked *)

Lemma validateRic_app ricStr errs :
  validateRic ricStr errs =
    ((validateRic ricStr []).1, errs ++ (validateRic ricStr []).2)
  /\ (length (validateRic ricStr []).2 <= 1)%nat.
Proof.
  unfold validateRic, bind, push, ret.
  repeat case_match; simpl; rewrite ?app_nil_r; split; (done || lia).
Qed.

Lemma validatePrice_app priceStr fieldName errs :
  validatePrice priceStr fieldName errs =
    ((validatePrice priceStr fieldName []).1,
     errs ++ (validatePrice priceStr fieldName []).2)
  /\ (length (validatePrice priceStr fieldName []).2 <= 1)%nat.
Proof.
  unfold validatePrice, bind, push, ret.
  repeat case_match; simpl; rewrite ?app_nil_r; split; (done || lia).
Qed.

Lemma validateTimestamp_app v now timestampStr errs :
  validateTimestamp v now timestampStr errs =
    ((validateTimestamp v now timestampStr []).1,
     errs ++ (validateTimestamp v now timestampStr []).2)
  /\ (length (validateTimestamp v now timestampStr []).2 <= 1)%nat.
Proof.
  unfold validateTimestamp, bind, push, ret.
  repeat case_match; simpl; rewrite ?app_nil_r; split; (done || lia).
Qed.

Lemma validateOptionalNumber_app valueStr fieldName errs :
  validateOptionalNumber valueStr fieldName errs =
    ((validateOptionalNumber valueStr fieldName []).1,
     errs ++ (validateOptionalNumber valueStr fieldName []).2)
  /\ (length (validateOptionalNumber valueStr fieldName []).2 <= 1)%nat.
Proof.
  unfold validateOptionalNumber, bind, push, ret.
  repeat case_match; simpl; rewrite ?app_nil_r; split; (done || lia).
Qed.

(** The errors of the six field validations, each run on its own. *)
Definition fieldErrors (v : t) (now : Z) (f1 f2 f3 f4 f5 f6 : list N)
    : list ValidationError :=
  (validateRic f1 []).2 ++ (validatePrice f2 "price" []).2
  ++ (validateTimestamp v now f3 []).2
  ++ (validateOptionalNumber f4 "volume" []).2
  ++ (validateOptionalNumber f5 "bid" []).2
  ++ (validateOptionalNumber f6 "ask" []).2.

Lemma validateFields_errors v now f1 f2 f3 f4 f5 f6 :
  (validateFields v now f1 f2 f3 f4 f5 f6 []).2 = fieldErrors v now f1 f2 f3 f4 f5 f6
  /\ (length (fieldErrors v now f1 f2 f3 f4 f5 f6) <= 6)%nat.
Proof.
  unfold validateFields, fieldErrors, bind, ret.
  destruct (validateRic_app f1 []) as [_ L1].
  destruct (validatePrice_app f2 "price" []) as [_ L2].
  destruct (validateTimestamp_app v now f3 []) as [_ L3].
  destruct (validateOptionalNumber_app f4 "volume" []) as [_ L4].
  destruct (validateOptionalNumber_app f5 "bid" []) as [_ L5].
  destruct (validateOptionalNumber_app f6 "ask" []) as [_ L6].
  split; [|rewrite !length_app; lia].
  destruct (validateRic f1 []) as [r e1]. cbn [snd].
  rewrite (proj1 (validatePrice_app f2 "price" e1)).
  rewrite (proj1 (validateTimestamp_app v now f3 (e1 ++ _))).
  rewrite (proj1 (validateOptionalNumber_app f4 "volume" (_ ++ _))).
  rewrite (proj1 (validateOptionalNumber_app f5 "bid" (_ ++ _))).
  rewrite (proj1 (validateOptionalNumber_app f6 "ask" (_ ++ _))).
  cbn [snd]. by rewrite <- !app_assoc.
Qed.

Lemma businessRules_length v tk :
  (length (validateBusinessRules v tk []).2 <= 4)%nat.
Proof.
  rewrite validateBusinessRules_eq. cbn [snd app]. rewrite !length_app.
  assert (length (rule1 tk []).2 <= 1)%nat
    by (unfold rule1, push, ret; repeat case_match; simpl; lia).
  assert (length (rule2 tk []).2 <= 1)%nat
    by (unfold rule2, push, ret; repeat case_match; simpl; lia).
  assert (length (rule3 v tk []).2 <= 1)%nat
    by (unfold rule3, bind, push, ret; repeat case_match; simpl; lia).
  assert (length (rule4 v tk []).2 <= 1)%nat
    by (unfold rule4, push, ret; repeat case_match; simpl; lia).
  lia.
Qed.

Lemma validateMessage_fields (v : t) (now : Z) (rawMessage : list N)
    (f1 f2 f3 f4 f5 f6 : list N) :
  let c := validateMessage v now rawMessage in
  JS.split JS.PIPE (JS.trim (JS.removeNewlines rawMessage))
    = [f1; f2; f3; f4; f5; f6] ->
  (length (fieldErrors v now f1 f2 f3 f4 f5 f6) <= 6)%nat
  /\ (fieldErrors v now f1 f2 f3 f4 f5 f6 <> [] ->
      errors (result c) = fieldErrors v now f1 f2 f3 f4 f5 f6
      /\ isValid (result c) = false
      /\ self c = v)
  /\ (fieldErrors v now f1 f2 f3 f4 f5 f6 = [] ->
      exists tk,
        wellFormed v now rawMessage tk
        /\ errors (result c) = (validateBusinessRules v tk []).2).
Proof.
  cbv zeta. intros Hsplit.
  destruct (validateFields_errors v now f1 f2 f3 f4 f5 f6) as [He Hl].
  split; [done|].
  assert (isEmpty (trim (removeNewlines rawMessage)) = false) as Hne.
  { destruct (trim (removeNewlines rawMessage)); [done|done]. }
  unfold validateMessage. rewrite Hne, Hsplit.
  destruct (validateFields _ _ _ _ _ _ _ _ _) as [fields e] eqn:Hf. cbn [snd] in He.
  subst e. split.
  - intros Hnz. destruct (fieldErrors _ _ _ _ _ _ _ _) as [|e0 es]; [done|].
    done.
  - intros Hz. rewrite Hz in Hf |- *. cbn.
    apply validateFields_defined in Hf as Hdef.
    destruct Hdef as (r & p & ts & vol & b & a & -> & _).
    set (tk := {| ric := r; price := p; timestamp := ts;
                  volume := vol; bid := b; ask := a |}).
    exists tk. split.
    + exists f1, f2, f3, f4, f5, f6. done.
    + by destruct (validateBusinessRules v tk []).
Qed.

(** [validateMessage] does not stop at the first field that fails: when
    the message has six fields, the errors it reports are the errors of
    the six field validations, one at most for each field, in the order
    of the fields; the business rules are applied only when there is
    none.  A result never carries more than six errors. *)
Theorem field_errors_all_reported (v : t) (now : Z) (rawMessage : list N) :
  let c := validateMessage v now rawMessage in
  (length (errors (result c)) <= 6)%nat
  /\ forall f1 f2 f3 f4 f5 f6,
       JS.split JS.PIPE (JS.trim (JS.removeNewlines rawMessage))
         = [f1; f2; f3; f4; f5; f6] ->
       (length (fieldErrors v now f1 f2 f3 f4 f5 f6) <= 6)%nat
       /\ (fieldErrors v now f1 f2 f3 f4 f5 f6 <> [] ->
           errors (result c) = fieldErrors v now f1 f2 f3 f4 f5 f6
           /\ isValid (result c) = false
           /\ self c = v)
       /\ (fieldErrors v now f1 f2 f3 f4 f5 f6 = [] ->
           exists tk,
             wellFormed v now rawMessage tk
             /\ errors (result c) = (validateBusinessRules v tk []).2).
Proof.
  cbv zeta. split; [|intros f1 f2 f3 f4 f5 f6; apply validateMessage_fields].
  unfold validateMessage.
  destruct (isEmpty _); [simpl; lia|].
  destruct (split _ _) as [|f1 [|f2 [|f3 [|f4 [|f5 [|f6 [|]]]]]]];
    try (simpl; lia).
  destruct (validateFields_errors v now f1 f2 f3 f4 f5 f6) as [He Hl].
  destruct (validateFields _ _ _ _ _ _ _ _ _) as [fields e]. cbn [snd] in He.
  subst e.
  destruct (0 <? _)%nat eqn:Hpos; [simpl; lia|].
  apply Nat.ltb_ge in Hpos.
  destruct fields as [[[[[[r|] [p|]] [ts|]] vol] b] a]; try (simpl; lia).
  match goal with |- context [validateBusinessRules v ?x ?l] =>
    pose proof (businessRules_length v x) as Hb;
    rewrite validateBusinessRules_eq in Hb |- * end.
  assert (fieldErrors v now f1 f2 f3 f4 f5 f6 = []) as ->
    by (destruct (fieldErrors _ _ _ _ _ _ _ _); [done|simpl in Hpos; lia]).
  simpl in *. lia.
Qed.

End WithNumber.
End ValidatorGuarantees.

Module FramerGuarantees.
Import JS JSFacts WireFacts TcpServer TcpServerFacts.

(** What the loop does with a complete line: a line that is blank after
    trimming is dropped, any other is handed on trimmed. *)
Definition keep (l : list N) : option (list N) :=
  if isEmpty (trim l) then None else Some (trim l).

Definition messagesOf (ls : list (list N)) : list (list N) := omap keep ls.

Lemma emit_keep cur out : emit cur out = option_list (keep cur) ++ out.
Proof. unfold emit, keep. by destruct (isEmpty _). Qed.

Lemma removelast_cons {A} (x : A) l : l <> [] -> removelast (x :: l) = x :: removelast l.
Proof. by destruct l. Qed.

Lemma last_cons_ne {A} (x : A) l d : l <> [] -> List.last (x :: l) d = List.last l d.
Proof. by destruct l. Qed.

Lemma frames_split cur s :
  frames cur s =
    match split LF s with
    | p :: ps =>
        (messagesOf (removelast ((cur ++ p) :: ps)), List.last ((cur ++ p) :: ps) [])
    | [] => ([], cur)
    end.
Proof.
  revert cur. induction s as [|c t IH]; intros cur.
  { cbn [frames split removelast List.last]. unfold messagesOf. cbn [omap list_omap].
    by rewrite app_nil_r. }
  cbn [frames split]. destruct (c =? LF).
  - rewrite (IH []). pose proof (split_nonempty LF t) as Hne.
    destruct (split LF t) as [|p ps]; [done|].
    rewrite app_nil_r. cbn [app].
    rewrite (removelast_cons cur (p :: ps)), (last_cons_ne cur (p :: ps)) by done.
    unfold messagesOf at 2. cbn [omap list_omap].
    rewrite emit_keep. unfold messagesOf. by destruct (keep cur).
  - rewrite (IH (cur ++ [c])). pose proof (split_nonempty LF t) as Hne.
    destruct (split LF t) as [|p ps]; [done|].
    by rewrite <- app_assoc.
Qed.

Lemma onData_split (buffer chunk : list N) :
  let text := buffer ++ Buffer.toString chunk in
  onData buffer chunk =
    (messagesOf (removelast (split LF text)), List.last (split LF text) []).
Proof.
  cbv zeta. unfold onData. rewrite extract_frames by done.
  rewrite frames_split. pose proof (split_nonempty LF (buffer ++ Buffer.toString chunk)).
  by destruct (split LF _).
Qed.

(** The text a connection has received is cut at its line feeds: every
    complete line is handed on, trimmed, unless it is blank, and what
    follows the last line feed stays in the buffer. *)
Theorem data_handler_splits_lines (buffer chunk : list N) :
  let text := buffer ++ Buffer.toString chunk in
  onData buffer chunk =
    (messagesOf (removelast (split LF text)), List.last (split LF text) []).
Proof.
  cbv zeta. unfold onData. rewrite extract_frames by done.
  rewrite frames_split.
  pose proof (split_nonempty LF (buffer ++ Buffer.toString chunk)) as Hne.
  destruct (split LF (buffer ++ Buffer.toString chunk)); [done|reflexivity].
Qed.

(** ** What the messages handed on look like *)

Lemma trimStart_idem s : trimStart (trimStart s) = trimStart s.
Proof.
  induction s as [|c s IH]; [done|]. cbn [trimStart].
  destruct (isWhiteSpace c) eqn:Hc; [done|]. cbn [trimStart]. by rewrite Hc.
Qed.

Lemma trimStart_snoc l x :
  isWhiteSpace x = false -> exists pre, trimStart (l ++ [x]) = pre ++ [x].
Proof.
  intros Hx. induction l as [|c l [pre IH]].
  - exists []. cbn. by rewrite Hx.
  - cbn [app trimStart]. destruct (isWhiteSpace c).
    + by exists pre.
    + by exists (c :: l).
Qed.

Lemma trimStart_head s y r : trimStart s = y :: r -> isWhiteSpace y = false.
Proof.
  induction s as [|c s IH]; [done|]. cbn [trimStart].
  destruct (isWhiteSpace c) eqn:Hc; [done|]. by intros [= <- _].
Qed.

Lemma trim_cases s :
  trim s = [] \/ exists x mid y,
    isWhiteSpace x = false /\ isWhiteSpace y = false
    /\ (trim s = [x] \/ trim s = x :: mid ++ [y]).
Proof.
  unfold trim, trimEnd.
  destruct (trimStart s) as [|x a] eqn:Ha; [by left|]. right.
  pose proof (trimStart_head _ _ _ Ha) as Hx.
  cbn [rev]. destruct (trimStart_snoc (rev a) x Hx) as [pre Hpre].
  rewrite Hpre, rev_app_distr. cbn [rev app].
  destruct pre as [|y pre'].
  - exists x, [], x. cbn. auto.
  - exists x, (rev pre'), y. cbn [rev].
    pose proof (trimStart_head _ _ _ Hpre). auto.
Qed.

Lemma trim_idem s : trim (trim s) = trim s.
Proof.
  destruct (trim_cases s) as [->|(x & mid & y & Hx & Hy & [->| ->])]; [done| |].
  - unfold trim, trimEnd. cbn. rewrite Hx. cbn. by rewrite Hx.
  - unfold trim, trimEnd. cbn [trimStart]. rewrite Hx.
    change (x :: mid ++ [y]) with ([x] ++ mid ++ [y]).
    rewrite !rev_app_distr. cbn [rev app trimStart]. rewrite Hy.
    change (y :: rev mid ++ [x]) with ([y] ++ rev mid ++ [x]).
    rewrite !rev_app_distr. cbn [rev app]. by rewrite rev_involutive.
Qed.

Lemma noLF_count s : noLF s <-> count LF s = 0%nat.
Proof.
  induction s as [|c s IH]; [done|].
  rewrite noLF_cons, count_cons. destruct (N.eqb_spec c LF) as [->|Hc].
  - split; [by intros [? _]|done].
  - rewrite IH. tauto.
Qed.

Lemma count_trimStart_le c s : (count c (trimStart s) <= count c s)%nat.
Proof.
  induction s as [|x s IH]; [done|]. cbn [trimStart].
  destruct (isWhiteSpace x); [|done]. rewrite count_cons. destruct (x =? c); lia.
Qed.

Lemma count_trim_le c s : (count c (trim s) <= count c s)%nat.
Proof.
  unfold trim, trimEnd. rewrite count_rev.
  etrans; [apply count_trimStart_le|]. rewrite count_rev. apply count_trimStart_le.
Qed.

Lemma split_pieces sep s : Forall (fun p => count sep p = 0%nat) (split sep s).
Proof.
  induction s as [|c s IH]; [by repeat constructor|].
  cbn [split]. destruct (N.eqb_spec c sep) as [->|Hc]; [by constructor|].
  destruct (split sep s) as [|p ps].
  { constructor; [|constructor]. cbn [count]. by destruct (N.eqb_spec c sep). }
  inversion IH as [|? ? Hp Hps]; subst. constructor; [|done].
  rewrite count_cons. by destruct (N.eqb_spec c sep).
Qed.

Lemma removeNewlines_noLF s : noLF s -> removeNewlines s = s.
Proof.
  assert (forall n s, (length s <= n)%nat -> noLF s -> removeNewlines s = s) as H;
    [|by apply (H (length s))].
  clear s. induction n as [|n IH]; intros [|x t] Hn Hs; try done.
  { cbn [length] in Hn. lia. }
  cbn [length] in Hn. apply noLF_cons in Hs as [Hx Ht].
  rewrite removeNewlines_cons.
  destruct (N.eqb_spec x LF); [done|].
  destruct t as [|d u]; [done|].
  apply noLF_cons in Ht as Ht'. destruct Ht' as [Hd _].
  destruct (N.eqb_spec d LF); [done|]. rewrite andb_false_r.
  f_equal. apply IH; [lia|done].
Qed.

Lemma Forall_removelast {A} (P : A -> Prop) l : Forall P l -> Forall P (removelast l).
Proof.
  induction 1 as [|x l Hx Hl IH]; [constructor|].
  destruct l; [constructor|]. cbn [removelast]. by constructor.
Qed.

Lemma Forall_last {A} (P : A -> Prop) l d : Forall P l -> P d -> P (List.last l d).
Proof.
  induction 1 as [|x l Hx Hl IH]; [done|]. intros Hd.
  destruct l; [done|]. cbn [List.last]. by apply IH.
Qed.

Lemma messagesOf_clean ls :
  Forall (fun p => count LF p = 0%nat) ls ->
  Forall (fun m => isEmpty m = false /\ trim m = m /\ indexOf LF m = None
                   /\ trim (removeNewlines m) = m)
         (messagesOf ls).
Proof.
  induction 1 as [|l ls Hl _ IH]; [constructor|].
  unfold messagesOf. cbn [omap list_omap]. unfold keep at 1.
  destruct (isEmpty (trim l)) eqn:He; [done|].
  constructor; [|done].
  assert (noLF (trim l)) as Hno.
  { apply noLF_count. pose proof (count_trim_le LF l). lia. }
  split; [done|]. split; [apply trim_idem|]. split; [done|].
  rewrite removeNewlines_noLF by done. apply trim_idem.
Qed.

Lemma onData_clean (buffer chunk : list N) :
  Forall (fun m => isEmpty m = false /\ trim m = m /\ indexOf LF m = None
                   /\ trim (removeNewlines m) = m)
         (onData buffer chunk).1.
Proof.
  rewrite onData_split. cbn [fst].
  pose proof (split_pieces LF (buffer ++ Buffer.toString chunk)) as Hp.
  apply messagesOf_clean. by apply Forall_removelast.
Qed.

(** Every message handed to [handleMessage] is not empty, has no white
    space at either end and contains no line feed, so the cleaning step
    of [validateMessage] leaves it as it is; and the buffer kept for the
    next chunk contains no line feed. *)
Theorem handed_messages_clean (buffer chunk : list N) :
  Forall (fun m => isEmpty m = false /\ trim m = m /\ indexOf LF m = None
                   /\ trim (removeNewlines m) = m)
         (onData buffer chunk).1
  /\ indexOf LF (onData buffer chunk).2 = None.
Proof.
  split; [apply onData_clean|].
  rewrite onData_split. cbn [snd].
  pose proof (split_pieces LF (buffer ++ Buffer.toString chunk)) as Hp.
  apply noLF_count. by apply (Forall_last (fun p => count LF p = 0%nat)).
Qed.

End FramerGuarantees.

Module FramedValidation.
Import JS JSFacts WireFacts TcpServer TcpServerFacts.
Import MessageValidator MessageValidatorFacts ValidatorGuarantees FramerGuarantees.
Section WithNumber.
Context {J : JSNumber}.

Ltac no_empty_message :=
  unfold validateRic, validatePrice, validateTimestamp, validateOptionalNumber,
         rule1, rule2, rule3, rule4, bind, push, ret;
  repeat case_match; cbn [snd app];
  rewrite ?elem_of_nil, ?list_elem_of_singleton; (tauto || congruence).

Lemma fieldErrors_not_empty v now f1 f2 f3 f4 f5 f6 :
  EmptyMessage ∉ fieldErrors v now f1 f2 f3 f4 f5 f6.
Proof.
  unfold fieldErrors. rewrite !elem_of_app.
  assert (EmptyMessage ∉ (validateRic f1 []).2) by no_empty_message.
  assert (EmptyMessage ∉ (validatePrice f2 "price" []).2) by no_empty_message.
  assert (EmptyMessage ∉ (validateTimestamp v now f3 []).2) by no_empty_message.
  assert (forall f n, EmptyMessage ∉ (validateOptionalNumber f n []).2) as Ho
    by (intros; no_empty_message).
  pose proof (Ho f4 "volume"%string). pose proof (Ho f5 "bid"%string).
  pose proof (Ho f6 "ask"%string). tauto.
Qed.

Lemma businessRules_not_empty v tk :
  EmptyMessage ∉ (validateBusinessRules v tk []).2.
Proof.
  rewrite validateBusinessRules_eq. cbn [snd app]. rewrite !elem_of_app.
  assert (EmptyMessage ∉ (rule1 tk []).2) by no_empty_message.
  assert (EmptyMessage ∉ (rule2 tk []).2) by no_empty_message.
  assert (EmptyMessage ∉ (rule3 v tk []).2) by no_empty_message.
  assert (EmptyMessage ∉ (rule4 v tk []).2) by no_empty_message.
  tauto.
Qed.

(** ['Empty message received'] is reported exactly for a message that is
    empty once cleaned, and then alone; so it is never the answer to a
    message that comes from the ['data'] handler of the TCP server. *)
Theorem empty_message_only_when_blank (v : t) (now : Z) :
  (forall rawMessage,
     let r := result (validateMessage v now rawMessage) in
     (EmptyMessage ∈ errors r <-> isEmpty (trim (removeNewlines rawMessage)) = true)
     /\ (EmptyMessage ∈ errors r -> errors r = [EmptyMessage]))
  /\ (forall buffer chunk,
        Forall (fun m => EmptyMessage ∉ errors (result (validateMessage v now m)))
               (onData buffer chunk).1).
Proof.
  assert (forall rawMessage,
     let r := result (validateMessage v now rawMessage) in
     (EmptyMessage ∈ errors r <-> isEmpty (trim (removeNewlines rawMessage)) = true)
     /\ (EmptyMessage ∈ errors r -> errors r = [EmptyMessage])) as Hraw.
  { intros rawMessage. cbv zeta.
    destruct (isEmpty (trim (removeNewlines rawMessage))) eqn:He.
    { unfold validateMessage. rewrite He. cbn. split; [|done].
      split; [done|]. intros _. apply list_elem_of_singleton. done. }
    assert (EmptyMessage ∉ errors (result (validateMessage v now rawMessage))) as Hno.
    { destruct (split PIPE (trim (removeNewlines rawMessage)))
        as [|f1 [|f2 [|f3 [|f4 [|f5 [|f6 [|]]]]]]] eqn:Hsplit;
        try (unfold validateMessage; rewrite He, Hsplit; cbn;
             rewrite list_elem_of_singleton; congruence).
      destruct (validateMessage_fields v now rawMessage _ _ _ _ _ _ Hsplit)
        as (_ & Hbad & Hgood).
      destruct (fieldErrors v now f1 f2 f3 f4 f5 f6) eqn:Hfe.
      - destruct (Hgood eq_refl) as (tk & _ & ->). apply businessRules_not_empty.
      - destruct Hbad as (-> & _); [done|]. rewrite <- Hfe.
        apply fieldErrors_not_empty. }
    split; [split; [done|done]|done]. }
  split; [done|].
  intros buffer chunk.
  pose proof (onData_clean buffer chunk) as Hclean.
  eapply Forall_impl; [exact Hclean|]. cbn beta.
  intros m (Hne & _ & _ & Hid).
  destruct (Hraw m) as [Hiff _]. rewrite Hiff, Hid, Hne. done.
Qed.

End WithNumber.
End FramedValidation.

Module Transport.
Import JS JSFacts WireFacts TcpSender TcpSenderFacts TcpServer TcpServerFacts.
Import FramerGuarantees.
Section WithNumber.
Context {J : JSNumber} {JSpec : JSNumberSpec J}.

(** A tick whose line is plain ASCII without white space: its instrument
    code is made of the characters of a RIC and its numbers are finite. *)
Definition finiteOpt (x : option number) : Prop :=
  match x with Some n => isFinite n = true | None => True end.

Definition plainTick (tk : TickGenerator.PriceTick) : Prop :=
  forallb isRicChar (TickGenerator.ric tk) = true
  /\ isFinite (TickGenerator.price tk) = true
  /\ isFinite (TickGenerator.timestamp tk) = true
  /\ finiteOpt (TickGenerator.volume tk) /\ finiteOpt (TickGenerator.bid tk)
  /\ finiteOpt (TickGenerator.ask tk).

(** The characters of a line. *)
Definition isLineChar (c : N) : bool :=
  negb (isWhiteSpace c) && (c <=? 127).

Lemma ricChar_line c : isRicChar c = true -> isLineChar c = true.
Proof.
  intros H. destruct (ricChar_field c H) as [Hw _]. unfold isLineChar. rewrite Hw.
  unfold isRicChar, isUpper, isLower, isDigit, DOT, EQUALS in H.
  repeat (apply orb_true_iff in H as [H|H]); arith; apply N.leb_le; lia.
Qed.

Lemma numberChar_line c : isNumberChar c = true -> isLineChar c = true.
Proof.
  intros H. destruct (numberChar_field c H) as [Hw _]. unfold isLineChar. rewrite Hw.
  unfold isNumberChar, isDigit, DOT, MINUS, PLUS in H.
  repeat (apply orb_true_iff in H as [H|H]); arith; apply N.leb_le; lia.
Qed.

Lemma digit_line c : isDigit c = true -> isLineChar c = true.
Proof.
  intros H. apply numberChar_line. unfold isNumberChar. by rewrite H.
Qed.

Lemma toString_line (x : number) :
  isFinite x = true -> forallb isLineChar (toString x) = true.
Proof.
  intros Hx. pose proof (toString_chars x Hx) as Hc.
  revert Hc. apply forallb_impl, numberChar_line.
Qed.

Lemma optionalToString_line (x : option number) :
  finiteOpt x -> forallb isLineChar (optionalToString x) = true.
Proof.
  destruct x as [n|]; [|done]. intros Hf. unfold optionalToString.
  destruct (isEmpty _); [done|]. by apply toString_line.
Qed.

Lemma Z_toString_line z : forallb isLineChar (Z_toString z) = true.
Proof.
  assert (forall n, forallb isLineChar (N_toString n) = true) as HN.
  { intros n. pose proof (N_toString_digits n) as Hd.
    revert Hd. apply forallb_impl, digit_line. }
  destruct z as [|p|p]; [done|apply HN|].
  cbn [Z_toString forallb]. by rewrite HN.
Qed.

Lemma join_line parts :
  forallb (forallb isLineChar) parts = true ->
  forallb isLineChar (join PIPE parts) = true.
Proof.
  induction parts as [|p parts IH]; [done|]. intros H.
  cbn [forallb] in H. apply andb_true_iff in H as [Hp Hps].
  destruct parts as [|q parts]; [done|].
  change (join PIPE (p :: q :: parts)) with (p ++ PIPE :: join PIPE (q :: parts)).
  rewrite forallb_app, Hp. cbn [forallb]. rewrite IH by done. done.
Qed.

Lemma formatTick_line tk :
  plainTick tk ->
  forallb isLineChar (formatTick tk) = true /\ isEmpty (formatTick tk) = false.
Proof.
  intros (Hr & Hp & Ht & Hv & Hb & Ha). split.
  - apply join_line. cbn [forallb].
    rewrite (forallb_impl _ _ _ ricChar_line Hr), !toString_line,
      !optionalToString_line by done. done.
  - unfold formatTick. cbn [join]. by destruct (TickGenerator.ric tk).
Qed.

Lemma lineChars_noWS s : forallb isLineChar s = true -> noWS s = true.
Proof.
  apply forallb_impl. intros c H. unfold isLineChar in H.
  by apply andb_true_iff in H as [-> _].
Qed.

Lemma lineChars_ascii s : forallb isLineChar s = true -> isAscii s.
Proof.
  induction s as [|c s IH]; [constructor|]. cbn [forallb]. intros H.
  apply andb_true_iff in H as [Hc Hs]. constructor; [|by apply IH].
  unfold isLineChar in Hc. apply andb_true_iff in Hc as [_ Hc]. by apply N.leb_le.
Qed.

Lemma lineChars_noLF s : forallb isLineChar s = true -> noLF s.
Proof.
  induction s as [|c s IH]; [done|]. cbn [forallb]. intros H.
  apply andb_true_iff in H as [Hc Hs]. apply noLF_cons. split; [|by apply IH].
  intros ->. done.
Qed.

(** Framing the lines of messages that are not blank and have no white
    space gives the messages back. *)
Lemma frames_lines ms :
  Forall (fun m => forallb isLineChar m = true /\ isEmpty m = false) ms ->
  frames [] (concat (line <$> ms)) = (ms, []).
Proof.
  induction 1 as [|m ms [Hm Hne] _ IH]; [done|].
  cbn [fmap list_fmap concat]. unfold line at 1. rewrite <- app_assoc.
  rewrite frames_noLF by (by apply lineChars_noLF).
  cbn [app frames]. rewrite N.eqb_refl.
  change (list_fmap _ _ line ms) with (line <$> ms). rewrite IH.
  unfold emit. rewrite trim_noWS by (by apply lineChars_noWS). by rewrite Hne.
Qed.

Lemma isAscii_concat chunks : isAscii (concat chunks) -> Forall isAscii chunks.
Proof.
  induction chunks as [|c chunks IH]; [constructor|]. cbn [concat].
  intros H. apply Forall_app in H as [? ?]. constructor; [done|by apply IH].
Qed.

(** The lines the sender writes for plain ticks reach [handleMessage] of
    the server as they were formatted, one message for each tick and in
    the order of the ticks, however the byte stream is cut into chunks;
    nothing is left in the buffer. *)
Theorem sent_lines_are_received (ticks : list TickGenerator.PriceTick)
    (chunks : list (list N)) :
  Forall plainTick ticks ->
  concat chunks = concat (line <$> (formatTick <$> ticks)) ->
  receive [] chunks = (formatTick <$> ticks, []).
Proof.
  intros Hticks Hbytes.
  assert (Forall (fun m => forallb isLineChar m = true /\ isEmpty m = false)
                 (formatTick <$> ticks)) as Hms.
  { apply Forall_fmap. eapply Forall_impl; [exact Hticks|].
    intros tk Htk. by apply formatTick_line. }
  assert (isAscii (concat (line <$> (formatTick <$> ticks)))) as Hascii.
  { clear -Hms. induction Hms as [|m ms [Hm _] _ IH]; [constructor|].
    cbn [fmap list_fmap concat]. unfold line at 1. rewrite <- app_assoc.
    apply Forall_app. split; [by apply lineChars_ascii|].
    constructor; [done|]. exact IH. }
  rewrite receive_ascii by (apply isAscii_concat; by rewrite Hbytes).
  rewrite receiveText_concat by done.
  rewrite onText_frames, Hbytes. cbn [app]. by apply frames_lines.
Qed.

End WithNumber.
End Transport.

Module SenderGuarantees.
Import TcpSender TcpSenderFacts.
Section WithNumber.
Context {J : JSNumber}.

Lemma config_handleDisconnection s : config (handleDisconnection s) = config s.
Proof. unfold handleDisconnection. by repeat case_match. Qed.

Lemma config_write text e s : config (write text e s) = config s.
Proof.
  unfold write, afterWrite, onClose, onError. destruct e; [done| |].
  - by rewrite config_handleDisconnection.
  - cbn [setConnected reconnectAttempts]. destruct (_ =? _)%nat; [done|].
    by rewrite config_handleDisconnection.
Qed.

Lemma config_drain effects queue s : config (drain effects queue s) = config s.
Proof.
  revert effects s. induction queue as [|m queue IH]; intros effects s; [done|].
  cbn [drain]. destruct (hasSocket s && isConnected s); [|apply IH].
  destruct effects; rewrite IH; apply config_write.
Qed.

Lemma config_step ev s : config (step ev s) = config s.
Proof.
  destruct ev as [e tk| |effects| | |]; cbn [step].
  - unfold sendTick. destruct (_ && _); [|done].
    destruct (validDate _); [apply config_write|].
    rewrite config_handleDisconnection. apply config_write.
  - done.
  - unfold onConnect, flushMessageQueue. destruct (_ =? _)%nat; [done|].
    cbn [config]. by rewrite config_drain.
  - unfold onClose. by rewrite config_handleDisconnection.
  - unfold onError. cbn [setConnected reconnectAttempts].
    destruct (_ =? _)%nat; [done|]. by rewrite config_handleDisconnection.
  - done.
Qed.

(** ** Sequences of calls and events *)

(** The sender after a sequence of calls and events. *)
Definition runEvents (evs : list Event) (s : t) : t :=
  fold_left (fun acc ev => step ev acc) evs s.

(** Every event of the sequence can occur when its turn comes. *)
Fixpoint possible (evs : list Event) (s : t) : Prop :=
  match evs with
  | [] => True
  | ev :: rest => enabled ev s = true /\ possible rest (step ev s)
  end.

(** No write of the event runs a handler of the socket. *)
Definition quiet (ev : Event) : Prop :=
  match ev with
  | CallSendTick e _ => e = Stays
  | SocketConnect effects => Forall (fun e => e = Stays) effects
  | _ => True
  end.

(** The tick of the event, if it sends one, has a timestamp that is a
    valid date, so that logging it does not throw. *)
Definition dated (ev : Event) : Prop :=
  match ev with
  | CallSendTick _ tk => validDate (TickGenerator.timestamp tk) = true
  | _ => True
  end.

(** The ticks passed to [sendTick], in call order. *)
Definition sentTicks (evs : list Event) : list TickGenerator.PriceTick :=
  omap (fun ev => match ev with CallSendTick _ tk => Some tk | _ => None end) evs.

(** What an event writes: [connect] and the timer install a new socket,
    to which nothing has been written; any other event leaves the socket
    in place, and what it writes is what the socket has received since. *)
Definition wrote (ev : Event) (s : t) : list (list N) :=
  match ev with
  | CallConnect | TimerFires => []
  | _ => drop (length (written s)) (written (step ev s))
  end.

(** Everything written during a sequence of events, oldest first. *)
Fixpoint wire (evs : list Event) (s : t) : list (list N) :=
  match evs with
  | [] => []
  | ev :: rest => wrote ev s ++ wire rest (step ev s)
  end.

Lemma possible_reachable evs : forall s,
  reachable s -> possible evs s -> reachable (runEvents evs s).
Proof.
  induction evs as [|ev evs IH]; intros s Hr Hp; [done|].
  destruct Hp as [Hen Hp]. cbn [runEvents fold_left].
  apply IH; [by apply reach_step|done].
Qed.

(** ** The attempts counter *)

(** The counter stays within the limit, or at zero when the limit is
    not positive; then no timer is ever set. *)
Definition within (s : t) : Prop :=
  (Z.of_nat (reconnectAttempts s) <= Z.max 0 (maxReconnectAttempts (config s)))%Z
  /\ ((maxReconnectAttempts (config s) <= 0)%Z -> reconnectTimer s = false).

Lemma within_handleDisconnection s : within s -> within (handleDisconnection s).
Proof.
  intros H. unfold handleDisconnection.
  destruct (reconnectTimer s) eqn:Htimer; [exact H|].
  destruct (_ <=? _)%Z eqn:Hmax; [exact H|].
  destruct H as [Hle Ht]. apply Z.leb_gt in Hmax. split; cbn; lia.
Qed.

Lemma within_down b s : within s -> within (setConnected b s).
Proof. by intros [Hle Ht]. Qed.

Lemma within_onClose s : within s -> within (onClose s).
Proof. intros H. by apply within_handleDisconnection, within_down. Qed.

Lemma within_onError s : within s -> within (onError s).
Proof.
  intros H. unfold onError. cbn [setConnected reconnectAttempts].
  destruct (_ =? _)%nat; [by apply (within_down false)|].
  by apply within_handleDisconnection, (within_down false).
Qed.

Lemma within_write text e s : within s -> within (write text e s).
Proof.
  intros H. unfold write, afterWrite.
  destruct e; [exact H|apply within_onClose|apply within_onError]; exact H.
Qed.

Lemma within_drain effects queue s : within s -> within (drain effects queue s).
Proof.
  revert effects s. induction queue as [|m queue IH]; intros effects s H; [done|].
  cbn [drain]. destruct (hasSocket s && isConnected s); [|by apply IH].
  destruct effects; apply IH; by apply within_write.
Qed.

Lemma within_step ev s : within s -> within (step ev s).
Proof.
  intros H. destruct ev as [e tk| |effects| | |]; cbn [step].
  - unfold sendTick. destruct (_ && _); [|exact H].
    destruct (validDate _); [by apply within_write|].
    apply within_handleDisconnection.
    by apply (within_write (formatTick tk ++ [JS.LF]) e) in H.
  - exact H.
  - unfold onConnect, flushMessageQueue. cbn [messageQueue].
    destruct H as [Hle Ht].
    destruct (_ =? _)%nat; [split; cbn; [lia|done]|].
    match goal with |- context [drain effects ?q ?x] =>
      assert (within (drain effects q x)) as Hd
        by (apply within_drain; split; cbn; [lia|done]) end.
    exact Hd.
  - by apply within_onClose.
  - by apply within_onError.
  - destruct H as [Hle Ht]. split; [done|]. done.
Qed.

Lemma reachable_within s : reachable s -> within s.
Proof.
  induction 1 as [cfg|s ev _ IH _]; [split; cbn; [lia|done]|].
  by apply within_step.
Qed.

(** ** While no date fails *)

(** A connected sender has counted no attempt. *)
Definition zeroed (s : t) : Prop :=
  isConnected s = true -> reconnectAttempts s = 0%nat.

(** A connected sender has nothing queued. *)
Definition emptied (s : t) : Prop :=
  isConnected s = true -> messageQueue s = [].

Lemma zeroed_down s : isConnected s = false -> zeroed s.
Proof. intros H Hc. congruence. Qed.

Lemma zeroed_write text e s : zeroed s -> zeroed (write text e s).
Proof.
  intros H. destruct e.
  - unfold write, afterWrite. exact H.
  - apply zeroed_down. by rewrite isConnected_write.
  - apply zeroed_down. by rewrite isConnected_write.
Qed.

Lemma zeroed_drain effects queue s :
  zeroed s -> zeroed (drain effects queue s).
Proof.
  revert effects s. induction queue as [|m queue IH]; intros effects s H; [done|].
  cbn [drain]. destruct (hasSocket s && isConnected s); [|by apply IH].
  destruct effects; apply IH; by apply zeroed_write.
Qed.

Lemma zeroed_step ev s : zeroed s -> dated ev -> zeroed (step ev s).
Proof.
  intros H Hd. destruct ev as [e tk| |effects| | |]; cbn [step dated] in *.
  - unfold sendTick. rewrite Hd.
    destruct (isConnected s && hasSocket s) eqn:Hup; [by apply zeroed_write|].
    exact H.
  - exact H.
  - unfold onConnect, flushMessageQueue. cbn [messageQueue].
    destruct (_ =? _)%nat; [done|].
    match goal with |- context [drain effects ?q ?x] =>
      assert (zeroed (drain effects q x)) as Hz
        by (apply zeroed_drain; done) end.
    exact Hz.
  - apply zeroed_down. unfold onClose. by rewrite isConnected_handleDisconnection.
  - apply zeroed_down. unfold onError. cbn [setConnected reconnectAttempts].
    destruct (_ =? _)%nat; by rewrite ?isConnected_handleDisconnection.
  - exact H.
Qed.

Lemma emptied_step ev s :
  (isConnected s = true -> hasSocket s = true) ->
  emptied s -> dated ev -> emptied (step ev s).
Proof.
  intros Hsock H Hd. destruct ev as [e tk| |effects| | |]; cbn [step dated] in *.
  - unfold sendTick. rewrite Hd.
    destruct (isConnected s) eqn:Hc; cbn [andb].
    + rewrite Hsock by done. intros _. rewrite messageQueue_write. by apply H.
    + intros Hc'. unfold enqueue in Hc'. cbn in Hc'. congruence.
  - exact H.
  - unfold onConnect.
    match goal with |- context [flushMessageQueue effects ?x] => set (c := x) end.
    destruct (flushMessageQueue_spec effects c) as [Hq _]. by intros _.
  - intros Hc. unfold onClose in Hc.
    rewrite isConnected_handleDisconnection in Hc. done.
  - intros Hc. unfold onError in Hc. cbn [setConnected reconnectAttempts] in Hc.
    destruct (_ =? _)%nat; rewrite ?isConnected_handleDisconnection in Hc; done.
  - exact H.
Qed.

Lemma config_run evs : forall s, config (runEvents evs s) = config s.
Proof.
  induction evs as [|ev evs IH]; intros s; [done|].
  cbn [runEvents fold_left]. fold (runEvents evs (step ev s)).
  by rewrite IH, config_step.
Qed.

(** What holds after every sequence of events. *)
Lemma run_invariants evs : forall s,
  reachable s -> possible evs s ->
  within (runEvents evs s)
  /\ (Forall dated evs -> zeroed s -> emptied s ->
      zeroed (runEvents evs s) /\ emptied (runEvents evs s)).
Proof.
  induction evs as [|ev evs IH]; intros s Hr Hp.
  { split; [by apply reachable_within|]. done. }
  destruct Hp as [Hen Hp]. cbn [runEvents fold_left].
  destruct (IH (step ev s) (reach_step s ev Hr Hen) Hp) as [Hw Hclean].
  split; [exact Hw|]. intros Hd Hz He.
  apply Forall_cons in Hd as [Hd Hds].
  apply Hclean; [done|by apply zeroed_step|].
  apply emptied_step; [|done..]. by apply reachable_invariant.
Qed.

(** In every state a sender can be in, the number of reconnection
    attempts counted since the last successful connection is at most
    [maxReconnectAttempts], and it stays at zero, with no timer ever
    set, when that limit is zero or negative; a connected sender has a
    socket; and the queue holds encoded ticks only.  When every tick
    passed to [sendTick] so far had a timestamp that is a valid date, a
    connected sender has counted no attempt and its queue is empty:
    queued records do not wait while the connection is up.  (A tick
    whose date is not valid breaks both.) *)
Theorem reconnect_attempts_bounded (cfg : TcpSenderConfig) (evs : list Event) :
  possible evs (new cfg) ->
  let s := runEvents evs (new cfg) in
  (Z.of_nat (reconnectAttempts s) <= Z.max 0 (maxReconnectAttempts cfg))%Z
  /\ ((maxReconnectAttempts cfg <= 0)%Z ->
      reconnectAttempts s = 0%nat /\ reconnectTimer s = false)
  /\ (isConnected s = true -> hasSocket s = true)
  /\ (exists pending, messageQueue s = formatTick <$> pending)
  /\ (Forall dated evs -> isConnected s = true ->
      reconnectAttempts s = 0%nat /\ messageQueue s = []).
Proof.
  intros Hp s.
  assert (reachable s) as Hr by (apply possible_reachable; [constructor|done]).
  destruct (run_invariants evs (new cfg) (reach_new cfg) Hp) as [[Hle Ht] Hclean].
  destruct (reachable_invariant s Hr) as [Hsock Hqueue].
  fold s in Hle, Ht, Hclean.
  assert (config s = cfg) as Hcfg by (unfold s; by rewrite config_run).
  rewrite Hcfg in Hle, Ht.
  split; [exact Hle|]. split; [|split; [exact Hsock|split; [exact Hqueue|]]].
  - intros Hmax. split; [lia|by apply Ht].
  - intros Hd Hc. destruct (Hclean Hd) as [Hz He]; [done..|].
    split; [by apply Hz|by apply He].
Qed.

(** ** Giving up *)

(** A sender that has used up its reconnection attempts: not connected,
    no timer pending, and the counter at the bound. *)
Definition gaveUp (s : t) : Prop :=
  isConnected s = false /\ reconnectTimer s = false
  /\ (maxReconnectAttempts (config s) <= Z.of_nat (reconnectAttempts s))%Z.

Lemma gaveUp_handleDisconnection s : gaveUp s -> handleDisconnection s = s.
Proof.
  intros (_ & Ht & Hmax). unfold handleDisconnection. rewrite Ht.
  apply Z.leb_le in Hmax. by rewrite Hmax.
Qed.

Lemma gaveUp_down s : gaveUp s -> setConnected false s = s.
Proof. intros (Hc & _). destruct s. cbn in *. by subst. Qed.

(** Once the attempts are used up the sender never tries again by
    itself: the ['close'] and ['error'] events of its socket leave it
    exactly as it is, and every [sendTick] only appends to the queue,
    which grows by one record for each call. *)
Theorem gave_up_is_final (s : t) :
  gaveUp s ->
  onClose s = s
  /\ onError s = s
  /\ (forall ticks,
        let s' := sendAll ticks s in
        gaveUp s'
        /\ messageQueue s' = messageQueue s ++ (formatTick <$> ticks)
        /\ getQueuedMessageCount s' = (getQueuedMessageCount s + length ticks)%nat
        /\ socket s' = socket s).
Proof.
  intros Hg. split; [|split].
  - unfold onClose. rewrite gaveUp_down by done. by apply gaveUp_handleDisconnection.
  - unfold onError. rewrite gaveUp_down by done.
    destruct (_ =? _)%nat; [done|]. by apply gaveUp_handleDisconnection.
  - intros ticks. cbv zeta.
    destruct Hg as (Hc & Ht & Hmax).
    destruct (sendAll_disconnected ticks s Hc) as (Hq & Hsock & Hdown).
    assert (reconnectTimer (sendAll ticks s) = reconnectTimer s
            /\ reconnectAttempts (sendAll ticks s) = reconnectAttempts s
            /\ config (sendAll ticks s) = config s) as (Et & Ea & Ecfg).
    { clear Hq Hsock Hdown Ht Hmax. revert s Hc.
      induction ticks as [|tk ticks IH]; intros s Hc; [done|].
      unfold sendAll. cbn [fold_left]. fold (sendAll ticks (sendTick Stays tk s)).
      destruct (sendTick_disconnected Stays tk s Hc) as (_ & _ & Hc' & E1 & E2 & E3).
      destruct (IH _ Hc') as (-> & -> & ->). done. }
    split; [|split; [done|split; [|done]]].
    + unfold gaveUp. by rewrite Et, Ea, Ecfg.
    + unfold getQueuedMessageCount. rewrite Hq, length_app, length_fmap. done.
Qed.

(** ** Nothing is lost while writes leave the connection alone *)

Lemma written_handleDisconnection s : written (handleDisconnection s) = written s.
Proof. unfold written. by rewrite socket_handleDisconnection. Qed.

Lemma wrote_step ev s :
  (isConnected s = true -> hasSocket s = true) -> emptied s ->
  enabled ev s = true -> quiet ev -> dated ev ->
  wrote ev s ++ (line <$> messageQueue (step ev s)) =
    (line <$> messageQueue s)
    ++ (line <$> (formatTick <$> sentTicks [ev])).
Proof.
  intros Hsock Hinv Hen Hq Hd.
  destruct ev as [e tk| |effects| | |]; cbn [step enabled quiet dated wrote] in *.
  - subst e. unfold sendTick. rewrite Hd.
    destruct (isConnected s) eqn:Hc; cbn [andb].
    + pose proof (Hsock eq_refl) as Hs. rewrite Hs.
      rewrite messageQueue_write, (Hinv Hc). cbn.
      unfold written, write, afterWrite. cbn [socket].
      unfold hasSocket in Hs. destruct (socket s) as [sock|]; [|done].
      cbn. rewrite drop_app_length. by rewrite app_nil_r.
    + unfold enqueue. cbn [messageQueue socket written]. unfold written. cbn [socket].
      rewrite drop_all. cbn. by rewrite fmap_app.
  - cbn. by rewrite app_nil_r.
  - unfold hasSocket in Hen. destruct (socket s) as [sock|] eqn:Hsk; [|done].
    destruct (onConnect_spec effects s sock Hsk Hq) as (Hw & He & _).
    rewrite Hw, He. unfold written at 1. rewrite Hsk.
    rewrite drop_app_length. cbn. by rewrite !app_nil_r.
  - unfold onClose. rewrite written_handleDisconnection, messageQueue_handleDisconnection.
    unfold written. cbn [setConnected socket messageQueue].
    rewrite drop_all. cbn. by rewrite app_nil_r.
  - unfold onError. cbn [setConnected reconnectAttempts].
    destruct (_ =? _)%nat;
      rewrite ?written_handleDisconnection, ?messageQueue_handleDisconnection;
      unfold written; cbn [socket messageQueue]; rewrite drop_all; cbn;
      by rewrite app_nil_r.
  - cbn. by rewrite app_nil_r.
Qed.

Lemma wire_run evs s :
  reachable s -> emptied s -> possible evs s ->
  Forall quiet evs -> Forall dated evs ->
  wire evs s ++ (line <$> messageQueue (runEvents evs s)) =
    (line <$> messageQueue s) ++ (line <$> (formatTick <$> sentTicks evs)).
Proof.
  revert s. induction evs as [|ev evs IH]; intros s Hr He Hp Hq Hd.
  { cbn. by rewrite app_nil_r. }
  destruct Hp as [Hen Hp]. inversion Hq as [|? ? Hq1 Hq2]; subst.
  inversion Hd as [|? ? Hd1 Hd2]; subst.
  destruct (reachable_invariant s Hr) as [Hsock _].
  cbn [wire runEvents fold_left]. fold (runEvents evs (step ev s)).
  rewrite <- app_assoc, IH
    by (done || by apply reach_step || by apply emptied_step).
  rewrite app_assoc, wrote_step by done.
  rewrite <- app_assoc. f_equal.
  rewrite <- !fmap_app. f_equal. f_equal.
  unfold sentTicks. cbn [omap list_omap]. by destruct ev.
Qed.

(** As long as no write runs a handler of the socket (a [net.Socket]
    reports failures later, through its events) and the timestamp of
    every tick is a valid date, no tick is lost, repeated or overtaken,
    whatever the connection does: after any sequence of [sendTick] and
    [connect] calls, socket events and timer callbacks, the records
    written so far followed by the records still queued are the
    encodings of the ticks passed to [sendTick], one for each and in
    call order. *)
Theorem no_tick_lost_or_reordered (cfg : TcpSenderConfig) (evs : list Event) :
  possible evs (new cfg) ->
  Forall quiet evs ->
  Forall dated evs ->
  wire evs (new cfg) ++ (line <$> messageQueue (runEvents evs (new cfg))) =
    line <$> (formatTick <$> sentTicks evs).
Proof.
  intros Hp Hq Hd. rewrite wire_run by (done || constructor). done.
Qed.

(** ** A date that is not valid *)

(** A tick whose timestamp is not a valid date (NaN, infinite, or beyond
    8.64e15 ms), sent while the sender is connected, is written to the
    socket and, because logging it throws, put on the queue as well, and
    [handleDisconnection] runs although the connection is up: with no
    timer pending and an attempt left, one attempt is counted and the
    reconnect timer is set while the sender stays connected.  When the
    timer fires the sender opens a second socket, and when that socket
    connects the queue is flushed to it: the record is sent a second
    time. *)
Theorem invalid_date_record_sent_twice (s : t) (tk : TickGenerator.PriceTick)
    (sock : Socket) :
  isConnected s = true ->
  socket s = Some sock ->
  reconnectTimer s = false ->
  (Z.of_nat (reconnectAttempts s) < maxReconnectAttempts (config s))%Z ->
  validDate (TickGenerator.timestamp tk) = false ->
  let s1 := sendTick Stays tk s in
  let s2 := onConnect [] (onTimer s1) in
  written s1 = sock ++ [line (formatTick tk)]
  /\ messageQueue s1 = messageQueue s ++ [formatTick tk]
  /\ isConnected s1 = true
  /\ reconnectAttempts s1 = S (reconnectAttempts s)
  /\ enabled TimerFires s1 = true
  /\ written s2 = line <$> (messageQueue s ++ [formatTick tk])
  /\ messageQueue s2 = [].
Proof.
  intros Hc Hsock Ht Hmax Hbad. cbv zeta.
  assert (sendTick Stays tk s =
          {| config := config s; socket := Some (sock ++ [line (formatTick tk)]);
             reconnectAttempts := S (reconnectAttempts s);
             isConnected := true; reconnectTimer := true;
             messageQueue := messageQueue s ++ [formatTick tk] |}) as ->.
  { unfold sendTick, hasSocket. rewrite Hc, Hsock, Hbad. cbn [andb].
    unfold write, afterWrite, enqueue, handleDisconnection.
    cbn [config socket reconnectAttempts isConnected reconnectTimer messageQueue].
    rewrite Hsock, Ht.
    assert ((maxReconnectAttempts (config s) <=? Z.of_nat (reconnectAttempts s))%Z
            = false) as -> by (apply Z.leb_gt; lia).
    by rewrite Hc. }
  cbn [written socket messageQueue isConnected reconnectAttempts enabled
       reconnectTimer].
  repeat (split; [done|]).
  match goal with |- context [onConnect [] ?x] =>
    destruct (onConnect_spec [] x [] eq_refl (List.Forall_nil _)) as (Hw & Hq & _) end.
  split; [exact Hw|exact Hq].
Qed.

(** ** [disconnect] *)

(** [disconnect] does not stop the reconnection logic.  For a connected
    sender that has a reconnection attempt left: after [disconnect()],
    which leaves the queue and the connection flag as they are, the
    ['close'] event of the ended socket marks the sender disconnected
    and sets the reconnect timer, with one more attempt counted; when
    the timer fires and the new socket connects, the sender is connected
    again. *)
Theorem disconnect_then_close_reconnects (s : t) :
  isConnected s = true ->
  (Z.of_nat (reconnectAttempts s) < maxReconnectAttempts (config s))%Z ->
  isConnectionActive (disconnect s) = true
  /\ reconnectTimer (disconnect s) = false
  /\ (let closed := onClose (disconnect s) in
      isConnectionActive closed = false
      /\ reconnectTimer closed = true
      /\ reconnectAttempts closed = S (reconnectAttempts s)
      /\ enabled TimerFires closed = true
      /\ isConnectionActive (onConnect [] (onTimer closed)) = true).
Proof.
  intros Hc Hmax.
  split; [done|]. split; [done|]. cbv zeta.
  unfold onClose, handleDisconnection, disconnect.
  cbn [setConnected reconnectTimer reconnectAttempts config].
  assert ((maxReconnectAttempts (config s) <=? Z.of_nat (reconnectAttempts s))%Z
          = false) as -> by (apply Z.leb_gt; lia).
  cbn [isConnectionActive isConnected reconnectTimer reconnectAttempts enabled].
  repeat split.
  unfold onConnect, onTimer, connect, flushMessageQueue.
  cbn [messageQueue]. destruct (_ =? _)%nat; [done|].
  cbn [isConnected]. rewrite drain_stays by constructor. done.
Qed.

End WithNumber.
End SenderGuarantees.

Module PriceHistory.
Import MessageValidator MessageValidatorFacts IngestorService.
Section WithNumber.
Context {J : JSNumber}.

(** The map after the prices of the ticks [ticks] have been recorded, in
    order. *)
Definition record (m : gmap (list N) number) (ticks : list PriceTick)
    : gmap (list N) number :=
  fold_left (fun acc tk => <[ric tk := price tk]> acc) ticks m.

Lemma record_snoc m ticks tk :
  record m (ticks ++ [tk]) = <[ric tk := price tk]> (record m ticks).
Proof. unfold record. by rewrite fold_left_app. Qed.

Lemma record_lookup m ticks x :
  record m ticks !! x =
    match last (filter (fun tk => ric tk = x) ticks) with
    | Some tk => Some (price tk)
    | None => m !! x
    end.
Proof.
  induction ticks as [|tk ticks IH] using rev_ind; [done|].
  rewrite record_snoc, filter_app. cbn [filter list_filter].
  destruct (decide (ric tk = x)) as [<-|Hne].
  - rewrite lookup_insert_eq. cbn. by rewrite last_snoc.
  - rewrite lookup_insert_ne by done. cbn. by rewrite app_nil_r.
Qed.

Lemma record_size m ticks : (size (record m ticks) <= size m + length ticks)%nat.
Proof.
  induction ticks as [|tk ticks IH] using rev_ind; [cbn; lia|].
  rewrite record_snoc, length_app. cbn [length].
  destruct (record m ticks !! ric tk) eqn:Hl.
  - rewrite map_size_insert_Some by done. lia.
  - rewrite map_size_insert_None by done. lia.
Qed.

Lemma handleMessage_prices s nowV nowE m :
  lastPrices (validator (handleMessage s nowV nowE m).2) =
    record (lastPrices (validator s))
           (base <$> option_list (handleMessage s nowV nowE m).1).
Proof.
  unfold handleMessage.
  destruct (validateMessage_cases (validator s) nowV (data m))
    as [(errs & Hne & ->)|[tk Hwf]]; [done|].
  rewrite (validateMessage_wellFormed _ _ _ _ Hwf).
  destruct (validateBusinessRules (validator s) tk []) as [w errs].
  destruct errs; cbn; done.
Qed.

Lemma run_prices s inputs :
  lastPrices (validator (run s inputs).2) =
    record (lastPrices (validator s)) (base <$> (run s inputs).1).
Proof.
  revert s. induction inputs as [|[[nowV nowE] m] inputs IH]; intros s; [done|].
  cbn [run]. pose proof (handleMessage_prices s nowV nowE m) as Hh.
  destruct (handleMessage s nowV nowE m) as [o s1].
  specialize (IH s1). destruct (run s1 inputs) as [os s2].
  cbn [fst snd] in *. rewrite IH, Hh. unfold record.
  destruct o; cbn; done.
Qed.

(** After a service has handled any sequence of messages, the last-price
    map of its validator is the map it started with, updated with the
    price of every tick handed to the publisher, in order: an instrument
    is bound to the price of its most recent accepted tick, or to what it
    was bound to before when none of its ticks was accepted.  The number
    of tracked symbols grows by at most the number of accepted ticks, and
    [clearPriceHistory] brings it back to zero. *)
Theorem last_prices_follow_accepted_ticks (s : IngestorService.t)
    (inputs : list (Z * Z * RawMessage)) :
  let accepted := base <$> (run s inputs).1 in
  let v := validator s in
  let v' := validator (run s inputs).2 in
  getLastPrices v' = record (getLastPrices v) accepted
  /\ (forall x,
        getLastPrices v' !! x =
          match last (filter (fun tk => ric tk = x) accepted) with
          | Some tk => Some (price tk)
          | None => getLastPrices v !! x
          end)
  /\ (trackedSymbols (getValidationStats v')
        <= trackedSymbols (getValidationStats v) + length accepted)%nat
  /\ trackedSymbols (getValidationStats (clearPriceHistory v')) = 0%nat.
Proof.
  cbv zeta. unfold getLastPrices, getValidationStats. cbn [trackedSymbols].
  rewrite run_prices. split; [done|]. split; [apply record_lookup|].
  split; [apply record_size|]. done.
Qed.

End WithNumber.
End PriceHistory.

Module LenientInput.
Import JS JSFacts WireFacts MessageValidator MessageValidatorFacts CodecFacts.
Import FramerGuarantees.
Section WithNumber.
Context {J : JSNumber}.

(** ** Line terminators *)

Lemma removeNewlines_crlf s : removeNewlines (s ++ [CR; LF]) = removeNewlines s.
Proof.
  assert (forall n s, (length s <= n)%nat ->
            removeNewlines (s ++ [CR; LF]) = removeNewlines s) as H;
    [|by apply (H (length s))].
  clear s. induction n as [|n IH]; intros [|x t] Hn; try done.
  { cbn [length] in Hn. lia. }
  cbn [length] in Hn. cbn [app]. rewrite !removeNewlines_cons.
  destruct (N.eqb_spec x LF) as [->|Hx]; [apply IH; lia|].
  destruct t as [|d u].
  - cbn [app]. change (CR =? LF) with false. rewrite andb_false_r. done.
  - cbn [app length] in *. destruct ((x =? CR) && (d =? LF)).
    + apply IH. lia.
    + f_equal. apply (IH (d :: u)). cbn [length]. lia.
Qed.

Lemma removeNewlines_lf s :
  removeNewlines (s ++ [LF]) = removeNewlines s
  \/ exists r, removeNewlines s = r ++ [CR] /\ removeNewlines (s ++ [LF]) = r.
Proof.
  assert (forall n s, (length s <= n)%nat ->
            removeNewlines (s ++ [LF]) = removeNewlines s
            \/ exists r, removeNewlines s = r ++ [CR]
                         /\ removeNewlines (s ++ [LF]) = r) as H;
    [|by apply (H (length s))].
  clear s. induction n as [|n IH]; intros [|x t] Hn; try (by left).
  { cbn [length] in Hn. lia. }
  cbn [length] in Hn. cbn [app]. rewrite !removeNewlines_cons.
  destruct (N.eqb_spec x LF) as [->|Hx]; [apply IH; lia|].
  destruct t as [|d u].
  - cbn [app]. change (LF =? LF) with true. rewrite andb_true_r.
    destruct (N.eqb_spec x CR) as [->|Hc].
    + right. by exists [].
    + left. done.
  - cbn [app length] in *. destruct ((x =? CR) && (d =? LF)).
    + apply IH. lia.
    + assert (length (d :: u) <= n)%nat as Hlen by (cbn [length]; lia).
      pose proof (IH (d :: u) Hlen) as IHd. cbn [app] in IHd.
      destruct IHd as [->|(r & Hr & ->)]; [by left|].
      right. exists (x :: r). by rewrite Hr.
Qed.

Lemma trimStart_app a b : trimStart b = b -> trimStart (a ++ b) = trimStart a ++ b.
Proof.
  intros Hb. induction a as [|c a IH]; [done|]. cbn [app trimStart].
  by destruct (isWhiteSpace c).
Qed.

Lemma trimEnd_app a b : trimStart (rev a) = rev a -> trimEnd (a ++ b) = a ++ trimEnd b.
Proof.
  intros Ha. unfold trimEnd. rewrite rev_app_distr, trimStart_app by done.
  by rewrite rev_app_distr, rev_involutive.
Qed.

Lemma trimStart_nil_app a b : trimStart a = [] -> trimStart (a ++ b) = trimStart b.
Proof.
  induction a as [|c a IH]; [done|]. cbn [app trimStart].
  by destruct (isWhiteSpace c).
Qed.

Lemma trimStart_cons_app a b x r : trimStart a = x :: r -> trimStart (a ++ b) = x :: r ++ b.
Proof.
  induction a as [|c a IH]; [done|]. cbn [app trimStart].
  destruct (isWhiteSpace c); [done|]. by intros [= -> ->].
Qed.

Lemma trim_snoc_ws r c : isWhiteSpace c = true -> trim (r ++ [c]) = trim r.
Proof.
  intros Hc. unfold trim.
  destruct (trimStart r) as [|x r'] eqn:Hr.
  - rewrite trimStart_nil_app by done. cbn. by rewrite Hc.
  - rewrite (trimStart_cons_app _ _ _ _ Hr).
    unfold trimEnd. change (x :: r' ++ [c]) with ((x :: r') ++ [c]).
    rewrite rev_app_distr. cbn [rev app trimStart]. by rewrite Hc.
Qed.

Lemma clean_line_feed raw :
  trim (removeNewlines (raw ++ [LF])) = trim (removeNewlines raw)
  /\ trim (removeNewlines (raw ++ [CR; LF])) = trim (removeNewlines raw).
Proof.
  split; [|by rewrite removeNewlines_crlf].
  destruct (removeNewlines_lf raw) as [->|(r & -> & ->)]; [done|].
  by rewrite trim_snoc_ws.
Qed.

Lemma clean_idem raw :
  trim (removeNewlines (trim (removeNewlines raw))) = trim (removeNewlines raw).
Proof.
  rewrite removeNewlines_noLF; [apply trim_idem|].
  apply noLF_count.
  assert (count LF (removeNewlines raw) = 0%nat) as H.
  { clear. assert (forall n s, (length s <= n)%nat -> count LF (removeNewlines s) = 0%nat) as H;
      [|by apply (H (length raw))].
    induction n as [|n IH]; intros [|x t] Hn; try done.
    { cbn [length] in Hn. lia. }
    cbn [length] in Hn. rewrite removeNewlines_cons.
    destruct (N.eqb_spec x LF) as [->|Hx]; [apply IH; lia|].
    destruct t as [|d u].
    - cbn [count]. by destruct (N.eqb_spec x LF).
    - cbn [length] in Hn. destruct ((x =? CR) && (d =? LF)); [apply IH; lia|].
      rewrite count_cons. destruct (N.eqb_spec x LF); [done|].
      apply (IH (d :: u)). cbn [length]. lia. }
  pose proof (count_trim_le LF (removeNewlines raw)). lia.
Qed.

Lemma validateMessage_clean v now a b :
  trim (removeNewlines a) = trim (removeNewlines b) ->
  validateMessage v now a = validateMessage v now b.
Proof. intros H. unfold validateMessage. by rewrite H. Qed.

(** [validateMessage] judges a message by its cleaned text alone: a line
    terminator at its end, ["\n"] or ["\r\n"], makes no difference to the
    result, to the state or to what is logged, and neither does cleaning
    the message beforehand. *)
Theorem line_terminator_ignored (v : t) (now : Z) (rawMessage : list N) :
  validateMessage v now (rawMessage ++ [LF]) = validateMessage v now rawMessage
  /\ validateMessage v now (rawMessage ++ [CR; LF]) = validateMessage v now rawMessage
  /\ validateMessage v now (trim (removeNewlines rawMessage))
       = validateMessage v now rawMessage.
Proof.
  destruct (clean_line_feed rawMessage) as [H1 H2].
  split; [by apply validateMessage_clean|].
  split; [by apply validateMessage_clean|].
  apply validateMessage_clean, clean_idem.
Qed.

(** ** What follows the digits of a timestamp *)

Lemma trimStart_snoc_cases l c :
  trimStart (l ++ [c]) = [] \/ exists pre, trimStart (l ++ [c]) = pre ++ [c].
Proof.
  induction l as [|x l IH].
  - cbn. destruct (isWhiteSpace c); [by left|right; by exists []].
  - cbn [app trimStart]. destruct (isWhiteSpace x); [done|].
    right. by exists (x :: l).
Qed.

Lemma startsWithDigit_trimEnd s :
  startsWithDigit s = false -> startsWithDigit (trimEnd s) = false.
Proof.
  destruct s as [|c t]; [done|]. cbn [startsWithDigit]. intros Hc.
  unfold trimEnd. cbn [rev].
  destruct (trimStart_snoc_cases (rev t) c) as [->|[pre ->]]; [done|].
  rewrite rev_app_distr. done.
Qed.

Lemma digits_trimmed ds :
  ds <> [] -> forallb isDigit ds = true ->
  trimStart ds = ds /\ trimStart (rev ds) = rev ds.
Proof.
  intros Hne Hd.
  assert (noWS ds = true) as Hws.
  { revert Hd. apply forallb_impl. intros c Hc. by rewrite isDigit_not_ws. }
  split; apply trimStart_noWS; [done|by rewrite noWS_rev].
Qed.

Lemma parseInt_prefix n junk :
  startsWithDigit junk = false ->
  parseInt (N_toString n ++ junk) = Some (Z.of_N n).
Proof.
  intros Hj. unfold parseInt.
  pose proof (N_toString_nonempty n) as Hne.
  pose proof (N_toString_digits n) as Hd.
  unfold N_toString in *.
  destruct (uintCodes (N.to_uint n)) as [|c t] eqn:Hu; [done|].
  cbn [forallb] in Hd. apply andb_true_iff in Hd as [Hc _].
  cbn [app trimStart]. rewrite (isDigit_not_ws _ Hc).
  assert ((c =? MINUS) = false /\ (c =? PLUS) = false) as [-> ->].
  { apply isDigit_cases in Hc. by repeat destruct Hc as [->|Hc]; [..|subst]. }
  change (c :: t ++ junk) with ((c :: t) ++ junk).
  rewrite <- Hu, spanDigits_uintCodes by done.
  pose proof (to_uint_nonnil n).
  rewrite DecimalN.Unsigned.of_to.
  by destruct (N.to_uint n).
Qed.

(** The timestamp field is read with [parseInt], which stops at the
    first character that is not a digit: a timestamp the validator
    accepts is accepted with the same value when anything that does not
    begin with a digit follows it in the field (a fraction, letters, a
    second number after a space). *)
Theorem timestamp_suffix_ignored (v : t) (now ts : Z) (junk : list N)
    (errs : list ValidationError) :
  timestampInWindow v now ts ->
  startsWithDigit junk = false ->
  validateTimestamp v now (Z_toString ts ++ junk) errs = (Some ts, errs).
Proof.
  intros ([H1 H2] & H3 & H4) Hj.
  destruct ts as [|p|p]; [unfold minTimestamp in H1; lia| |unfold minTimestamp in H1; lia].
  cbn [Z_toString].
  pose proof (N_toString_nonempty (Npos p)) as Hne.
  pose proof (N_toString_digits (Npos p)) as Hd.
  destruct (digits_trimmed _ Hne Hd) as [Hs He].
  assert (trim (N_toString (Npos p) ++ junk) = N_toString (Npos p) ++ trimEnd junk) as Htrim.
  { unfold trim.
    assert (trimStart (N_toString (N.pos p) ++ junk) = N_toString (N.pos p) ++ junk) as ->.
    { destruct (N_toString (N.pos p)) as [|c t] eqn:E; [done|].
      cbn [app trimStart]. cbn [forallb] in Hd.
      apply andb_true_iff in Hd as [Hc _]. by rewrite (isDigit_not_ws _ Hc). }
    by apply trimEnd_app. }
  unfold validateTimestamp, blank. rewrite Htrim.
  assert (isEmpty (N_toString (N.pos p) ++ junk) = false) as ->
    by (by destruct (N_toString (N.pos p))).
  assert (isEmpty (N_toString (N.pos p) ++ trimEnd junk) = false) as ->
    by (by destruct (N_toString (N.pos p))).
  cbn [orb]. rewrite parseInt_prefix by (by apply startsWithDigit_trimEnd).
  change (Z.of_N (N.pos p)) with (Z.pos p).
  assert ((Z.pos p <? minTimestamp)%Z = false) as -> by (apply Z.ltb_ge; lia).
  assert ((maxTimestamp <? Z.pos p)%Z = false) as -> by (apply Z.ltb_ge; lia).
  cbn [orb]. rewrite H3.
  assert ((now + 60000 <? Z.pos p)%Z = false) as -> by (apply Z.ltb_ge; lia).
  done.
Qed.

End WithNumber.
End LenientInput.

Module GeneratorFacts.
Import JS JSFacts WireFacts MessageValidator MessageValidatorFacts CodecFacts.
Import ValidatorGuarantees.
Section WithNumber.
Context {J : JSNumber}.

Lemma streq_eq a b : streq a b = true -> a = b.
Proof.
  revert b. induction a as [|x a IH]; intros [|y b]; try done.
  cbn [streq]. intros H. apply andb_true_iff in H as [Hx Hab].
  apply N.eqb_eq in Hx. subst. f_equal. by apply IH.
Qed.

(** A string without lower-case letters is not the name of a member of
    [Object.prototype]. *)
Lemma upper_not_inherited key :
  forallb isUpperRicChar key = true ->
  existsb (streq key) objectPrototypeKeys = false.
Proof.
  intros Hk. apply not_true_iff_false. intros H.
  apply existsb_exists in H as (k & Hin & Heq).
  apply streq_eq in Heq. subst k.
  assert (Forall (fun k => forallb isUpperRicChar k = false) objectPrototypeKeys) as Hall
    by (repeat constructor).
  rewrite Forall_forall in Hall. apply list_elem_of_In in Hin.
  specialize (Hall _ Hin). congruence.
Qed.

Lemma ownProperty_value props key v :
  ownProperty props key = Some v -> v ∈ props.*2.
Proof.
  induction props as [|[k w] props IH]; [done|]. cbn [ownProperty fmap list_fmap].
  destruct (streq k key); [intros [= ->]; left|intros H; right; auto].
Qed.

(** An upper-case code of 2 to 20 RIC characters is accepted by
    [validateRic] as it is. *)
Lemma validateRic_upper r :
  forallb isUpperRicChar r = true -> (2 <= length r <= 20)%nat ->
  validateRic r [] = (Some r, []).
Proof.
  intros Hc Hlen. destruct (normal_ricShape _ Hc Hlen) as [Hshape Hfix].
  rewrite (validateRic_shape _ [] Hshape). by rewrite Hfix.
Qed.

Lemma forallb_app_true {A} (f : A -> bool) a b :
  forallb f a = true -> forallb f b = true -> forallb f (a ++ b) = true.
Proof. intros Ha Hb. by rewrite forallb_app, Ha, Hb. Qed.

(** The instrument code the CSV replay gives to a file named after a
    symbol of at most 18 RIC characters is a string that the validator
    of the ingestor accepts as it is: one of the thirteen mapped codes
    for a mapped symbol, and otherwise the symbol in upper case followed
    by [.O]. *)
Theorem createRic_accepted (symbol : list N) :
  forallb isRicChar symbol = true ->
  (length symbol <= 18)%nat ->
  exists r,
    CsvReplay.createRic symbol = Text r
    /\ validateRic r [] = (Some r, [])
    /\ (r ∈ CsvReplay.ricMappings.*2
        \/ ownProperty CsvReplay.ricMappings (toUpperCase symbol) = None
           /\ r = toUpperCase symbol ++ lit ".O").
Proof.
  intros Hc Hlen. pose proof (toUpperCase_ric _ Hc) as Hup.
  unfold CsvReplay.createRic, getOr, getProperty.
  destruct (ownProperty _ _) as [v|] eqn:Hown.
  - apply ownProperty_value in Hown.
    assert (Forall (fun v => isEmpty v = false /\ validateRic v [] = (Some v, []))
                   CsvReplay.ricMappings.*2) as Hall
      by (repeat constructor).
    rewrite Forall_forall in Hall. destruct (Hall _ Hown) as [-> Hv].
    exists v. auto.
  - rewrite upper_not_inherited by done.
    exists (toUpperCase symbol ++ lit ".O"). split; [done|]. split; [|auto].
    apply validateRic_upper.
    + by apply forallb_app_true.
    + rewrite length_app. unfold toUpperCase. rewrite length_map. cbn. lia.
Qed.

(** The instrument code the Binance relay gives to a symbol of 1 to 19
    upper-case RIC characters is a string that the validator accepts as
    it is: the mapped code of one of the twenty mapped pairs, and
    otherwise the symbol followed by [=].  The symbol is looked up as it
    arrives, so a symbol that is the name of a member of
    [Object.prototype] yields that member and not a string. *)
Theorem binanceSymbolToRic_accepted :
  (forall symbol,
     forallb isUpperRicChar symbol = true ->
     (1 <= length symbol <= 19)%nat ->
     exists r,
       BinanceRelay.binanceSymbolToRic symbol = Text r
       /\ validateRic r [] = (Some r, [])
       /\ (r ∈ BinanceRelay.cryptoMappings.*2
           \/ ownProperty BinanceRelay.cryptoMappings symbol = None
              /\ r = symbol ++ lit "="))
  /\ Forall (fun key => BinanceRelay.binanceSymbolToRic key = Member)
            objectPrototypeKeys.
Proof.
  split; [|repeat constructor].
  intros symbol Hup Hlen.
  unfold BinanceRelay.binanceSymbolToRic, getOr, getProperty.
  destruct (ownProperty _ _) as [v|] eqn:Hown.
  - apply ownProperty_value in Hown.
    assert (Forall (fun v => isEmpty v = false /\ validateRic v [] = (Some v, []))
                   BinanceRelay.cryptoMappings.*2) as Hall
      by (repeat constructor).
    rewrite Forall_forall in Hall. destruct (Hall _ Hown) as [-> Hv].
    exists v. auto.
  - rewrite upper_not_inherited by done.
    exists (symbol ++ lit "="). split; [done|]. split; [|auto].
    apply validateRic_upper.
    + by apply forallb_app_true.
    + rewrite length_app. cbn. lia.
Qed.

End WithNumber.
End GeneratorFacts.

Module CategoryFacts.
Import JS JSFacts WireFacts Messages IngestorPipeline.

(** ** [includes] *)

(** The code unit [c] does not occur in [kw]. *)
Definition lacks (c : N) (kw : list N) : bool := forallb (fun x => negb (x =? c)) kw.

Lemma startsWith_app kw a b : startsWith kw a = true -> startsWith kw (a ++ b) = true.
Proof.
  revert a. induction kw as [|x kw IH]; intros [|y a]; try done.
  cbn [startsWith app]. intros H. apply andb_true_iff in H as [-> H]. by apply IH.
Qed.

Lemma includes_app_l kw a b : includes kw a = true -> includes kw (a ++ b) = true.
Proof.
  induction a as [|y a IH].
  - cbn [includes]. rewrite orb_false_r. intros H. destruct kw; [|done].
    by destruct b.
  - cbn [includes app]. intros H. apply orb_true_iff in H as [H|H].
    + change (y :: a ++ b) with ((y :: a) ++ b). by rewrite startsWith_app.
    + rewrite IH by done. apply orb_true_r.
Qed.

Lemma includes_app_r kw a b : includes kw b = true -> includes kw (a ++ b) = true.
Proof.
  intros H. induction a as [|y a IH]; [done|].
  cbn [includes app]. rewrite IH. apply orb_true_r.
Qed.

Lemma startsWith_sep kw a c b :
  lacks c kw = true -> startsWith kw (a ++ c :: b) = startsWith kw a.
Proof.
  revert a. induction kw as [|x kw IH]; intros a Hc; [by destruct a|].
  cbn [lacks forallb] in Hc. apply andb_true_iff in Hc as [Hx Hkw].
  apply negb_true_iff in Hx.
  destruct a as [|y a]; cbn [app startsWith]; [by rewrite Hx|].
  by rewrite IH.
Qed.

(** An occurrence of [kw] cannot run across a code unit that [kw] does
    not contain. *)
Lemma includes_sep kw a c b :
  lacks c kw = true ->
  includes kw (a ++ c :: b) = includes kw a || includes kw b.
Proof.
  intros Hc. induction a as [|y a IH].
  - cbn [app]. destruct kw as [|x kw]; [by destruct b|].
    cbn [includes startsWith]. cbn [lacks forallb] in Hc.
    apply andb_true_iff in Hc as [Hx _]. apply negb_true_iff in Hx. by rewrite Hx.
  - cbn [app includes].
    change (y :: a ++ c :: b) with ((y :: a) ++ c :: b).
    rewrite startsWith_sep, IH by done. by rewrite orb_assoc.
Qed.

(** The same for a run of such code units that is not empty. *)
Lemma includes_run kw a p b :
  p <> [] -> forallb (fun c => lacks c kw) p = true ->
  includes kw (a ++ p ++ b) = includes kw a || includes kw b.
Proof.
  intros Hne Hp. destruct p as [|c p]; [done|]. clear Hne.
  cbn [forallb] in Hp. apply andb_true_iff in Hp as [Hc Hp].
  cbn [app]. rewrite includes_sep by done. f_equal.
  induction p as [|d p IH]; [done|].
  cbn [forallb] in Hp. apply andb_true_iff in Hp as [Hd Hp].
  cbn [app]. change (d :: p ++ b) with ([] ++ d :: (p ++ b)).
  rewrite (includes_sep kw [] d) by done.
  rewrite IH by done. destruct kw; [by destruct b|done].
Qed.

(** ** The digits of integers and the six key words *)

Definition keywords : list (list N) :=
  lit <$> ["RIC"; "price"; "timestamp"; "format"; "deviation"; "bid/ask"]%string.

Definition numeric (c : N) : bool := isDigit c || (c =? MINUS).

Lemma numeric_lacks c :
  numeric c = true -> forallb (lacks c) keywords = true.
Proof.
  unfold numeric. intros H. apply orb_true_iff in H as [H|H].
  - apply isDigit_cases in H. by repeat destruct H as [->|H]; [..|subst].
  - apply N.eqb_eq in H. by subst.
Qed.

Lemma Z_toString_numeric z : forallb numeric (Z_toString z) = true.
Proof.
  assert (forall n, forallb numeric (N_toString n) = true) as HN.
  { intros n. pose proof (N_toString_digits n) as Hd. revert Hd.
    apply forallb_impl. intros c Hc. unfold numeric. by rewrite Hc. }
  destruct z as [|p|p]; [done|apply HN|]. cbn [Z_toString forallb]. by rewrite HN.
Qed.

Lemma Z_toString_nonempty z : Z_toString z <> [].
Proof.
  destruct z as [|p|p]; [done| |done]. apply N_toString_nonempty.
Qed.

Lemma numeric_run kw p :
  kw ∈ keywords -> forallb numeric p = true ->
  forallb (fun c => lacks c kw) p = true.
Proof.
  intros Hkw. apply forallb_impl. intros c Hc.
  pose proof (numeric_lacks c Hc) as Hall.
  rewrite forallb_forall in Hall. apply Hall. by apply list_elem_of_In.
Qed.

(** A key word occurs in a text in which an integer is quoted only if it
    occurs before or after the integer. *)
Lemma includes_integer kw a z b :
  kw ∈ keywords ->
  includes kw (a ++ Z_toString z ++ b) = includes kw a || includes kw b.
Proof.
  intros Hkw. apply includes_run; [apply Z_toString_nonempty|].
  apply numeric_run; [done|apply Z_toString_numeric].
Qed.

Lemma includes_count kw a n b :
  kw ∈ keywords ->
  includes kw (a ++ ofNat n ++ b) = includes kw a || includes kw b.
Proof.
  intros Hkw. apply includes_run; [apply N_toString_nonempty|].
  apply numeric_run; [done|].
  pose proof (N_toString_digits (N.of_nat n)) as Hd. revert Hd.
  apply forallb_impl. intros c Hc. unfold numeric. by rewrite Hc.
Qed.

Ltac keyword := unfold keywords; cbn [fmap list_fmap]; set_solver.

Section WithNumber.
Context {J : JSNumber} {F : JSNumberFormat J}.

(** ** The categories of the validator's messages *)

(** [categorizeValidationError] on the messages of the validator whose
    category does not depend on what the client sent.  The four errors
    about the instrument code are filed under [invalid_ric], a missing
    price under [invalid_price] and a timestamp outside 2020-2030 under
    [invalid_timestamp]; but a missing timestamp, a timestamp that is
    too old and one that is too far in the future are filed under
    [other], as their texts begin with a capital T, and so are the empty
    message and the zero volume. *)
Theorem categories_of_validator_messages (cfg : IngestorConfig) :
  categorizeValidationError (text cfg RicRequired) = "invalid_ric"%string
  /\ (forall ric,
        categorizeValidationError (text cfg (RicTooShort ric)) = "invalid_ric"%string
        /\ categorizeValidationError (text cfg (RicTooLong ric)) = "invalid_ric"%string
        /\ categorizeValidationError (text cfg (RicInvalidFormat ric))
             = "invalid_ric"%string)
  /\ categorizeValidationError (text cfg (FieldRequired "price")) = "invalid_price"%string
  /\ (forall ts,
        categorizeValidationError (text cfg (TimestampOutOfRange ts))
          = "invalid_timestamp"%string)
  /\ categorizeValidationError (text cfg TimestampRequired) = "other"%string
  /\ (forall ts age,
        categorizeValidationError (text cfg (TimestampTooOld ts age)) = "other"%string)
  /\ (forall ts now,
        categorizeValidationError (text cfg (TimestampInFuture ts now)) = "other"%string)
  /\ categorizeValidationError (text cfg EmptyMessage) = "other"%string
  /\ categorizeValidationError (text cfg ZeroVolume) = "other"%string.
Proof.
  split; [done|]. split.
  { intros ric. unfold categorizeValidationError, text.
    rewrite !(includes_app_l (lit "RIC")) by done. done. }
  split; [done|]. split.
  { intros ts. unfold categorizeValidationError, text.
    rewrite !includes_integer by keyword. done. }
  split; [done|]. split.
  { intros ts age. unfold categorizeValidationError, text.
    rewrite !includes_integer by keyword.
    destruct (maxTimestampAge (validation cfg)) as [m|]; cbn [ofAge]; [|done].
    rewrite !includes_integer by keyword. done. }
  split.
  { intros ts now. unfold categorizeValidationError, text.
    rewrite <- (app_nil_r (Z_toString now)).
    rewrite !includes_integer by keyword. done. }
  done.
Qed.

(** The error of the deviation rule is never filed under
    [price_deviation]: its text contains [price], which is tested
    before [deviation], so it is filed under [invalid_price] (or under
    [invalid_ric], should the numbers it quotes spell RIC). *)
Theorem deviation_error_filed_as_price (cfg : IngestorConfig)
    (deviation lastPrice p : number) :
  let category :=
    categorizeValidationError (text cfg (SuspiciousPriceChange deviation lastPrice p)) in
  (category = "invalid_price"%string \/ category = "invalid_ric"%string)
  /\ String.eqb category "price_deviation" = false.
Proof.
  cbv zeta. unfold categorizeValidationError, text.
  rewrite (includes_app_l (lit "price")) by done.
  destruct (includes (lit "RIC") _); auto.
Qed.

(** The error for a line that does not have six fields quotes the line,
    and is filed by what the line says: under [invalid_ric],
    [invalid_price] or [invalid_timestamp] when the line contains [RIC],
    [price] or [timestamp], and under [invalid_format] only
    otherwise. *)
Theorem malformed_line_filed_by_content (cfg : IngestorConfig)
    (got : nat) (cleanMessage : list N) :
  categorizeValidationError (text cfg (InvalidFormat got cleanMessage)) =
    if includes (lit "RIC") cleanMessage then "invalid_ric"%string
    else if includes (lit "price") cleanMessage then "invalid_price"%string
    else if includes (lit "timestamp") cleanMessage then "invalid_timestamp"%string
    else "invalid_format"%string.
Proof.
  unfold categorizeValidationError, text.
  change (lit ". Message: ") with (lit ". Message:" ++ [SPACE]).
  rewrite <- (app_assoc (lit ". Message:")). cbn [app].
  rewrite !includes_count by keyword.
  rewrite !includes_sep by done. cbn [orb].
  change (includes (lit "RIC") (lit ". Message:")) with false.
  change (includes (lit "price") (lit ". Message:")) with false.
  change (includes (lit "timestamp") (lit ". Message:")) with false.
  change (includes (lit "RIC")
            (lit "Invalid message format. Expected 6 parts, got ")) with false.
  change (includes (lit "price")
            (lit "Invalid message format. Expected 6 parts, got ")) with false.
  change (includes (lit "timestamp")
            (lit "Invalid message format. Expected 6 parts, got ")) with false.
  change (includes (lit "format")
            (lit "Invalid message format. Expected 6 parts, got ")) with true.
  cbn [orb]. done.
Qed.

(** ** [handleValidationFailure] *)

Lemma countError_lookup counts error c :
  default 0%nat (countError counts error !! c) =
    (default 0%nat (counts !! c)
     + if decide (categorizeValidationError error = c) then 1 else 0)%nat.
Proof.
  unfold countError. destruct (decide (categorizeValidationError error = c)) as [<-|Hne].
  - rewrite lookup_insert_eq. cbn. lia.
  - rewrite lookup_insert_ne by done. lia.
Qed.

Lemma fold_countError_lookup errors counts c :
  default 0%nat (fold_left countError errors counts !! c) =
    (default 0%nat (counts !! c)
     + length (filter (fun e => categorizeValidationError e = c) errors))%nat.
Proof.
  revert counts. induction errors as [|e errors IH]; intros counts; [cbn; lia|].
  cbn [fold_left]. rewrite IH, countError_lookup, filter_cons.
  destruct (decide _); cbn [length]; lia.
Qed.

(** [handleValidationFailure] counts one failed message and every one of
    its errors: the count of each category grows by the number of the
    errors filed under it, a category that was absent counting as zero;
    the other counters are unchanged.  The failure is logged when the
    number of failures before it is a multiple of ten. *)
Theorem validation_failure_counted (errors : list (list N)) (m : ServiceMetrics) :
  let m' := (handleValidationFailure errors m).1 in
  messagesFailed m' = S (messagesFailed m)
  /\ (forall c,
        default 0%nat (validationErrors m' !! c) =
          (default 0%nat (validationErrors m !! c)
           + length (filter (fun e => categorizeValidationError e = c) errors))%nat)
  /\ messagesReceived m' = messagesReceived m
  /\ messagesProcessed m' = messagesProcessed m
  /\ messagesPublished m' = messagesPublished m
  /\ publishErrors m' = publishErrors m
  /\ (handleValidationFailure errors m).2 = (messagesFailed m mod 10 =? 0)%nat.
Proof.
  cbv zeta. cbn [handleValidationFailure fst snd messagesFailed validationErrors
                 messagesReceived messagesProcessed messagesPublished publishErrors].
  split; [done|]. split; [intros c; apply fold_countError_lookup|].
  repeat (split; [done|]).
  destruct (Nat.eqb_spec (messagesFailed m mod 10) 0) as [H0|H0];
    [apply Nat.eqb_eq|apply Nat.eqb_neq].
  - rewrite <- Nat.add_1_r, Nat.Div0.add_mod, H0 by lia. done.
  - intros H1. apply H0. clear H0.
    pose proof (Nat.mod_upper_bound (messagesFailed m) 10 ltac:(lia)) as Hb.
    rewrite <- Nat.add_1_r, Nat.Div0.add_mod in H1 by lia.
    remember (messagesFailed m mod 10)%nat as r.
    assert (r = 0 \/ r = 1 \/ r = 2 \/ r = 3 \/ r = 4 \/ r = 5 \/ r = 6
            \/ r = 7 \/ r = 8 \/ r = 9)%nat as Hr by lia.
    clear -H1 Hr. by repeat destruct Hr as [->|Hr]; [..|subst].
Qed.

End WithNumber.
End CategoryFacts.

Module PublisherFacts.
Import KafkaPublisher.

(** [n] calls of [publishTick], one after the other. *)
Fixpoint publishTimes (n : nat) (p : t) : t :=
  match n with
  | O => p
  | S n' => (publishTick (publishTimes n' p)).1
  end.

(** A publisher whose producer is not connected never recovers by
    publishing: [publishTick] sends nothing and fails with a
    [KAFKA_PUBLISH_ERROR] whose message says that the producer is not
    connected; that message contains neither [Connection] nor [timeout],
    so [handleConnectionError] is not entered: the call counts one error
    and changes nothing else, however often it is repeated. *)
Theorem disconnected_publisher_stays_down (p : t) :
  isConnected p = false ->
  publishTick p =
    ({| isConnected := false; publishCount := publishCount p;
        errorCount := S (errorCount p);
        reconnectAttempts := reconnectAttempts p |},
     Failing {| type := KAFKA_PUBLISH_ERROR;
                message := JS.lit "Failed to publish tick: Kafka producer is not connected" |})
  /\ forall n,
       let q := publishTimes n p in
       isConnectedToKafka q = false
       /\ reconnectAttempts q = reconnectAttempts p
       /\ getMetrics q = (publishCount p, (errorCount p + n)%nat).
Proof.
  intros Hdown.
  assert (forall q, isConnected q = false ->
            publishTick q =
              ({| isConnected := false; publishCount := publishCount q;
                  errorCount := S (errorCount q);
                  reconnectAttempts := reconnectAttempts q |},
               Failing {| type := KAFKA_PUBLISH_ERROR;
                          message := JS.lit "Failed to publish tick: Kafka producer is not connected" |}))
    as Hone.
  { intros q Hq. unfold publishTick. rewrite Hq. unfold caught.
    change (JS.includes (JS.lit "Connection") (JS.lit "Kafka producer is not connected"))
      with false.
    change (JS.includes (JS.lit "timeout") (JS.lit "Kafka producer is not connected"))
      with false.
    cbn [orb]. by rewrite Hq. }
  split; [by apply Hone|].
  intros n. cbv zeta. unfold isConnectedToKafka, getMetrics.
  induction n as [|n (IH1 & IH2 & IH3)].
  { cbn [publishTimes]. split; [done|]. split; [done|]. f_equal. lia. }
  cbn [publishTimes]. rewrite (Hone _ IH1).
  cbn [fst isConnected reconnectAttempts publishCount errorCount].
  injection IH3 as -> ->. split; [done|]. split; [done|]. f_equal. lia.
Qed.

End PublisherFacts.

(* ================================================================== *)
(** * Facts: what [validateConfiguration] lets through                 *)
(* ================================================================== *)

Module ConfigurationFacts.
Import Index.

Section WithNumber.
Context {J : JSNumber}.

Lemma elem_of_check e cond e' errors :
  e ∈ check cond e' errors <-> e ∈ errors \/ (cond = true /\ e = e').
Proof.
  unfold check. destruct cond.
  - rewrite elem_of_app, list_elem_of_singleton. tauto.
  - split; [tauto|]. intros [?|[? _]]; [done|discriminate].
Qed.

(** The errors of [validateConfiguration], one check at a time. *)
Lemma elem_of_validateConfiguration e config :
  e ∈ validateConfiguration config <->
    ((below (Tcp.port (tcp config)) 1 || above (Tcp.port (tcp config)) 65535) = true
       /\ e = InvalidTcpPort (Tcp.port (tcp config)))
    \/ (below (Tcp.maxConnections (tcp config)) 1 = true
       /\ e = InvalidMaxConnections (Tcp.maxConnections (tcp config)))
    \/ ((length (Kafka.brokers (kafka config)) =? 0)%nat = true /\ e = NoBroker)
    \/ (JS.isEmpty (JS.trim (Kafka.topic (kafka config))) = true /\ e = EmptyTopic)
    \/ (negb (isAcks (Kafka.acks (kafka config))) = true
       /\ e = InvalidAcks (Kafka.acks (kafka config)))
    \/ ((Metrics.enabled (metrics config)
         && (below (Metrics.port (metrics config)) 1
             || above (Metrics.port (metrics config)) 65535)) = true
       /\ e = InvalidMetricsPort (Metrics.port (metrics config)))
    \/ ((lt (maxPriceDeviation (validation (validator config))) (ofZ 0)
         || gt (maxPriceDeviation (validation (validator config))) (ofZ 1)) = true
       /\ e = InvalidMaxPriceDeviation (maxPriceDeviation (validation (validator config))))
    \/ (below (maxTimestampAge (validation (validator config))) 0 = true
       /\ e = InvalidMaxTimestampAge (maxTimestampAge (validation (validator config)))).
Proof.
  unfold validateConfiguration. cbv zeta.
  rewrite !elem_of_check, elem_of_nil. tauto.
Qed.

(** [index.ts], [loadConfiguration] and [validateConfiguration]: whatever
    the environment holds, the list of brokers has one entry more than
    the setting has commas, so it is never empty and the check "At least
    one Kafka broker must be specified" never fires; a setting made of
    commas only is taken as a list of empty broker names. *)
Theorem broker_check_never_fires (env : string -> option (list N)) :
  let config := loadConfiguration env in
  (length (Kafka.brokers (kafka config))
     = S (JSFacts.count COMMA (envOr env "KAFKA_BROKERS" (JS.lit "kafka:29092"))))
  /\ (NoBroker ∉ validateConfiguration config)
  /\ (forall n, env "KAFKA_BROKERS"%string = Some (replicate (S n) COMMA) ->
        Kafka.brokers (kafka config) = replicate (S (S n)) []).
Proof.
  cbv zeta. split; [|split].
  - cbn. apply JSFacts.split_length.
  - rewrite elem_of_validateConfiguration. cbn [loadConfiguration kafka Kafka.brokers].
    pose proof (JSFacts.split_length COMMA (envOr env "KAFKA_BROKERS" (JS.lit "kafka:29092"))) as L.
    intros H. repeat destruct H as [H|H]; destruct H as [H1 H2]; try discriminate.
    apply Nat.eqb_eq in H1. lia.
  - intros n E. cbn [loadConfiguration kafka Kafka.brokers].
    unfold envOr. rewrite E. cbn [replicate JS.isEmpty].
    change (JS.split COMMA (replicate (S n) COMMA) = replicate (S (S n)) []).
    clear E. induction n as [|n IH]; [reflexivity|].
    change (replicate (S (S n)) COMMA) with (COMMA :: replicate (S n) COMMA).
    cbn [JS.split]. rewrite N.eqb_refl, IH. reflexivity.
Qed.

(** [index.ts], [validateConfiguration]: a numeric setting that
    [parseInt] could not read is NaN, and NaN passes every range check
    (both comparisons are false), so no error is reported for the TCP
    port, the connection limit, the metrics port or the timestamp age;
    only [acks] is checked by membership, and an unreadable [acks] is
    reported. *)
Theorem unreadable_numbers_pass_range_checks (config : Configuration) :
  (Tcp.port (tcp config) = None ->
     forall p, InvalidTcpPort p ∉ validateConfiguration config)
  /\ (Tcp.maxConnections (tcp config) = None ->
     forall n, InvalidMaxConnections n ∉ validateConfiguration config)
  /\ (Metrics.port (metrics config) = None ->
     forall p, InvalidMetricsPort p ∉ validateConfiguration config)
  /\ (maxTimestampAge (validation (validator config)) = None ->
     forall a, InvalidMaxTimestampAge a ∉ validateConfiguration config)
  /\ (Kafka.acks (kafka config) = None ->
     InvalidAcks None ∈ validateConfiguration config /\ exits config = true).
Proof.
  repeat split.
  1-4: intros E x; rewrite elem_of_validateConfiguration, E; cbn;
       rewrite ?andb_false_r;
       intros H; repeat destruct H as [H|H]; destruct H as [H1 H2]; discriminate.
  - rewrite elem_of_validateConfiguration, H. cbn. tauto.
  - assert (InvalidAcks None ∈ validateConfiguration config) as M.
    { rewrite elem_of_validateConfiguration, H. cbn. tauto. }
    unfold exits. destruct (validateConfiguration config); [by apply elem_of_nil in M|done].
Qed.

End WithNumber.
End ConfigurationFacts.

(* ================================================================== *)
(** * Facts: the server and its clients                                *)
(* ================================================================== *)

Module ServerFacts.
Import TcpServer.

(** [n] more messages counted for a client. *)
Definition bump (n : nat) (client : ClientConnection.t) : ClientConnection.t :=
  {| ClientConnection.id := ClientConnection.id client;
     ClientConnection.socket := ClientConnection.socket client;
     ClientConnection.connectedAt := ClientConnection.connectedAt client;
     ClientConnection.lastMessageAt := ClientConnection.lastMessageAt client;
     ClientConnection.messageCount := (n + ClientConnection.messageCount client)%nat;
     ClientConnection.remoteAddress := ClientConnection.remoteAddress client;
     ClientConnection.remotePort := ClientConnection.remotePort client |}.

Lemma bump_0 client : bump 0 client = client.
Proof. by destruct client. Qed.

Lemma bump_S n client : bump n (counted client) = bump (S n) client.
Proof. unfold bump, counted. cbn. f_equal. lia. Qed.

(** The calls of [handleMessage] of one ['data'] event, for a client
    that is in the map. *)
Lemma handleMessages_spec cid messages : forall clock s client,
  clients s !! cid = Some client ->
  exists out,
    handleMessages cid messages clock s =
      ({| clients := <[cid := bump (length messages) client]> (clients s);
          sockets := sockets s;
          totalConnections := totalConnections s;
          totalMessages := (length messages + totalMessages s)%nat |}, out)
    /\ data <$> out = messages
    /\ Forall (fun m => clientId m = cid) out.
Proof.
  induction messages as [|m rest IH]; intros clock s client Hc.
  - exists []. cbn. rewrite bump_0, insert_id by done. by destruct s.
  - cbn [handleMessages]. unfold handleMessage at 1. rewrite Hc.
    destruct (IH (fun i => clock (S i))
                {| clients := <[cid := counted client]> (clients s);
                   sockets := sockets s;
                   totalConnections := totalConnections s;
                   totalMessages := S (totalMessages s) |} (counted client))
      as (out & E & D & T); [cbn; apply lookup_insert_eq|].
    rewrite E. eexists. split; [|split].
    + cbn. rewrite insert_insert_eq, bump_S. repeat f_equal. lia.
    + cbn. by rewrite D.
    + constructor; [done|]. apply T.
Qed.

(** The ['data'] handler of a socket whose client is in the map. *)
Lemma onSocketData_spec socket chunk clock s h client :
  sockets s !! socket = Some h ->
  Closure.destroyed h = false ->
  clients s !! Closure.clientId h = Some client ->
  exists out,
    onSocketData socket chunk clock s =
      ({| clients :=
            <[Closure.clientId h :=
                seen (clock (length (onData (Closure.buffer h) chunk).1))
                     (bump (length (onData (Closure.buffer h) chunk).1) client)]>
              (clients s);
          sockets :=
            <[socket := {| Closure.clientId := Closure.clientId h;
                           Closure.buffer := (onData (Closure.buffer h) chunk).2;
                           Closure.destroyed := false |}]> (sockets s);
          totalConnections := totalConnections s;
          totalMessages :=
            (length (onData (Closure.buffer h) chunk).1 + totalMessages s)%nat |}, out)
    /\ data <$> out = (onData (Closure.buffer h) chunk).1
    /\ Forall (fun m => clientId m = Closure.clientId h) out.
Proof.
  intros Hs Hd Hc. unfold onSocketData. rewrite Hs, Hd, Hc.
  destruct (onData (Closure.buffer h) chunk) as [messages buffer] eqn:E.
  destruct (handleMessages_spec (Closure.clientId h) messages clock s client Hc)
    as (out & E' & D & T).
  rewrite E'. exists out. cbn. by rewrite alter_insert_eq.
Qed.

(** Whether the ['data'] handler of [socket] runs its loop. *)
Definition live (socket : nat) (s : t) : option (Closure.t * ClientConnection.t) :=
  match sockets s !! socket with
  | None => None
  | Some h =>
      if Closure.destroyed h then None
      else
        match clients s !! Closure.clientId h with
        | None => None
        | Some client => Some (h, client)
        end
  end.

Lemma onSocketData_idle socket chunk clock s :
  live socket s = None -> onSocketData socket chunk clock s = (s, []).
Proof.
  unfold live, onSocketData. destruct (sockets s !! socket) as [h|]; [|done].
  destruct (Closure.destroyed h); [done|].
  by destruct (clients s !! Closure.clientId h).
Qed.

Lemma live_Some socket s h client :
  live socket s = Some (h, client) ->
  sockets s !! socket = Some h /\ Closure.destroyed h = false
  /\ clients s !! Closure.clientId h = Some client.
Proof.
  unfold live. destruct (sockets s !! socket) as [h'|]; [|done].
  destruct (Closure.destroyed h') eqn:D; [done|].
  destruct (clients s !! Closure.clientId h') eqn:C; [|done].
  by intros [= <- <-].
Qed.

(** ** The counters *)

(** What every event keeps, whatever the state it starts from. *)
Record counted_from (s s' : t) (out : list RawMessage) : Prop := {
  k_messages : totalMessages s' = (totalMessages s + length out)%nat;
  k_connections :
    (size (clients s) <= totalConnections s ->
     size (clients s') <= totalConnections s')%nat;
  k_keys :
    (forall id client, clients s !! id = Some client -> ClientConnection.id client = id) ->
    forall id client, clients s' !! id = Some client -> ClientConnection.id client = id;
  k_count :
    (forall id client, clients s !! id = Some client ->
       ClientConnection.messageCount client <= totalMessages s)%nat ->
    forall id client, clients s' !! id = Some client ->
      (ClientConnection.messageCount client <= totalMessages s')%nat
}.

Lemma counted_from_refl s : counted_from s s [].
Proof. split; cbn; [lia|done..]. Qed.

Lemma counted_from_trans s1 s2 s3 out1 out2 :
  counted_from s1 s2 out1 -> counted_from s2 s3 out2 ->
  counted_from s1 s3 (out1 ++ out2).
Proof.
  intros [A1 A2 A3 A4] [B1 B2 B3 B4]. split.
  - rewrite length_app. lia.
  - intros H. by apply B2, A2.
  - intros H. by apply B3, A3.
  - intros H. by apply B4, A4.
Qed.

Lemma counted_from_close socket s : counted_from s (onSocketClose socket s) [].
Proof.
  unfold onSocketClose. destruct (sockets s !! socket) as [h|];
    [|apply counted_from_refl].
  unfold handleClientDisconnection.
  destruct (clients s !! Closure.clientId h) as [client|] eqn:C;
    [|apply counted_from_refl].
  split; cbn.
  - lia.
  - rewrite map_size_delete_Some by done. lia.
  - intros H id c [_ L]%lookup_delete_Some. eauto.
  - intros H id c [_ L]%lookup_delete_Some. eauto.
Qed.

Lemma counted_from_step ev s : counted_from s (step ev s).1 (step ev s).2.
Proof.
  destruct ev as [socket clock now random addr port|socket chunk clock|socket|socket];
    cbn [step fst snd]; try apply counted_from_close.
  - split; cbn.
    + lia.
    + intros H. match goal with |- (size (<[?k := ?v]> ?m) <= _)%nat =>
        pose proof (map_size_insert k v m) as E end.
      destruct (clients s !! _); cbn in E; lia.
    + intros H id c [[<- <-]|[_ L]]%lookup_insert_Some; [done|eauto].
    + intros H id c [[<- <-]|[_ L]]%lookup_insert_Some; cbn; [lia|eauto].
  - destruct (live socket s) as [[h client]|] eqn:L.
    + apply live_Some in L as (Hs & Hd & Hc).
      destruct (onSocketData_spec socket chunk clock s h client Hs Hd Hc)
        as (out & E & D & T).
      rewrite E. cbn [fst snd].
      assert (length out = length (onData (Closure.buffer h) chunk).1) as Len
        by (by rewrite <- D, length_fmap).
      split; cbn.
      * lia.
      * by rewrite map_size_insert_Some.
      * intros H id c [[<- <-]|[_ L]]%lookup_insert_Some; cbn; eauto.
      * intros H id c [[<- <-]|[_ L]]%lookup_insert_Some; cbn.
        -- specialize (H _ _ Hc). lia.
        -- specialize (H _ _ L). lia.
    + rewrite onSocketData_idle by done. apply counted_from_refl.
Qed.

Lemma counted_from_run evs : forall s, counted_from s (run evs s).1 (run evs s).2.
Proof.
  induction evs as [|ev evs IH]; intros s; [apply counted_from_refl|].
  cbn [run]. pose proof (counted_from_step ev s) as A.
  destruct (step ev s) as [s1 out1]. pose proof (IH s1) as B.
  destruct (run evs s1) as [s2 out2]. cbn [fst snd] in *.
  by eapply counted_from_trans.
Qed.

(** [tcp-server.ts], [handleNewConnection], the ['data'] handler,
    [handleMessage], [handleClientDisconnection] and [getMetrics]:
    whatever happens to a new server, [messagesReceived] is the number of
    messages handed to the handler, there are never more active
    connections than connections accepted, every client is filed under
    its own id, and no client has counted more messages than the
    server. *)
Theorem server_counters_agree (events : list Event) :
  let s := (run events new).1 in
  let out := (run events new).2 in
  messagesReceived (getMetrics s) = length out
  /\ (activeConnections (getMetrics s) <= m_totalConnections (getMetrics s))%nat
  /\ (forall id client, clients s !! id = Some client ->
        ClientConnection.id client = id
        /\ (ClientConnection.messageCount client <= messagesReceived (getMetrics s))%nat).
Proof.
  cbv zeta. destruct (counted_from_run events new) as [A B C D]. cbn in *.
  split; [done|]. split.
  - apply B. rewrite map_size_empty. lia.
  - intros id client L. split.
    + eapply C; [|done]. intros ? ? ?. by rewrite lookup_empty in *.
    + eapply D; [|done]. intros ? ? ?. by rewrite lookup_empty in *.
Qed.

(** ** One connection among the others *)

(** The chunks that arrive on [socket] during [events]. *)
Fixpoint dataOf (socket : nat) (events : list Event) : list (list N) :=
  match events with
  | [] => []
  | Data socket' chunk _ :: rest =>
      if decide (socket' = socket) then chunk :: dataOf socket rest
      else dataOf socket rest
  | _ :: rest => dataOf socket rest
  end.

(** The messages handed over under the name [cid]. *)
Definition messagesOf (cid : list N) (out : list RawMessage) : list (list N) :=
  data <$> filter (fun m => clientId m = cid) out.

(** An event that is not the end of [socket], and not a new connection
    on the same socket object or under the same name. *)
Definition apart (socket : nat) (cid : list N) (ev : Event) : Prop :=
  match ev with
  | Connection socket' clock _ random _ _ =>
      socket' <> socket /\ newClientId clock random <> cid
  | Data _ _ _ => True
  | Error socket' | Close socket' => socket' <> socket
  end.

(** [socket] carries the handlers of [cid], its buffer holds [buffer],
    its client has counted [n] messages, and no other socket or client
    is mixed up with them. *)
Record registered (s : t) (socket : nat) (cid buffer : list N) (n : nat) : Prop := {
  r_socket :
    sockets s !! socket =
      Some {| Closure.clientId := cid; Closure.buffer := buffer;
              Closure.destroyed := false |};
  r_client :
    exists client, clients s !! cid = Some client
                   /\ ClientConnection.socket client = socket
                   /\ ClientConnection.messageCount client = n;
  r_others :
    forall socket' h, socket' <> socket -> sockets s !! socket' = Some h ->
      Closure.clientId h <> cid;
  r_owner :
    forall id client, clients s !! id = Some client ->
      ClientConnection.socket client = socket -> id = cid
}.

Lemma messagesOf_app cid out1 out2 :
  messagesOf cid (out1 ++ out2) = messagesOf cid out1 ++ messagesOf cid out2.
Proof. unfold messagesOf. by rewrite filter_app, fmap_app. Qed.

Lemma messagesOf_same cid out :
  Forall (fun m => clientId m = cid) out -> messagesOf cid out = data <$> out.
Proof.
  unfold messagesOf. induction 1 as [|m out Hm _ IH]; [done|].
  rewrite filter_cons_True by done. cbn. by rewrite IH.
Qed.

Lemma messagesOf_other cid cid' out :
  cid' <> cid -> Forall (fun m => clientId m = cid') out -> messagesOf cid out = [].
Proof.
  unfold messagesOf. intros Hne. induction 1 as [|m out Hm _ IH]; [done|].
  rewrite filter_cons_False by congruence. apply IH.
Qed.

(** What the event leaves of the chunks of [socket]. *)
Definition arrival (socket : nat) (buffer : list N) (ev : Event)
    : list (list N) * list N :=
  match ev with
  | Data socket' chunk _ =>
      if decide (socket' = socket) then onData buffer chunk else ([], buffer)
  | _ => ([], buffer)
  end.

Lemma registered_close s socket cid buffer n socket' :
  registered s socket cid buffer n -> socket' <> socket ->
  registered (onSocketClose socket' s) socket cid buffer n.
Proof.
  intros [R1 (client & R2 & R2s & R2') R3 R4] Hne. unfold onSocketClose.
  destruct (sockets s !! socket') as [h|] eqn:Hs; [|by split; eauto].
  pose proof (R3 _ _ Hne Hs) as Hid.
  unfold handleClientDisconnection.
  destruct (clients s !! Closure.clientId h) as [client'|] eqn:Hc; [|by split; eauto].
  assert (ClientConnection.socket client' <> socket) as Hsock.
  { intros E. by apply Hid, (R4 _ client'). }
  split; cbn.
  - by rewrite lookup_alter_ne.
  - exists client. by rewrite lookup_delete_ne.
  - intros sk h' Hsk [[_ (h0 & L & ->)]|[_ L]]%lookup_alter_Some; cbn; by eapply R3.
  - intros id c [_ L]%lookup_delete_Some. by apply R4.
Qed.

Lemma registered_step s socket cid buffer n ev :
  registered s socket cid buffer n -> apart socket cid ev ->
  messagesOf cid (step ev s).2 = (arrival socket buffer ev).1
  /\ registered (step ev s).1 socket cid (arrival socket buffer ev).2
       (n + length (arrival socket buffer ev).1).
Proof.
  intros R Hev.
  destruct ev as [socket' clock now random addr port|socket' chunk clock|socket'|socket'];
    cbn [step fst snd arrival apart] in *; rewrite ?Nat.add_0_r;
    try (split; [done|by apply registered_close]).
  - destruct Hev as [Hs Hi]. split; [done|].
    destruct R as [R1 (client & R2 & R2s & R2') R3 R4]. split; cbn.
    + by rewrite lookup_insert_ne.
    + exists client. by rewrite lookup_insert_ne.
    + intros sk h Hsk [[<- <-]|[_ L]]%lookup_insert_Some; cbn; [done|by eapply R3].
    + intros id c [[<- <-]|[_ L]]%lookup_insert_Some; cbn; [done|by apply R4].
  - destruct (decide (socket' = socket)) as [->|Hne].
    + destruct R as [R1 (client & R2 & R2s & R2') R3 R4].
      destruct (onSocketData_spec socket chunk clock s _ client R1 eq_refl R2)
        as (out & E & D & T).
      cbn [Closure.clientId Closure.buffer] in *. rewrite E. cbn [fst snd].
      split; [by rewrite messagesOf_same|].
      split; cbn.
      * by rewrite lookup_insert_eq.
      * eexists. rewrite lookup_insert_eq. split; [done|]. cbn. split; [done|lia].
      * intros sk h Hsk L. rewrite lookup_insert_ne in L by done. by eapply R3.
      * intros id c [[<- <-]|[_ L]]%lookup_insert_Some; cbn; [done|by apply R4].
    + cbn [fst snd]. rewrite Nat.add_0_r.
      destruct (live socket' s) as [[h client']|] eqn:L.
      * apply live_Some in L as (Hs & Hd & Hc).
        destruct (onSocketData_spec socket' chunk clock s h client' Hs Hd Hc)
          as (out & E & D & T).
        rewrite E. cbn [fst snd].
        destruct R as [R1 (client & R2 & R2s & R2') R3 R4].
        pose proof (R3 _ _ Hne Hs) as Hid.
        split; [by eapply messagesOf_other|].
        split; cbn.
        -- by rewrite lookup_insert_ne.
        -- exists client. by rewrite lookup_insert_ne.
        -- intros sk h' Hsk [[<- <-]|[_ L]]%lookup_insert_Some; cbn;
             [done|by eapply R3].
        -- intros id c [[<- <-]|[_ L]]%lookup_insert_Some; cbn;
             [by apply (R4 _ client')|by apply R4].
      * rewrite onSocketData_idle by done. by split.
Qed.

Lemma registered_run events : forall s socket cid buffer n,
  registered s socket cid buffer n -> Forall (apart socket cid) events ->
  messagesOf cid (run events s).2 = (receive buffer (dataOf socket events)).1
  /\ registered (run events s).1 socket cid (receive buffer (dataOf socket events)).2
       (n + length (receive buffer (dataOf socket events)).1).
Proof.
  induction events as [|ev events IH]; intros s socket cid buffer n R Hevs.
  - cbn. rewrite Nat.add_0_r. by split.
  - apply Forall_cons in Hevs as [Hev Hevs].
    destruct (registered_step s socket cid buffer n ev R Hev) as [M R'].
    cbn [run]. destruct (step ev s) as [s1 out1]. cbn [fst snd] in *.
    destruct (IH s1 socket cid _ _ R' Hevs) as [M' R''].
    destruct (run events s1) as [s2 out2]. cbn [fst snd] in *.
    rewrite messagesOf_app, M, M'.
    assert (receive buffer (dataOf socket (ev :: events)) =
            ((arrival socket buffer ev).1
               ++ (receive (arrival socket buffer ev).2 (dataOf socket events)).1,
             (receive (arrival socket buffer ev).2 (dataOf socket events)).2)) as E.
    { destruct ev as [? ? ? ? ? ?|socket' chunk clock|?|?]; cbn [dataOf arrival fst snd];
        try by destruct (receive buffer (dataOf socket events)).
      destruct (decide (socket' = socket)); cbn [fst snd];
        [|by destruct (receive buffer (dataOf socket events))].
      cbn [receive]. destruct (onData buffer chunk) as [o1 b1]. cbn [fst snd].
      by destruct (receive b1 (dataOf socket events)). }
    rewrite E. cbn [fst snd]. split; [done|].
    rewrite length_app, Nat.add_assoc. done.
Qed.

(** Every client holds a socket that carries handlers. *)
Definition housed (s : t) : Prop :=
  forall id client, clients s !! id = Some client ->
    is_Some (sockets s !! ClientConnection.socket client).

Lemma housed_close socket s : housed s -> housed (onSocketClose socket s).
Proof.
  intros H. unfold onSocketClose.
  destruct (sockets s !! socket) as [h|]; [|done].
  unfold handleClientDisconnection.
  destruct (clients s !! Closure.clientId h) as [c0|]; [|done].
  intros id c. cbn. intros [_ L]%lookup_delete_Some.
  apply lookup_alter_is_Some. by eapply H.
Qed.

Lemma housed_step ev s : housed s -> housed (step ev s).1.
Proof.
  intros H.
  destruct ev as [socket clock now random addr port|socket chunk clock|socket|socket];
    cbn [step fst]; try by apply housed_close.
  - intros id c. cbn. intros [[<- <-]|[_ L]]%lookup_insert_Some; cbn.
    + rewrite lookup_insert_eq. by eexists.
    + apply lookup_insert_is_Some'. right. by eapply H.
  - destruct (live socket s) as [[h client']|] eqn:Lv.
    + apply live_Some in Lv as (Hs & Hd & Hc).
      destruct (onSocketData_spec socket chunk clock s h client' Hs Hd Hc)
        as (out & E & D & T).
      rewrite E. cbn [fst]. intros id c. cbn [clients sockets].
      intros L. apply lookup_insert_is_Some'. right.
      apply lookup_insert_Some in L as [[<- <-]|[_ L]]; cbn; by eapply H.
    + by rewrite onSocketData_idle.
Qed.

Lemma housed_run events : forall s, housed s -> housed (run events s).1.
Proof.
  induction events as [|ev events IH]; intros s H; [done|].
  cbn [run]. pose proof (housed_step ev s H) as H1.
  destruct (step ev s) as [s1 out1]. specialize (IH s1 H1).
  by destruct (run events s1).
Qed.

(** [tcp-server.ts], [handleNewConnection], [setupClientEventHandlers],
    [handleMessage] and [handleClientDisconnection]: a connection
    accepted on a new socket under a name no other socket uses is served
    on its own.  As long as the socket does not end and the name is not
    drawn again, the messages handed over under its name are the lines of
    its own chunks, whatever the other connections send, open or close in
    between, and its client has counted exactly these. *)
Theorem connection_served_alone
    (before after : list Event) (socket : nat) (clock now : Z) (random : list N)
    (remoteAddress : option (list N)) (remotePort : option Z) :
  let s := (run before new).1 in
  let cid := newClientId clock random in
  let result :=
    run after (handleNewConnection socket clock now random remoteAddress remotePort s) in
  sockets s !! socket = None ->
  map_Forall (fun _ h => Closure.clientId h <> cid) (sockets s) ->
  Forall (apart socket cid) after ->
  messagesOf cid result.2 = (receive [] (dataOf socket after)).1
  /\ exists client,
       clients result.1 !! cid = Some client
       /\ ClientConnection.socket client = socket
       /\ ClientConnection.messageCount client = length (messagesOf cid result.2).
Proof.
  cbv zeta. intros Hnew Hname Hafter.
  set (s := (run before new).1) in *.
  set (cid := newClientId clock random) in *.
  assert (registered
            (handleNewConnection socket clock now random remoteAddress remotePort s)
            socket cid [] 0) as R.
  { split; cbn.
    - by rewrite lookup_insert_eq.
    - eexists. by rewrite lookup_insert_eq.
    - intros sk h Hsk L. rewrite lookup_insert_ne in L by done.
      by apply (Hname sk h).
    - intros id c [[<- <-]|[Hid L]]%lookup_insert_Some; [done|].
      intros Hsock. exfalso.
      assert (housed s) as Hs.
      { apply housed_run. intros ? ? E. cbn in E. by rewrite lookup_empty in E. }
      destruct (Hs id c L) as [h Hh]. rewrite Hsock, Hnew in Hh. discriminate. }
  destruct (registered_run after _ socket cid [] 0%nat R Hafter) as [M R'].
  split; [done|].
  destruct R' as [_ (client & R2 & R2s & R3) _ _].
  exists client. by rewrite M, R3.
Qed.

End ServerFacts.


(* ================================================================== *)
(** * The counters of the running service                              *)
(* ================================================================== *)

Module PipelineFacts.
Import MessageValidator MessageValidatorFacts IngestorPipeline.
Section WithNumber.
Context {J : JSNumber} {F : JSNumberFormat J}.

(** The first part of [handleMessage] does to the service what the
    sequencer model of [IngestorService.handleMessage] does, and starts
    publishing the tick that model hands to the publisher. *)
Lemma handleMessage_service s nowV nowE rawMessage :
  let r := IngestorService.handleMessage (service s) nowV nowE rawMessage in
  service (handleMessage s nowV nowE rawMessage) = r.2
  /\ (fst <$> inFlight (handleMessage s nowV nowE rawMessage))
       = (fst <$> inFlight s) ++ option_list r.1.
Proof.
  cbv zeta. unfold handleMessage, IngestorService.handleMessage.
  destruct (isValid _); [destruct (tick _)|]; cbn; rewrite ?app_nil_r; try done.
  destruct (KafkaPublisher.publishTick _). cbn. by rewrite fmap_app.
Qed.

(** ** Counting the calls in flight *)

(** The number of calls in flight, each weighed by its stage. *)
Fixpoint weigh (w : KafkaPublisher.Stage -> nat)
    (calls : list (EnrichedTick * KafkaPublisher.Stage)) : nat :=
  match calls with
  | [] => 0
  | call :: rest => w call.2 + weigh w rest
  end.

Lemma weigh_app w a b : weigh w (a ++ b) = (weigh w a + weigh w b)%nat.
Proof. induction a as [|x a IH]; cbn [app weigh]; [done|]. rewrite IH. lia. Qed.

Lemma weigh_middle w l k x :
  l !! k = Some x ->
  weigh w l = (weigh w (take k l) + w x.2 + weigh w (drop (S k) l))%nat.
Proof.
  intros H. rewrite <- (take_drop_middle l k x H) at 1.
  rewrite weigh_app. cbn [weigh]. lia.
Qed.

Lemma weigh_insert w l k x y :
  l !! k = Some x ->
  weigh w (<[k := y]> l) = (weigh w (take k l) + w y.2 + weigh w (drop (S k) l))%nat.
Proof.
  intros H. rewrite insert_take_drop by (by eapply lookup_lt_Some).
  rewrite weigh_app. cbn. lia.
Qed.

Lemma weigh_delete w l k x :
  l !! k = Some x ->
  weigh w (delete k l) = (weigh w (take k l) + weigh w (drop (S k) l))%nat.
Proof.
  intros H. rewrite delete_take_drop. apply weigh_app.
Qed.

Definition one (st : KafkaPublisher.Stage) : nat := 1.

Definition succeeding (st : KafkaPublisher.Stage) : nat :=
  match st with KafkaPublisher.Succeeding => 1 | _ => 0 end.

(** The calls whose [publishTick] has counted an error. *)
Definition erring (st : KafkaPublisher.Stage) : nat :=
  match st with
  | KafkaPublisher.Failing _ | KafkaPublisher.Reconnecting _ => 1
  | _ => 0
  end.

Lemma weigh_one calls : weigh one calls = length calls.
Proof. induction calls as [|x calls IH]; cbn [weigh length]; [done|]. by rewrite IH. Qed.

(** The calls that wait for [producer.send]. *)
Definition sending (st : KafkaPublisher.Stage) : nat :=
  match st with KafkaPublisher.Sending => 1 | _ => 0 end.


(** ** What the counters say *)

Definition publishErrorOnly (st : KafkaPublisher.Stage) : Prop :=
  match st with
  | KafkaPublisher.Failing err => type err = KAFKA_PUBLISH_ERROR
  | _ => True
  end.

(** What holds of the service started with publisher [p0]; [r] tells
    whether the [report] callback has run. *)
Record consistent (p0 : KafkaPublisher.t) (r : bool) (s : t) : Prop := {
  c_received :
    messagesReceived (metrics s) =
      (messagesProcessed (metrics s) + messagesFailed (metrics s)
       + length (inFlight s))%nat;
  c_published :
    if r then
      (messagesProcessed (metrics s) + KafkaPublisher.publishCount p0
         <= messagesPublished (metrics s))%nat
    else messagesPublished (metrics s) = messagesProcessed (metrics s);
  c_failed :
    if r then True
    else
      (publishErrors (metrics s) <= messagesFailed (metrics s))%nat
      /\ KafkaPublisher.errorCount (publisher s) =
           (KafkaPublisher.errorCount p0 + publishErrors (metrics s)
            + weigh erring (inFlight s))%nat;
  c_sequence :
    (Z.of_nat (KafkaPublisher.publishCount p0 + KafkaPublisher.errorCount p0)
       + IngestorService.sequenceCounter (service s))%Z =
      Z.of_nat (KafkaPublisher.publishCount (publisher s)
                + KafkaPublisher.errorCount (publisher s)
                + weigh sending (inFlight s));
  c_publishCount :
    KafkaPublisher.publishCount (publisher s) =
      (KafkaPublisher.publishCount p0 + messagesProcessed (metrics s)
       + weigh succeeding (inFlight s))%nat;
  c_errorCount :
    (KafkaPublisher.errorCount p0 + weigh erring (inFlight s)
       <= KafkaPublisher.errorCount (publisher s))%nat
    /\ (KafkaPublisher.errorCount (publisher s) <=
          KafkaPublisher.errorCount p0 + messagesFailed (metrics s)
          + weigh erring (inFlight s))%nat;
  c_attempts :
    (KafkaPublisher.reconnectAttempts p0 <= KafkaPublisher.maxReconnectAttempts)%nat ->
    (KafkaPublisher.reconnectAttempts (publisher s)
       <= KafkaPublisher.maxReconnectAttempts)%nat;
  c_errors : Forall (fun call => publishErrorOnly call.2) (inFlight s)
}.

(** The service has counted the messages the server has handed over. *)
Definition served (s : t) : Prop :=
  messagesReceived (metrics s) = TcpServer.totalMessages (tcpServer s).

Lemma consistent_started cfg p0 :
  consistent p0 false (started cfg p0) /\ served (started cfg p0).
Proof. split; [|done]. split; cbn; try done; try lia. Qed.

(** What [caught] does to the publisher and where it leaves the call. *)
Lemma caught_spec msg p :
  let r := KafkaPublisher.caught msg p in
  KafkaPublisher.publishCount r.1 = KafkaPublisher.publishCount p
  /\ KafkaPublisher.errorCount r.1 = S (KafkaPublisher.errorCount p)
  /\ erring r.2 = 1%nat /\ succeeding r.2 = 0%nat /\ sending r.2 = 0%nat
  /\ publishErrorOnly r.2
  /\ ((KafkaPublisher.reconnectAttempts p <= KafkaPublisher.maxReconnectAttempts)%nat ->
      (KafkaPublisher.reconnectAttempts r.1 <= KafkaPublisher.maxReconnectAttempts)%nat).
Proof.
  cbv zeta. unfold KafkaPublisher.caught.
  destruct (_ || _); [destruct (_ <=? _)%nat eqn:Hmax|]; cbn; repeat split; try done.
  apply Nat.leb_gt in Hmax. cbn in Hmax. lia.
Qed.

Ltac flag r :=
  try lazymatch goal with |- (if r then _ else _) => destruct r end.

Ltac counters :=
  first [done | lia
        | split; lia
        | unfold KafkaPublisher.maxReconnectAttempts in *; lia].

Lemma handleMessage_counts s nowV nowE rawMessage :
  let s' := handleMessage s nowV nowE rawMessage in
  tcpServer s' = tcpServer s
  /\ messagesReceived (metrics s') = S (messagesReceived (metrics s)).
Proof.
  cbv zeta. unfold handleMessage.
  destruct (isValid _); [destruct (tick _)|]; cbn; try done.
  by destruct (KafkaPublisher.publishTick _).
Qed.

Lemma consistent_handleMessage p0 r s nowV nowE rawMessage :
  consistent p0 r s -> consistent p0 r (handleMessage s nowV nowE rawMessage).
Proof.
  intros [H1 H2 H3 H4 H5 H6 H7 H8]. unfold handleMessage.
  destruct (isValid _) eqn:Hv; [destruct (tick _) as [tk|] eqn:Ht|].
  - cbn [IngestorService.enrichTick].
    unfold KafkaPublisher.publishTick.
    destruct (KafkaPublisher.isConnected (publisher s)).
    + split; flag r; cbn; rewrite ?length_app, ?weigh_app; cbn;
        try counters.
      apply Forall_app. split; [done|]. by repeat constructor.
    + destruct (caught_spec (JS.lit "Kafka producer is not connected") (publisher s))
        as (C1 & C2 & C3 & C4 & C4' & C5 & C6).
      destruct (KafkaPublisher.caught _ _) as [p st]. cbn [fst snd] in *.
      split; flag r; cbn; rewrite ?length_app, ?weigh_app; cbn;
        rewrite ?C1, ?C2, ?C3, ?C4, ?C4';
        try counters; try (by apply C6).
      apply Forall_app. split; [done|]. by repeat constructor.
  - split; flag r; cbn; counters.
  - split; flag r; cbn; counters.
Qed.

Lemma consistent_handleMessages p0 r messages : forall s clocks,
  consistent p0 r s ->
  let s' := handleMessages s clocks messages in
  consistent p0 r s'
  /\ tcpServer s' = tcpServer s
  /\ messagesReceived (metrics s') = (messagesReceived (metrics s) + length messages)%nat.
Proof.
  induction messages as [|m messages IH]; intros s clocks Hs; cbn [handleMessages].
  { cbn. split; [done|]. split; [done|lia]. }
  destruct (handleMessage_counts s (clocks O).1 (clocks O).2 m) as [E1 E2].
  destruct (IH _ (fun i => clocks (S i))
              (consistent_handleMessage p0 r s (clocks O).1 (clocks O).2 m Hs))
    as (I1 & I2 & I3).
  split; [exact I1|]. split; [by rewrite I2|]. rewrite I3, E2. cbn [length]. lia.
Qed.

Lemma consistent_server p0 r ev clocks s :
  consistent p0 r s -> served s ->
  consistent p0 r (onServerEvent ev clocks s) /\ served (onServerEvent ev clocks s).
Proof.
  intros Hs Hsv. unfold onServerEvent.
  pose proof (ServerFacts.counted_from_step ev (tcpServer s)) as [Hk _ _ _].
  destruct (TcpServer.step ev (tcpServer s)) as [server messages].
  cbn [fst snd] in Hk.
  match goal with |- context [handleMessages ?x clocks messages] =>
    assert (consistent p0 r x) as Hx by (destruct Hs; by split);
    destruct (consistent_handleMessages p0 r messages x clocks Hx) as (I1 & I2 & I3)
  end.
  split; [exact I1|]. unfold served. rewrite I2, I3. cbn. rewrite Hk.
  unfold served in Hsv. lia.
Qed.

Lemma consistent_resume p0 r k what s s' :
  consistent p0 r s -> resume k what s = Some s' ->
  consistent p0 r s'
  /\ tcpServer s' = tcpServer s
  /\ messagesReceived (metrics s') = messagesReceived (metrics s).
Proof.
  intros [H1 H2 H3 H4 H5 H6 H7 H8]. unfold resume.
  destruct (inFlight s !! k) as [[e stage]|] eqn:Hk; [|done].
  pose proof (lookup_lt_Some _ _ _ Hk) as Hlt.
  pose proof (weigh_middle succeeding _ _ _ Hk) as Ws.
  pose proof (weigh_middle erring _ _ _ Hk) as We.
  pose proof (weigh_middle sending _ _ _ Hk) as Wd.
  assert (publishErrorOnly stage) as Hst.
  { rewrite Forall_lookup in H8. apply (H8 _ _ Hk). }
  assert (forall y, publishErrorOnly y.2 ->
            Forall (fun call => publishErrorOnly call.2) (<[k := y]> (inFlight s))) as Hins.
  { intros y Hy. apply Forall_insert; done. }
  assert (Forall (fun call => publishErrorOnly call.2) (delete k (inFlight s))) as Hdel.
  { rewrite delete_take_drop. apply Forall_app.
    split; [by apply Forall_take|by apply Forall_drop]. }
  cbn [snd] in Ws, We, Wd.
  destruct stage as [|msg|err|], what as [o|o|now]; try done; intros [= <-];
    (split; [|by split]).
  - (* [producer.send] settles *)
    destruct o as [|error]; cbn [KafkaPublisher.sendSettled].
    + split; flag r; cbn;
        rewrite ?length_insert, ?(weigh_insert _ _ _ _ _ Hk); cbn in *;
        try counters. by apply Hins.
    + destruct (caught_spec (KafkaPublisher.errorMessageOf error) (publisher s))
        as (C1 & C2 & C3 & C4 & C4' & C5 & C6).
      destruct (KafkaPublisher.caught _ _) as [p st]. cbn [fst snd] in *.
      split; flag r; cbn;
        rewrite ?length_insert, ?(weigh_insert _ _ _ _ _ Hk); cbn in *;
        rewrite ?C1, ?C2, ?C3, ?C4, ?C4'; try counters;
        try (by apply C6); try (by apply Hins).
  - (* the reconnection settles *)
    destruct o;
      (split; flag r; cbn;
       rewrite ?length_insert, ?(weigh_insert _ _ _ _ _ Hk); cbn in *;
       first [counters | by apply Hins]).
  - (* [handleMessage] resumes with the error *)
    cbn in Hst. destruct err as [ty msg]. cbn in Hst. subst ty.
    split; flag r; cbn;
      rewrite ?length_delete, ?(weigh_delete _ _ _ _ Hk); cbn in *;
      rewrite ?Hk; cbn; counters.
  - (* [handleMessage] resumes after a publication *)
    split; flag r; cbn;
      rewrite ?length_delete, ?(weigh_delete _ _ _ _ Hk); cbn in *;
      rewrite ?Hk; cbn; counters.
Qed.

Lemma consistent_report p0 r s :
  consistent p0 r s -> served s -> consistent p0 true (report s) /\ served (report s).
Proof.
  intros [H1 H2 H3 H4 H5 H6 H7 H8] Hsv. unfold served in *.
  split; [|done]. split; cbn; try done; lia.
Qed.

Lemma consistent_step p0 r ev s s' :
  consistent p0 r s -> served s -> step ev s = Some s' ->
  consistent p0 (r || isReport ev) s' /\ served s'.
Proof.
  intros Hs Hsv. destruct ev as [ev clocks|k what| | |]; cbn [step isReport];
    rewrite ?orb_false_r, ?orb_true_r.
  - intros [= <-]. by apply consistent_server.
  - intros Hr. destruct (consistent_resume p0 r k what s s' Hs Hr) as (I1 & I2 & I3).
    split; [exact I1|]. unfold served in *. by rewrite I2, I3.
  - intros [= <-]. split; [|done]. destruct Hs. split; flag r; cbn; try done.
    all: unfold KafkaPublisher.maxReconnectAttempts; lia.
  - intros [= <-]. split; [|done]. destruct Hs. by split; flag r; cbn.
  - intros [= <-]. by apply (consistent_report p0 r).
Qed.

Lemma consistent_run p0 evs : forall r s s',
  consistent p0 r s -> served s -> run evs s = Some s' ->
  consistent p0 (r || reported evs) s' /\ served s'.
Proof.
  induction evs as [|ev evs IH]; intros r s s' Hs Hsv; cbn [run reported existsb].
  - intros [= <-]. by rewrite orb_false_r.
  - destruct (step ev s) as [s1|] eqn:H1; [|done].
    destruct (consistent_step p0 r ev s s1 Hs Hsv H1) as [Hs1 Hsv1].
    intros Hrun. rewrite orb_assoc. by apply (IH _ s1).
Qed.

(** ** The counters of the service *)

(** Every message is accounted for.  After any sequence of server
    events, settlements of [producer.send] and of reconnections, returns
    of [handleMessage], producer events and runs of the [report]
    callback, from the start of the service: the messages received are
    those processed, those failed and those whose call of
    [handleMessage] has not returned yet, and they are the messages the
    TCP server has counted, so that [report] writes back the value the
    counter has; when no call is in flight, received = processed +
    failed.  As long as [report] has not run, as many were published as
    were processed and the publish errors are among the failures; once it
    has run, [messagesPublished] is a copy of the publisher's
    [publishCount] and is at least the number processed plus what the
    publisher had counted before the start. *)
Theorem messages_accounted (cfg : IngestorConfig) (p0 : KafkaPublisher.t)
    (evs : list Event) (s : t) :
  run evs (started cfg p0) = Some s ->
  messagesReceived (metrics s) =
    (messagesProcessed (metrics s) + messagesFailed (metrics s)
     + length (inFlight s))%nat
  /\ messagesReceived (metrics s) =
       TcpServer.messagesReceived (TcpServer.getMetrics (tcpServer s))
  /\ (inFlight s = [] ->
      messagesReceived (metrics s) =
        (messagesProcessed (metrics s) + messagesFailed (metrics s))%nat)
  /\ (reported evs = false ->
      messagesPublished (metrics s) = messagesProcessed (metrics s)
      /\ (publishErrors (metrics s) <= messagesFailed (metrics s))%nat)
  /\ (reported evs = true ->
      (messagesProcessed (metrics s) + KafkaPublisher.publishCount p0
         <= messagesPublished (metrics s))%nat).
Proof.
  intros Hrun.
  destruct (consistent_started cfg p0) as [H0 Hsv0].
  destruct (consistent_run p0 evs _ _ _ H0 Hsv0 Hrun)
    as [[H1 H2 H3 _ _ _ _ _] Hsv].
  cbn [orb] in H2, H3.
  split; [done|]. split; [exact Hsv|]. split.
  { intros Hnone. rewrite H1, Hnone. cbn [length]. lia. }
  split; intros Hr; rewrite Hr in H2, H3; [|done].
  by destruct H3.
Qed.



End WithNumber.
End PipelineFacts.

(* ================================================================== *)
(** * Worked instances                                                 *)
(* ================================================================== *)

Module Examples.
Import MessageValidator MessageValidatorFacts.

(** Evaluation of both sides of an equation.  The sides are evaluated as
    terms; the type of the equation is left alone. *)
Ltac evaluate :=
  lazymatch goal with
  | |- ?l = ?r =>
      let v := eval vm_compute in l in
      let w := eval vm_compute in r in
      change (@eq _ v w); reflexivity
  end.

(** Concrete inputs, over the decimal instance. *)
Definition num (s : string) : Dec.dec := Dec.parseFloat (JS.lit s).

Definition now : Z := 1705323000000.

(** The configuration [loadConfiguration] builds from an empty
    environment (permissive, 10%, 5 minutes), and its strict variant. *)
Definition permissive : IngestorConfig := loadConfiguration (fun _ => None).

Definition strict : IngestorConfig :=
  {| validation := {| strictMode := true;
                      maxPriceDeviation := num "0.1";
                      maxTimestampAge := Some 300000%Z |} |}.

(** A validator that has accepted [XX] at 100. *)
Definition after100 (cfg : IngestorConfig) : MessageValidator.t :=
  {| MessageValidator.config := cfg;
     lastPrices := {[ JS.lit "XX" := num "100" ]} |}.

Definition tick115 : PriceTick :=
  {| ric := JS.lit "XX"; price := num "115"; timestamp := now;
     volume := None; bid := None; ask := None |}.

(** Ticks of the generator. *)
Definition aapl : TickGenerator.PriceTick :=
  {| TickGenerator.ric := JS.lit "aapl.o"; TickGenerator.price := num "150.60";
     TickGenerator.timestamp := Dec.ofZ now;
     TickGenerator.volume := Some (num "1000000");
     TickGenerator.bid := Some (num "150.10");
     TickGenerator.ask := Some (num "150.75") |}.

Definition eur : TickGenerator.PriceTick :=
  {| TickGenerator.ric := JS.lit "EUR="; TickGenerator.price := num "1.0850";
     TickGenerator.timestamp := Dec.ofZ (now + 2000);
     TickGenerator.volume := None; TickGenerator.bid := None;
     TickGenerator.ask := None |}.

(** [XX] at 115, as the generator sends it. *)
Definition sent115 : TickGenerator.PriceTick :=
  {| TickGenerator.ric := JS.lit "XX"; TickGenerator.price := num "115";
     TickGenerator.timestamp := Dec.ofZ now;
     TickGenerator.volume := None; TickGenerator.bid := None;
     TickGenerator.ask := None |}.

(** A tick stamped half a millisecond later. *)
Definition half : TickGenerator.PriceTick :=
  {| TickGenerator.ric := JS.lit "EUR="; TickGenerator.price := num "1.0850";
     TickGenerator.timestamp := num "1705323000000.5";
     TickGenerator.volume := None; TickGenerator.bid := None;
     TickGenerator.ask := None |}.

(** A tick of the CSV replay whose date did not parse. *)
Definition undated : TickGenerator.PriceTick :=
  {| TickGenerator.ric := JS.lit "EUR="; TickGenerator.price := num "1.0850";
     TickGenerator.timestamp := Dec.NaN;
     TickGenerator.volume := None; TickGenerator.bid := None;
     TickGenerator.ask := None |}.

Example formatTick_aapl :
  TcpSender.formatTick aapl = JS.lit "aapl.o|150.6|1705323000000|1000000|150.1|150.75".
Proof. vm_compute. reflexivity. Qed.

Example formatTick_eur :
  TcpSender.formatTick eur = JS.lit "EUR=|1.085|1705323002000|||".
Proof. vm_compute. reflexivity. Qed.

Example formatTick_undated :
  TcpSender.formatTick undated = JS.lit "EUR=|1.085|NaN|||"
  /\ validDate (TickGenerator.timestamp undated) = false.
Proof. split; vm_compute; reflexivity. Qed.

(** *** C1 *)

(** C1, witness: the line of [aapl] is decoded by a fresh strict
    validator to [aapl] with its instrument in upper case. *)
Lemma codec_round_trip_witness :
  let c := validateMessage (MessageValidator.new strict) now (TcpSender.formatTick aapl) in
  result c =
    {| isValid := true; tick := Some (CodecFacts.normalized aapl now); errors := [] |}
  /\ (exists tk', tick (result c) = Some tk'
        /\ ric tk' = JS.toUpperCase (TickGenerator.ric aapl)
        /\ price tk' = TickGenerator.price aapl
        /\ ofZ (timestamp tk') = TickGenerator.timestamp aapl
        /\ volume tk' = TickGenerator.volume aapl
        /\ bid tk' = TickGenerator.bid aapl
        /\ ask tk' = TickGenerator.ask aapl).
Proof.
  apply (CodecFacts.codec_round_trip (MessageValidator.new strict) now aapl now).
  - split; [reflexivity|]. vm_compute. lia.
  - split; [reflexivity|discriminate].
  - repeat split; reflexivity.
  - reflexivity.
  - repeat split; vm_compute; congruence.
  - repeat split; try reflexivity. discriminate.
  - repeat split; try reflexivity. discriminate.
  - repeat split; try reflexivity. discriminate.
  - evaluate.
Defined.

(** C1, counterexample: [sent115] meets every condition the data model
    puts on a tick and every field check of the validator, yet in strict
    mode a validator that last accepted [XX] at 100 rejects its line. *)
Lemma codec_round_trip_counterexample :
  CodecFacts.ricShape (TickGenerator.ric sent115)
  /\ CodecFacts.wireNumber (TickGenerator.price sent115)
  /\ CodecFacts.priceInRange (TickGenerator.price sent115)
  /\ TickGenerator.timestamp sent115 = ofZ now
  /\ CodecFacts.timestampInWindow (after100 strict) now now
  /\ TcpSender.formatTick sent115 = JS.lit "XX|115|1705323000000|||"
  /\ result (validateMessage (after100 strict) now (TcpSender.formatTick sent115)) =
       {| isValid := false;
          tick := None;
          errors := [SuspiciousPriceChange (num "0.15") (num "100") (num "115")] |}.
Proof.
  split; [split; [reflexivity|vm_compute; lia]|].
  split; [split; [reflexivity|discriminate]|].
  split; [repeat split; reflexivity|].
  split; [reflexivity|].
  split; [repeat split; vm_compute; congruence|].
  split; evaluate.
Qed.

(** A timestamp with a fraction does not come back: [parseInt] cuts it to
    its integer part, and the validator accepts the tick. *)
Example fractional_timestamp_truncated :
  TcpSender.formatTick half = JS.lit "EUR=|1.085|1705323000000.5|||"
  /\ result (validateMessage (MessageValidator.new strict) now (TcpSender.formatTick half)) =
       {| isValid := true;
          tick := Some {| ric := JS.lit "EUR="; price := num "1.085"; timestamp := now;
                          volume := None; bid := None; ask := None |};
          errors := [] |}
  /\ strictEq (ofZ now) (TickGenerator.timestamp half) = false.
Proof. repeat split; evaluate. Qed.

(** *** C2 *)

Definition message (text : string) : RawMessage :=
  {| data := JS.lit text; clientId := JS.lit "client-1"; receivedAt := now |}.

(** Ten ticks arriving in the same millisecond. *)
Definition tenMessages : list (Z * Z * RawMessage) :=
  replicate 10 (now, now, message "AB|1|1705323000000|||").

Definition tenIds : list (list N) :=
  sequenceId <$> (IngestorService.run (IngestorService.new permissive) tenMessages).1.

(** C2, witness: ten ticks handled by a new service. *)
Lemma sequence_ids_witness :
  NoDup tenIds
  /\ IngestorServiceFacts.counterOf <$> tenIds =
       (fun i => Some (0 + 1 + Z.of_nat i)%Z) <$> seq 0 (length tenIds)
  /\ (forall i j idi idj,
        (i < j)%nat -> tenIds !! i = Some idi -> tenIds !! j = Some idj ->
        exists a b, IngestorServiceFacts.counterOf idi = Some a
                    /\ IngestorServiceFacts.counterOf idj = Some b /\ (a < b)%Z).
Proof.
  apply (IngestorServiceFacts.sequence_ids_distinct_counter_increasing
           (IngestorService.new permissive) tenMessages).
  simpl. lia.
Defined.

(** C2, counterexample: all ten ticks are accepted, and the identifier of
    the tenth is smaller, as a string, than the identifier of the ninth:
    the identifiers are not increasing in send order. *)
Lemma sequence_ids_counterexample :
  length tenIds = 10%nat
  /\ IngestorServiceFacts.increasing tenIds = false
  /\ tenIds !! 8%nat = Some (JS.lit "1705323000000-9")
  /\ tenIds !! 9%nat = Some (JS.lit "1705323000000-10")
  /\ JS.strlt (JS.lit "1705323000000-10") (JS.lit "1705323000000-9") = true
  /\ JS.strlt (JS.lit "1705323000000-9") (JS.lit "1705323000000-10") = false.
Proof. vm_compute. repeat split; reflexivity. Qed.

(** *** C4 *)

(** C4, witness: the scenario of the specification, with [XX] for the
    instrument.  After 100, a tick at 115 deviates by 15%: the strict
    validator rejects it and keeps 100. *)
Lemma price_deviation_rule_witness :
  let c := validateMessage (after100 strict) now (JS.lit "XX|115|1705323000000|||") in
  isValid (result c) = false
  /\ errors (result c) = [SuspiciousPriceChange (num "0.15") (num "100") (num "115")]
  /\ self c = after100 strict.
Proof.
  assert (wellFormed (after100 strict) now (JS.lit "XX|115|1705323000000|||") tick115) as Hwf.
  { exists (JS.lit "XX"), (JS.lit "115"), (JS.lit "1705323000000"), [], [], [].
    repeat split; evaluate. }
  assert (gt (div (abs (sub (price tick115) (num "100"))) (num "100"))
             (maxPriceDeviation (validation (MessageValidator.config (after100 strict))))
          = true) as Hex by evaluate.
  destruct (price_deviation_rule (after100 strict) now _ tick115 (num "100") Hwf)
    as [(Hiff & Hrej & _) _]; try evaluate.
  destruct (Hrej Hex) as [He Hs].
  split; [by apply Hiff|]. split; [|exact Hs].
  rewrite He. evaluate.
Defined.

(** The same tick in permissive mode: accepted, with a warning, and the
    last price of [XX] becomes 115. *)
Example price_deviation_permissive :
  let c := validateMessage (after100 permissive) now (JS.lit "XX|115|1705323000000|||") in
  result c = {| isValid := true; tick := Some tick115; errors := [] |}
  /\ console c = [LargeDeviation (JS.lit "XX") (num "0.15") (num "100") (num "115")]
  /\ lastPrices (self c) !! JS.lit "XX" = Some (num "115").
Proof. cbv zeta. repeat split; evaluate. Qed.

(** *** C5 *)

(** C5, witness: [TOO|FEW|FIELDS] has three fields. *)
Lemma validateMessage_six_fields_witness :
  let c := validateMessage (MessageValidator.new strict) now (JS.lit "TOO|FEW|FIELDS") in
  isValid (result c) = false
  /\ tick (result c) = None
  /\ (errors (result c) = [EmptyMessage]
      \/ errors (result c) =
           [InvalidFormat (length (JS.split JS.PIPE (JS.lit "TOO|FEW|FIELDS")))
                          (JS.trim (JS.removeNewlines (JS.lit "TOO|FEW|FIELDS")))])
  /\ self c = MessageValidator.new strict
  /\ console c = [].
Proof.
  apply (validateMessage_six_fields (MessageValidator.new strict) now (JS.lit "TOO|FEW|FIELDS")).
  vm_compute. lia.
Defined.

(** *** C7 *)

Definition sender : TcpSender.t :=
  TcpSender.new {| TcpSender.maxReconnectAttempts := 10 |}.

(** C7, witness: two ticks sent before the first connection. *)
Lemma reconnect_queuing_witness :
  let queued := TcpSender.sendAll [aapl; eur] sender in
  let s' := TcpSender.onConnect [] (TcpSender.connect queued) in
  TcpSender.messageQueue queued =
    [JS.lit "aapl.o|150.6|1705323000000|1000000|150.1|150.75";
     JS.lit "EUR=|1.085|1705323002000|||"]
  /\ TcpSender.written queued = []
  /\ TcpSender.written s' =
       [JS.lit "aapl.o|150.6|1705323000000|1000000|150.1|150.75" ++ [JS.LF];
        JS.lit "EUR=|1.085|1705323002000|||" ++ [JS.LF]]
  /\ TcpSender.messageQueue s' = [].
Proof.
  destruct (TcpSenderFacts.reconnect_queuing sender [aapl; eur] [] eq_refl (List.Forall_nil _))
    as (_ & H1 & H2 & _ & (H4 & H5 & _) & _ & _).
  cbv zeta. rewrite H1, H2, H4, H5. repeat split; evaluate.
Defined.

(** A flush during which the second write takes the connection down:
    two of three queued records are written, the third is lost. *)
Example flush_discards_third :
  let s := TcpSender.connect (TcpSender.sendAll [aapl; eur; aapl] sender) in
  let s' := TcpSender.onConnect [TcpSender.Stays; TcpSender.Closes] s in
  length (TcpSender.messageQueue s) = 3%nat
  /\ TcpSender.written s' =
       [JS.lit "aapl.o|150.6|1705323000000|1000000|150.1|150.75" ++ [JS.LF];
        JS.lit "EUR=|1.085|1705323002000|||" ++ [JS.LF]]
  /\ TcpSender.messageQueue s' = []
  /\ TcpSender.isConnected s' = false.
Proof. cbv zeta. repeat split; evaluate. Qed.

(** *** C8 *)

(** A tick stamped 30 seconds ahead of the receiver's clock. *)
Definition ahead : PriceTick :=
  {| ric := JS.lit "EUR="; price := num "1.085"; timestamp := (now + 30000)%Z;
     volume := None; bid := None; ask := None |}.

(** C8, witness: the tick is accepted, and its latency is the negative
    difference, neither clamped nor a reason to drop the record. *)
Lemma enrichTick_latency_witness :
  let raw := message "EUR=|1.085|1705323030000|||" in
  let e := (IngestorService.enrichTick (IngestorService.new strict) now ahead raw).1 in
  latencyMs e = Some (-30000)%Z
  /\ exists e',
       (IngestorService.handleMessage (IngestorService.new strict) now now raw).1 = Some e'
       /\ latencyMs e' = Some (-30000)%Z.
Proof.
  assert (tick (result (validateMessage (MessageValidator.new strict) now
                          (JS.lit "EUR=|1.085|1705323030000|||"))) = Some ahead) as Hacc
    by evaluate.
  destruct (IngestorServiceFacts.enrichTick_latency _ _ _ _ Hacc) as [H1 H2].
  split.
  - destruct (H1 (IngestorService.new strict) now (message "EUR=|1.085|1705323030000|||"))
      as (_ & Hl & _). exact Hl.
  - destruct (H2 (IngestorService.new strict) now (message "EUR=|1.085|1705323030000|||")
                eq_refl eq_refl) as (e' & He & _ & Hl).
    exists e'. split; [exact He|exact Hl].
Defined.

(** *** C6 *)

(** C6: the two-byte UTF-8 sequence of U+00E9 followed by a line feed.
    In one chunk the connection hands on the one-character message; cut
    between the two bytes it hands on two replacement characters, because
    each chunk is decoded on its own. *)
Lemma framing_split_multibyte :
  concat [[195]; [169; 10]] = [195; 169; 10]
  /\ TcpServer.receive [] [[195; 169; 10]] = ([[233]], [])
  /\ TcpServer.receive [] [[195]; [169; 10]] = ([[65533; 65533]], []).
Proof. vm_compute. repeat split; reflexivity. Qed.

End Examples.

(** ** Further instances *)
Module MoreExamples.
Import MessageValidator MessageValidatorFacts Examples.

(** An accepted message has passed every check. *)
Lemma accepted_tick_checked_witness :
  let tk := {| ric := JS.lit "AAPL.O"; price := num "150.6"; timestamp := now;
               volume := Some (num "1000000"); bid := Some (num "150.1");
               ask := Some (num "150.75") |} in
  tick (result (validateMessage (MessageValidator.new strict) now
                  (JS.lit "aapl.o|150.60|1705323000000|1000000|150.10|150.75")))
    = Some tk
  /\ validateRic (ric tk) [] = (Some (ric tk), [])
  /\ CodecFacts.priceInRange (price tk)
  /\ CodecFacts.timestampInWindow (MessageValidator.new strict) now (timestamp tk).
Proof.
  cbv zeta.
  assert (tick (result (validateMessage (MessageValidator.new strict) now
                  (JS.lit "aapl.o|150.60|1705323000000|1000000|150.10|150.75")))
          = Some {| ric := JS.lit "AAPL.O"; price := num "150.6"; timestamp := now;
                    volume := Some (num "1000000"); bid := Some (num "150.1");
                    ask := Some (num "150.75") |}) as H by evaluate.
  split; [exact H|].
  destruct (ValidatorGuarantees.accepted_tick_checked _ _ _ _ H)
    as ((_ & _ & Hr) & Hp & Ht & _).
  split; [exact Hr|]. split; [exact Hp|exact Ht].
Defined.

(** Two lines cut into three chunks, in the middle of a field and in the
    middle of a number. *)
Lemma sent_lines_are_received_witness :
  TcpServer.receive []
    [ JS.lit "aapl.o|150.6|17053";
      JS.lit "23000000|1000000|150.1|150.75" ++ [JS.LF] ++ JS.lit "EUR=|1.0";
      JS.lit "85|1705323002000|||" ++ [JS.LF] ]
  = ([ JS.lit "aapl.o|150.6|1705323000000|1000000|150.1|150.75";
       JS.lit "EUR=|1.085|1705323002000|||" ], []).
Proof.
  rewrite (Transport.sent_lines_are_received [aapl; eur]).
  - evaluate.
  - repeat constructor; vm_compute; reflexivity.
  - evaluate.
Defined.

(** A stream of two lines and a blank one, in four chunks. *)
Lemma framing_ascii_chunks_witness :
  let chunks := [ JS.lit "AB|1|17"; JS.lit "05323000000|||" ++ [JS.LF; JS.LF];
                  JS.lit "  CD|2|1705323000000|||  " ++ [JS.CR; JS.LF] ++ JS.lit "EF";
                  JS.lit "|3" ] in
  TcpServer.receive [] chunks = TcpServer.receive [] [concat chunks]
  /\ TcpServer.receive [] chunks =
       ([JS.lit "AB|1|1705323000000|||"; JS.lit "CD|2|1705323000000|||"], JS.lit "EF|3").
Proof.
  cbv zeta. split; [|evaluate].
  refine (proj1 (TcpServerFacts.framing_ascii_chunks _ _)).
  vm_compute. repeat first [discriminate | constructor].
Defined.

(** *** The sender *)

Ltac each tac := repeat (apply List.Forall_cons; [tac|]); apply List.Forall_nil.

Definition limit10 : TcpSender.TcpSenderConfig :=
  {| TcpSender.maxReconnectAttempts := 10 |}.

(** A sender connects and then loses its connection. *)
Definition dropping : list TcpSender.Event :=
  [ TcpSender.CallConnect; TcpSender.SocketConnect []; TcpSender.SocketClose ].

(** A sender queues two ticks and then connects. *)
Definition connecting : list TcpSender.Event :=
  [ TcpSender.CallSendTick TcpSender.Stays aapl;
    TcpSender.CallSendTick TcpSender.Stays eur;
    TcpSender.CallConnect;
    TcpSender.SocketConnect [] ].

Definition dropped : TcpSender.t :=
  SenderGuarantees.runEvents dropping (TcpSender.new limit10).

Definition connected : TcpSender.t :=
  SenderGuarantees.runEvents connecting (TcpSender.new limit10).

Lemma reconnect_attempts_bounded_witness :
  (TcpSender.reconnectAttempts dropped = 1%nat
   /\ (Z.of_nat (TcpSender.reconnectAttempts dropped) <= 10)%Z)
  /\ (TcpSender.isConnected connected = true
      /\ TcpSender.reconnectAttempts connected = 0%nat
      /\ TcpSender.messageQueue connected = []
      /\ length (TcpSender.written connected) = 2%nat).
Proof.
  split.
  - split; [reflexivity|].
    refine (proj1 (SenderGuarantees.reconnect_attempts_bounded limit10 dropping _)).
    repeat split.
  - destruct (SenderGuarantees.reconnect_attempts_bounded limit10 connecting)
      as (_ & _ & _ & _ & H); [repeat split|].
    destruct H as [H0 Hq];
      [unfold connecting; each ltac:(first [exact I | lazy beta iota delta [SenderGuarantees.dated]; evaluate])|reflexivity|].
    split; [reflexivity|]. split; [exact H0|]. split; [exact Hq|reflexivity].
Defined.

(** A sender started with [--max-reconnect-attempts -3] keeps the
    negative limit and never schedules a reconnection. *)
Example negative_limit_never_reconnects :
  TickGenerator.maxReconnectAttemptsOf (Some (JS.lit "-3")) = (-3)%Z
  /\ TickGenerator.maxReconnectAttemptsOf (Some (JS.lit "0")) = 10%Z
  /\ TickGenerator.maxReconnectAttemptsOf None = 10%Z
  /\ (let s := SenderGuarantees.runEvents dropping
                 (TcpSender.new {| TcpSender.maxReconnectAttempts := -3 |}) in
      TcpSender.isConnected s = false
      /\ TcpSender.reconnectAttempts s = 0%nat
      /\ TcpSender.reconnectTimer s = false).
Proof. repeat split; reflexivity. Qed.

(** A sender allowed one reconnection attempt, after that attempt has
    failed. *)
Definition exhausted : TcpSender.t :=
  TcpSender.onClose
    (TcpSender.onTimer
       (TcpSender.onClose
          (TcpSender.connect
             (TcpSender.new {| TcpSender.maxReconnectAttempts := 1 |})))).

Lemma gave_up_is_final_witness :
  SenderGuarantees.gaveUp exhausted
  /\ TcpSender.onClose exhausted = exhausted
  /\ TcpSender.getQueuedMessageCount (TcpSender.sendAll [aapl; eur; aapl] exhausted) = 3%nat.
Proof.
  assert (SenderGuarantees.gaveUp exhausted) as H
    by (repeat split; vm_compute; (reflexivity || congruence)).
  split; [exact H|].
  destruct (SenderGuarantees.gave_up_is_final exhausted H) as (H1 & _ & H3).
  split; [exact H1|].
  destruct (H3 [aapl; eur; aapl]) as (_ & _ & -> & _). reflexivity.
Defined.

(** A tick queued before the connection, one sent while connected, one
    queued after the connection was lost. *)
Definition busy : list TcpSender.Event :=
  [ TcpSender.CallSendTick TcpSender.Stays aapl;
    TcpSender.CallConnect;
    TcpSender.SocketConnect [];
    TcpSender.CallSendTick TcpSender.Stays eur;
    TcpSender.SocketClose;
    TcpSender.CallSendTick TcpSender.Stays aapl ].

Lemma no_tick_lost_or_reordered_witness :
  SenderGuarantees.wire busy sender =
    [ JS.lit "aapl.o|150.6|1705323000000|1000000|150.1|150.75" ++ [JS.LF];
      JS.lit "EUR=|1.085|1705323002000|||" ++ [JS.LF] ]
  /\ TcpSender.messageQueue (SenderGuarantees.runEvents busy sender) =
       [ JS.lit "aapl.o|150.6|1705323000000|1000000|150.1|150.75" ]
  /\ SenderGuarantees.wire busy sender
       ++ (TcpSenderFacts.line <$>
             TcpSender.messageQueue (SenderGuarantees.runEvents busy sender))
     = TcpSenderFacts.line <$>
         (TcpSender.formatTick <$> SenderGuarantees.sentTicks busy).
Proof.
  split; [evaluate|]. split; [evaluate|].
  apply (SenderGuarantees.no_tick_lost_or_reordered limit10 busy).
  - repeat split.
  - unfold busy. each ltac:(first [exact I | reflexivity | apply List.Forall_nil]).
  - unfold busy. each ltac:(first [exact I | lazy beta iota delta [SenderGuarantees.dated]; evaluate]).
Defined.

(** A connected sender with nothing queued. *)
Definition up : TcpSender.t :=
  SenderGuarantees.runEvents [TcpSender.CallConnect; TcpSender.SocketConnect []]
    (TcpSender.new limit10).

(** The tick without a date is written, queued, and written again to the
    socket opened by the reconnect timer. *)
Lemma invalid_date_record_sent_twice_witness :
  let s1 := TcpSender.sendTick TcpSender.Stays undated up in
  let s2 := TcpSender.onConnect [] (TcpSender.onTimer s1) in
  TcpSender.written s1 = [JS.lit "EUR=|1.085|NaN|||" ++ [JS.LF]]
  /\ TcpSender.messageQueue s1 = [JS.lit "EUR=|1.085|NaN|||"]
  /\ TcpSender.isConnected s1 = true
  /\ TcpSender.reconnectAttempts s1 = 1%nat
  /\ TcpSender.written s2 = [JS.lit "EUR=|1.085|NaN|||" ++ [JS.LF]]
  /\ TcpSender.messageQueue s2 = [].
Proof.
  destruct (SenderGuarantees.invalid_date_record_sent_twice up undated [])
    as (H1 & H2 & H3 & H4 & _ & H6 & H7); try reflexivity.
  cbv zeta. rewrite H1, H2, H3, H4, H6, H7. repeat split; evaluate.
Defined.

Lemma disconnect_then_close_reconnects_witness :
  let closed := TcpSender.onClose (TcpSender.disconnect connected) in
  TcpSender.reconnectTimer (TcpSender.disconnect connected) = false
  /\ TcpSender.reconnectTimer closed = true
  /\ TcpSender.reconnectAttempts closed = 1%nat
  /\ TcpSender.isConnectionActive
       (TcpSender.onConnect [] (TcpSender.onTimer closed)) = true.
Proof.
  destruct (SenderGuarantees.disconnect_then_close_reconnects connected)
    as (_ & H1 & _ & H2 & H3 & _ & H4); try reflexivity.
  cbv zeta. split; [exact H1|]. split; [exact H2|]. split; [|exact H4].
  rewrite H3. reflexivity.
Defined.

(** *** Lenient input *)

Lemma timestamp_suffix_ignored_witness :
  validateTimestamp (MessageValidator.new permissive) now
    (JS.lit "1705323000000.999 and more") []
  = (Some now, []).
Proof.
  apply (LenientInput.timestamp_suffix_ignored (MessageValidator.new permissive)
           now now (JS.lit ".999 and more") []).
  - repeat split; vm_compute; congruence.
  - reflexivity.
Defined.

(** *** The generators *)

(** A symbol without a mapping, and a mapped one. *)
Lemma createRic_accepted_witness :
  CsvReplay.createRic (JS.lit "tsla") = JS.Text (JS.lit "TSLA.O")
  /\ CsvReplay.createRic (JS.lit "eurusd") = JS.Text (JS.lit "EUR=")
  /\ exists r,
       CsvReplay.createRic (JS.lit "tsla") = JS.Text r
       /\ validateRic r [] = (Some r, [])
       /\ (r ∈ CsvReplay.ricMappings.*2
           \/ JS.ownProperty CsvReplay.ricMappings (JS.toUpperCase (JS.lit "tsla")) = None
              /\ r = JS.toUpperCase (JS.lit "tsla") ++ JS.lit ".O").
Proof.
  split; [reflexivity|]. split; [reflexivity|].
  apply (GeneratorFacts.createRic_accepted (JS.lit "tsla")).
  - reflexivity.
  - vm_compute. lia.
Defined.

(** A pair without a mapping. *)
Lemma binanceSymbolToRic_accepted_witness :
  BinanceRelay.binanceSymbolToRic (JS.lit "SHIBUSDT") = JS.Text (JS.lit "SHIBUSDT=")
  /\ BinanceRelay.binanceSymbolToRic (JS.lit "BTCUSDT") = JS.Text (JS.lit "BTC=")
  /\ exists r,
       BinanceRelay.binanceSymbolToRic (JS.lit "SHIBUSDT") = JS.Text r
       /\ validateRic r [] = (Some r, []).
Proof.
  split; [reflexivity|]. split; [reflexivity|].
  destruct (proj1 GeneratorFacts.binanceSymbolToRic_accepted (JS.lit "SHIBUSDT"))
    as (r & H1 & H2 & _).
  - reflexivity.
  - vm_compute. lia.
  - exists r. split; [exact H1|exact H2].
Defined.

(** *** The publisher and the service *)

(** A publisher that was never connected, asked three times. *)
Lemma disconnected_publisher_stays_down_witness :
  KafkaPublisher.getMetrics (PublisherFacts.publishTimes 3 KafkaPublisher.new)
    = (0%nat, 3%nat)
  /\ KafkaPublisher.isConnectedToKafka
       (PublisherFacts.publishTimes 3 KafkaPublisher.new) = false.
Proof.
  destruct (PublisherFacts.disconnected_publisher_stays_down KafkaPublisher.new eq_refl)
    as [_ H].
  destruct (H 3%nat) as (H1 & _ & H3). split; [exact H3|exact H1].
Defined.

(** The publisher when the service starts: connected, its test message
    published. *)
Definition online : KafkaPublisher.t :=
  {| KafkaPublisher.isConnected := true; KafkaPublisher.publishCount := 1;
     KafkaPublisher.errorCount := 0; KafkaPublisher.reconnectAttempts := 0 |}.

Definition clocks : nat -> Z * Z := fun _ => (now, now).

Definition chunk (socket : nat) (text : list N) : IngestorPipeline.Event :=
  IngestorPipeline.Server (TcpServer.Data socket text (fun _ => now)) clocks.

(** Two connections and four messages: one published, one rejected by
    the validator, one whose publication fails on a lost connection (the
    reconnection succeeds), and one still waiting for [producer.send]. *)
Definition traffic : list IngestorPipeline.Event :=
  [ IngestorPipeline.Server
      (TcpServer.Connection 1 now now (JS.lit "q1w2e3r4t") None None) clocks;
    chunk 1 (JS.lit "aapl.o|150.60|1705323000000|1000000|150.10|150.75" ++ [JS.LF]
             ++ JS.lit "aapl.o|minus|1705323000000|||" ++ [JS.LF]);
    IngestorPipeline.Resume 0 (IngestorPipeline.SendSettles KafkaPublisher.Sent);
    IngestorPipeline.Server
      (TcpServer.Connection 2 now now (JS.lit "k3j9x0a1b") None None) clocks;
    chunk 2 (JS.lit "EUR=|1.0850|1705323000000|||" ++ [JS.LF]);
    IngestorPipeline.Resume 0 (IngestorPipeline.Returns now);
    IngestorPipeline.Resume 0
      (IngestorPipeline.SendSettles
         (KafkaPublisher.Rejected (Some (JS.lit "Connection lost"))));
    IngestorPipeline.Resume 0 (IngestorPipeline.ReconnectSettles KafkaPublisher.Reconnected);
    chunk 1 (JS.lit "aapl.o|151|1705323000000|||" ++ [JS.LF]);
    IngestorPipeline.Resume 0 (IngestorPipeline.Returns now) ].

(** The same, followed by a run of the [report] callback. *)
Definition trafficReported : list IngestorPipeline.Event :=
  traffic ++ [IngestorPipeline.Report].

Definition afterTraffic : IngestorPipeline.t :=
  default (IngestorPipeline.started permissive online)
          (IngestorPipeline.run traffic (IngestorPipeline.started permissive online)).

Definition afterReport : IngestorPipeline.t :=
  default (IngestorPipeline.started permissive online)
          (IngestorPipeline.run trafficReported
             (IngestorPipeline.started permissive online)).

Lemma traffic_runs :
  IngestorPipeline.run traffic (IngestorPipeline.started permissive online)
    = Some afterTraffic.
Proof.
  assert (match IngestorPipeline.run traffic
                  (IngestorPipeline.started permissive online) with
          | Some _ => true
          | None => false
          end = true) as H by evaluate.
  unfold afterTraffic. revert H.
  destruct (IngestorPipeline.run traffic _); [reflexivity|discriminate].
Qed.

Lemma trafficReported_runs :
  IngestorPipeline.run trafficReported (IngestorPipeline.started permissive online)
    = Some afterReport.
Proof.
  assert (match IngestorPipeline.run trafficReported
                  (IngestorPipeline.started permissive online) with
          | Some _ => true
          | None => false
          end = true) as H by evaluate.
  unfold afterReport. revert H.
  destruct (IngestorPipeline.run trafficReported _); [reflexivity|discriminate].
Qed.

(** After the report the service says two messages were published,
    though one was processed: the publisher had counted its test message
    before the service started. *)
Lemma messages_accounted_witness :
  (IngestorPipeline.messagesReceived (IngestorPipeline.metrics afterTraffic) = 4
   /\ IngestorPipeline.messagesProcessed (IngestorPipeline.metrics afterTraffic) = 1
   /\ IngestorPipeline.messagesFailed (IngestorPipeline.metrics afterTraffic) = 2
   /\ length (IngestorPipeline.inFlight afterTraffic) = 1)%nat
  /\ IngestorPipeline.messagesReceived (IngestorPipeline.metrics afterTraffic) =
       (IngestorPipeline.messagesProcessed (IngestorPipeline.metrics afterTraffic)
        + IngestorPipeline.messagesFailed (IngestorPipeline.metrics afterTraffic)
        + length (IngestorPipeline.inFlight afterTraffic))%nat
  /\ IngestorPipeline.messagesPublished (IngestorPipeline.metrics afterTraffic) =
       IngestorPipeline.messagesProcessed (IngestorPipeline.metrics afterTraffic)
  /\ (IngestorPipeline.messagesPublished (IngestorPipeline.metrics afterReport) = 2
      /\ IngestorPipeline.messagesProcessed (IngestorPipeline.metrics afterReport) = 1
      /\ IngestorPipeline.messagesReceived (IngestorPipeline.metrics afterReport) = 4)%nat
  /\ IngestorPipeline.messagesReceived (IngestorPipeline.metrics afterReport) =
       TcpServer.messagesReceived
         (TcpServer.getMetrics (IngestorPipeline.tcpServer afterReport)).
Proof.
  split; [repeat split; evaluate|].
  destruct (PipelineFacts.messages_accounted permissive online traffic afterTraffic
              traffic_runs) as (H1 & _ & _ & H4 & _).
  destruct (PipelineFacts.messages_accounted permissive online trafficReported
              afterReport trafficReported_runs) as (_ & H2 & _).
  split; [exact H1|]. split; [exact (proj1 (H4 eq_refl))|].
  split; [repeat split; evaluate|exact H2].
Defined.



(** *** The server and its clients *)

(** Two connections whose chunks interleave; the second one closes. *)
Definition crowd : list TcpServer.Event :=
  [ TcpServer.Connection 2 now now (JS.lit "k3j9x0a1b") None None;
    TcpServer.Data 1 (JS.lit "AB|1") (fun _ => now);
    TcpServer.Data 2 (JS.lit "zz" ++ [JS.LF]) (fun _ => now);
    TcpServer.Data 1 (JS.lit "|x" ++ [JS.LF] ++ JS.lit "C") (fun _ => now);
    TcpServer.Close 2;
    TcpServer.Data 1 (JS.lit "D" ++ [JS.LF]) (fun _ => now) ].

Definition earlier : list TcpServer.Event :=
  [ TcpServer.Connection 0 (now - 5) (now - 5) (JS.lit "p0o9i8u7y") None None;
    TcpServer.Data 0 (JS.lit "first" ++ [JS.LF]) (fun _ => now) ].

Lemma connection_served_alone_witness :
  let cid := TcpServer.newClientId now (JS.lit "q1w2e3r4t") in
  let result :=
    TcpServer.run crowd
      (TcpServer.handleNewConnection 1 now now (JS.lit "q1w2e3r4t") None None
         (TcpServer.run earlier TcpServer.new).1) in
  ServerFacts.messagesOf cid result.2 = [JS.lit "AB|1|x"; JS.lit "CD"]
  /\ length result.2 = 3%nat.
Proof.
  cbv zeta.
  destruct (ServerFacts.connection_served_alone earlier crowd 1 now now
              (JS.lit "q1w2e3r4t") None None) as [H _].
  - reflexivity.
  - apply (bool_decide_unpack _). vm_compute. exact I.
  - unfold crowd. repeat constructor; (lia || (vm_compute; discriminate)).
  - split; [|reflexivity]. rewrite H. reflexivity.
Defined.

End MoreExamples.

